(** * Module expansion engine and tilted mirror of ray-optics

    A shallow embedding of [ModuleObj] (the template expander behind
    scene modules), of the [sceneObjs] registry it instantiates from, and
    of [TiltedMirror.onRayIncident].

    Conventions of the embedding.
    - A number of the expansion engine is an exact rational or one of
      [Infinity], [-Infinity], [NaN]: rounding and the sign of zero are
      not modelled there.  What is stated of loops over ranges holds of
      the comparisons and sums the code itself makes ([<=], [+=], the
      cap test), whatever they compute, and is instantiated on numbers
      that a double holds exactly.
    - The method of the tilted mirror is written once over the
      arithmetic it uses, which is given twice: as the binary64 numbers
      of the program and as the real numbers.
    - A thrown value is kept as a term, one constructor per message
      template of the source, carrying the values interpolated in it.
    - [math.evaluate], the scene's random stream, the constructors behind
      the registry and the conversions between strings and numbers are
      not part of these sources: they are the fields of the class [Host].
    - The only loop without a syntactic bound, the [for] loop of
      [expandLoopVars], runs on fuel; a run that used all of it has no
      outcome, [None]. *)

From Stdlib Require Import Bool Ascii String List ZArith QArith Qround Lia.
From Stdlib Require Import Reals Psatz DecimalString DecimalNat.
From Stdlib Require Floats.
Import ListNotations.

Local Open Scope string_scope.
Local Open Scope list_scope.

(** ** Numbers *)

Module JsNum.

Local Open Scope Q_scope.

Inductive num : Type :=
| Fin (q : Q)
| PInf
| NInf
| NaN.

Definition zero : num := Fin 0.
Definition one : num := Fin 1.
Definition ofZ (z : Z) : num := Fin (inject_Z z).

Definition neg (x : num) : num :=
  match x with
  | Fin a => Fin (- a)
  | PInf => NInf
  | NInf => PInf
  | NaN => NaN
  end.

Definition add (x y : num) : num :=
  match x, y with
  | NaN, _ | _, NaN => NaN
  | Fin a, Fin b => Fin (a + b)
  | PInf, NInf | NInf, PInf => NaN
  | PInf, _ | _, PInf => PInf
  | NInf, _ | _, NInf => NInf
  end.

Definition sub (x y : num) : num := add x (neg y).

(** [x / y]; a finite zero divisor counts as [+0]. *)
Definition div (x y : num) : num :=
  match x, y with
  | NaN, _ | _, NaN => NaN
  | Fin a, Fin b =>
      if Qeq_bool b 0
      then match a ?= 0 with Gt => PInf | Lt => NInf | Eq => NaN end
      else Fin (a / b)
  | Fin _, _ => Fin 0
  | PInf, Fin b => if Qle_bool 0 b then PInf else NInf
  | NInf, Fin b => if Qle_bool 0 b then NInf else PInf
  | _, _ => NaN
  end.

(** [x <= y] *)
Definition le (x y : num) : bool :=
  match x, y with
  | NaN, _ | _, NaN => false
  | Fin a, Fin b => Qle_bool a b
  | NInf, _ => true
  | _, PInf => true
  | _, _ => false
  end.

(** [x < y] *)
Definition lt (x y : num) : bool :=
  match x, y with
  | NaN, _ | _, NaN => false
  | Fin a, Fin b => negb (Qle_bool b a)
  | PInf, _ => false
  | _, NInf => false
  | _, _ => true
  end.

(** [x > y] *)
Definition gt (x y : num) : bool := lt y x.

(** ToBoolean on a number: [0] and [NaN] are falsy. *)
Definition truthy (x : num) : bool :=
  match x with
  | Fin a => negb (Qeq_bool a 0)
  | NaN => false
  | _ => true
  end.

End JsNum.
Import JsNum.

(** ** Strings *)

(** [s.split(sep)] for a separator of one character. *)
Fixpoint split (sep : ascii) (s : string) : list string :=
  match s with
  | EmptyString => [EmptyString]
  | String c s' =>
      if Ascii.eqb c sep then EmptyString :: split sep s'
      else match split sep s' with
           | [] => [String c EmptyString]
           | p :: ps => String c p :: ps
           end
  end.

(** The ASCII members of JavaScript's white space and line terminators. *)
Definition isSpace (c : ascii) : bool :=
  let n := nat_of_ascii c in
  ((9 <=? n) && (n <=? 13))%nat || (n =? 32)%nat.

Fixpoint trimStart (s : string) : string :=
  match s with
  | EmptyString => EmptyString
  | String c s' => if isSpace c then trimStart s' else s
  end.

Fixpoint trimEnd (s : string) : string :=
  match s with
  | EmptyString => EmptyString
  | String c s' =>
      match trimEnd s' with
      | EmptyString => if isSpace c then EmptyString else String c EmptyString
      | t => String c t
      end
  end.

(** [s.trim()] *)
Definition trim (s : string) : string := trimEnd (trimStart s).

(** [parts.join(c)] *)
Fixpoint join (c : ascii) (parts : list string) : string :=
  match parts with
  | [] => ""
  | [p] => p
  | p :: parts' => (p ++ String c (join c parts'))%string
  end.

(** The decimal numeral of a natural number, as [String(n)] gives it. *)
Definition natToString (n : nat) : string :=
  NilZero.string_of_uint (Nat.to_uint n).

(** ** Values *)

Set Warnings "-register-all".

(** The values a template, a binding context or an expansion can hold:
    what JSON gives, [undefined], and the scene's random stream (the one
    function the engine binds, under the name [random]). *)
Inductive value : Type :=
| VUndef
| VNull
| VBool (b : bool)
| VNum (n : num)
| VStr (s : string)
| VArr (elems : list value)
| VObj (fields : list (string * value))
| VRng.

(** An object is the list of its own properties in enumeration order. *)
Definition obj : Type := list (string * value).

Fixpoint obj_has (key : string) (o : obj) : bool :=
  match o with
  | [] => false
  | (k, _) :: o' => String.eqb k key || obj_has key o'
  end.

(** [o[key]] on an object *)
Fixpoint obj_get (key : string) (o : obj) : value :=
  match o with
  | [] => VUndef
  | (k, v) :: o' => if String.eqb k key then v else obj_get key o'
  end.

(** [o[key] = v]: an existing property keeps its place, a new one goes
    last (that JavaScript enumerates integer-like keys first is not
    modelled). *)
Fixpoint obj_set (key : string) (v : value) (o : obj) : obj :=
  match o with
  | [] => [(key, v)]
  | (k, w) :: o' =>
      if String.eqb k key then (k, v) :: o' else (k, w) :: obj_set key v o'
  end.

(** [Object.assign(target, source)] *)
Definition obj_assign (target source : obj) : obj :=
  fold_left (fun t kv => obj_set (fst kv) (snd kv) t) source target.

(** ** Thrown values and outcomes *)

(** What the engine throws.  [HostError] is an exception raised by
    [math.evaluate] or by a constructor, [TypeError] one raised by the
    JavaScript runtime; the others are the strings the source builds:
    - [RangeParseError]: "error parsing variable range ... with parameters
      ...: e",
    - [StringExpandError]: "error expanding string ... with parameters
      ...: e",
    - [ArrayElemError]: "error expanding object ... in array with
      parameters ...: e",
    - [LoopVarTooLarge]: "The length of the loop variable ... is too
      large. ...",
    - [LoopTooLarge]: "The length of the loop is too large. ...". *)
Inductive exn : Type :=
| HostError (msg : string)
| TypeError (msg : string)
| RangeParseError (str : value) (params : obj) (cause : exn)
| StringExpandError (str : string) (params : obj) (cause : exn)
| ArrayElemError (elem : value) (params : obj) (cause : exn)
| LoopVarTooLarge (name : string)
| LoopTooLarge.

Inductive res (A : Type) : Type :=
| Ok (a : A)
| Throw (e : exn).
Arguments Ok {A} a.
Arguments Throw {A} e.

(** ** The collaborators outside these sources *)

Class Host : Type := {
  (** the state of the scene's random stream [scene.rng] *)
  Rng : Type;
  (** the live scene objects the constructors build *)
  SceneObj : Type;
  (** [math.evaluate(expr, scope)]: a value or an exception, and the
      random stream after the draws of [expr] *)
  evaluate : value -> obj -> Rng -> res value * Rng;
  (** [new C(scene, objData)] for the constructor [C] registered under a
      type tag *)
  construct : string -> value -> Rng -> res SceneObj * Rng;
  (** Number::toString *)
  numToStr : num -> string;
  (** the source text ToString gives for the function [scene.rng] *)
  rngToStr : string;
  (** StringToNumber *)
  strToNum : string -> num
}.

(** ** Computations: random stream, exceptions, fuel *)

Section Monad.
Context {H : Host}.

(** [None]: the run used all its fuel. *)
Definition M (A : Type) : Type := Rng -> option (res A * Rng).

Definition ret {A} (a : A) : M A := fun s => Some (Ok a, s).

Definition throw {A} (e : exn) : M A := fun s => Some (Throw e, s).

Definition bind {A B} (m : M A) (k : A -> M B) : M B :=
  fun s =>
    match m s with
    | Some (Ok a, s') => k a s'
    | Some (Throw e, s') => Some (Throw e, s')
    | None => None
    end.

(** [try { m } catch (e) { h e }] *)
Definition tryCatch {A} (m : M A) (h : exn -> M A) : M A :=
  fun s =>
    match m s with
    | Some (Throw e, s') => h e s'
    | r => r
    end.

Definition liftHost {A} (f : Rng -> res A * Rng) : M A :=
  fun s => Some (f s).

Definition liftLoop {A} (r : option (res A)) : M A :=
  fun s => match r with Some x => Some (x, s) | None => None end.

End Monad.

Declare Scope js_scope.
Delimit Scope js_scope with js.
Notation "x <- m ;; k" := (bind m (fun x => k))
  (at level 61, m at next level, right associativity) : js_scope.
Local Open Scope js_scope.

(** A loop over a list that threads its accumulator. *)
Definition foldM {H : Host} {A B} (f : B -> A -> M B)
  : list A -> B -> M B :=
  fix go (l : list A) (acc : B) : M B :=
    match l with
    | [] => ret acc
    | x :: l' => acc' <- f acc x ;; go l' acc'
    end.

(** The same with the index of the element. *)
Definition foldMi {H : Host} {A B} (f : B -> nat -> A -> M B)
  : list A -> nat -> B -> M B :=
  fix go (l : list A) (i : nat) (acc : B) : M B :=
    match l with
    | [] => ret acc
    | x :: l' => acc' <- f acc i x ;; go l' (S i) acc'
    end.

(** [l.map(f)] for a callback that may throw. *)
Definition mapM {H : Host} {A B} (f : A -> M B) (l : list A) : M (list B) :=
  foldM (fun acc x => y <- f x ;; ret (acc ++ [y])) l [].

(** ** JavaScript operators on values *)

Section Operators.
Context {H : Host}.

(** ToPrimitive gives a string for these. *)
Definition isStringy (v : value) : bool :=
  match v with
  | VStr _ | VArr _ | VObj _ | VRng => true
  | _ => false
  end.

(** ToString; an array prints its elements between commas, [null] and
    [undefined] among them as nothing. *)
Fixpoint toStr (v : value) : string :=
  match v with
  | VUndef => "undefined"
  | VNull => "null"
  | VBool true => "true"
  | VBool false => "false"
  | VNum n => numToStr n
  | VStr s => s
  | VArr elems =>
      join ","
        (map (fun e => match e with
                       | VUndef | VNull => ""
                       | _ => toStr e
                       end) elems)
  | VObj _ => "[object Object]"
  | VRng => rngToStr
  end.

(** ToNumber *)
Definition toNumber (v : value) : num :=
  match v with
  | VNum n => n
  | VBool true => one
  | VBool false => zero
  | VNull => zero
  | VUndef => NaN
  | _ => strToNum (toStr v)
  end.

(** [a - b] *)
Definition js_sub (a b : value) : value :=
  VNum (sub (toNumber a) (toNumber b)).

(** [a / b] *)
Definition js_div (a b : value) : value :=
  VNum (div (toNumber a) (toNumber b)).

(** [a + b] *)
Definition js_add (a b : value) : value :=
  if isStringy a || isStringy b then VStr (toStr a ++ toStr b)
  else VNum (add (toNumber a) (toNumber b)).

(** [a <= b] *)
Definition js_le (a b : value) : bool :=
  if isStringy a && isStringy b then String.leb (toStr a) (toStr b)
  else le (toNumber a) (toNumber b).

(** [a > b] *)
Definition js_gt (a b : value) : bool :=
  if isStringy a && isStringy b then String.ltb (toStr b) (toStr a)
  else gt (toNumber a) (toNumber b).

(** ToBoolean *)
Definition js_truthy (v : value) : bool :=
  match v with
  | VUndef | VNull => false
  | VBool b => b
  | VNum n => truthy n
  | VStr s => negb (s =? "")
  | _ => true
  end.

(** [a || b] *)
Definition js_or (a b : value) : value :=
  if js_truthy a then a else b.

End Operators.

(** ** Module definitions and parsed ranges *)

Module ModuleDef.
(** The typedef [ModuleDef], with the [vars] template the engine also
    reads; an absent field is [VUndef]. *)
Record t : Type := {
  numPoints : nat;
  params : list string;
  vars : value;
  objs : value;
  maxLoopLength : value
}.
End ModuleDef.

(** What [parseVariableRange] returns. *)
Record range : Type := {
  name : string;
  start : value;
  step : value;
  end_ : value;
  defaultVal : value
}.

(** ** The template expander *)

Section Expander.
Context {H : Host}.

(** [parts[i]] of an array of strings *)
Definition part (parts : list string) (i : nat) : value :=
  match nth_error parts i with
  | Some s => VStr s
  | None => VUndef
  end.

Definition parseVariableRange (str : value) (params : obj) : M range :=
  tryCatch
    (match str with
     | VStr s =>
         let parts := split "=" s in
         let name := trim (hd "" parts) in
         match nth_error parts 1 with
         | Some rhs =>
             let parts2 := split ":" rhs in
             let start := part parts2 0 in
             let step := part parts2 1 in
             let end_ := part parts2 2 in
             let default_ :=
               if (length parts2 =? 4)%nat then part parts2 3 else VNull in
             startVal <- liftHost (evaluate start params) ;;
             stepVal <- liftHost (evaluate step params) ;;
             endVal <- liftHost (evaluate end_ params) ;;
             defaultVal <-
               match default_ with
               | VNull => ret startVal
               | _ => liftHost (evaluate default_ params)
               end ;;
             ret {| name := name; start := startVal; step := stepVal;
                    end_ := endVal; defaultVal := defaultVal |}
         | None => throw (TypeError "parts[1] is undefined")
         end
     | _ => throw (TypeError "str.split is not a function")
     end)
    (fun e => throw (RangeParseError str params e)).

(** The loop of [expandString] over [parts], from index [i]. *)
Fixpoint expandParts (parts : list string) (i : nat) (result : string)
  (params : obj) : M string :=
  match parts with
  | [] => ret result
  | p :: parts' =>
      if (i mod 2 =? 0)%nat
      then expandParts parts' (S i) (result ++ p) params
      else v <- liftHost (evaluate (VStr p) params) ;;
           expandParts parts' (S i) (result ++ toStr v) params
  end.

Definition expandString (str : string) (params : obj) : M value :=
  tryCatch
    (let parts := split "`" str in
     if (length parts =? 3)%nat && (nth 0 parts "" =? "")
        && (nth 2 parts "" =? "")
     then liftHost (evaluate (part parts 1) params)
     else result <- expandParts parts 0 "" params ;; ret (VStr result))
    (fun e => throw (StringExpandError str params e)).

Variable fuel : nat.
Variable moduleDef : ModuleDef.t.

(** [moduleDef.maxLoopLength || 1000] *)
Definition loopCap : value :=
  js_or (ModuleDef.maxLoopLength moduleDef) (VNum (ofZ 1000)).

(** [for (let value = start; value <= end; value += step) body],
    appending what [body] gives to [result]; [val] is the current
    [value] and [n] the fuel left. *)
Fixpoint forValues (n : nat) (val end_ step : value)
  (body : value -> option (res (list obj))) (result : list obj)
  : option (res (list obj)) :=
  match n with
  | O => None
  | S n' =>
      if js_le val end_ then
        match body val with
        | Some (Ok objs) =>
            forValues n' (js_add val step) end_ step body (result ++ objs)
        | r => r
        end
      else Some (Ok result)
  end.

(** The local function [expandLoopVars] of [expandArray]; [params] is
    the variable it captures. *)
Fixpoint expandLoopVars (params : obj) (loopVars : list range)
  : option (res (list obj)) :=
  match loopVars with
  | [] => Some (Ok [params])
  | lv :: loopVars1 =>
      let loopLength :=
        js_add (js_div (js_sub (end_ lv) (start lv)) (step lv))
               (VNum one) in
      if js_gt loopLength loopCap then Some (Throw (LoopVarTooLarge (name lv)))
      else
        forValues fuel (start lv) (end_ lv) (step lv)
          (fun val =>
             match expandLoopVars params loopVars1 with
             | Some (Ok objs) =>
                 Some (Ok (map (fun obj => obj_set (name lv) val obj) objs))
             | r => r
             end)
          []
  end.

(** [loopVars] of a [for] value: one range for a string, one per
    element for an array, none otherwise. *)
Definition parseFor (forObj : value) (params : obj) : M (list range) :=
  match forObj with
  | VStr _ => lv <- parseVariableRange forObj params ;; ret [lv]
  | VArr forObjs =>
      foldM (fun loopVars forObj1 =>
               lv <- parseVariableRange forObj1 params ;;
               ret (loopVars ++ [lv]))
            forObjs []
  | _ => ret []
  end.

(** [expandObject] and [expandArray].  [for (let key in obj)] goes through
    the fields of an object, the indices of an array or of a string, and
    nothing for any other value; [typeof v === 'object'] holds of objects
    and of [null].  In [expandArray], ['for' in obj] throws a TypeError on
    a primitive element, inside the [try]; [for (let obj of arr)] throws
    one, outside it, when [arr] is neither an array nor a string. *)
Fixpoint expandObject (o : value) (params : obj) {struct o} : M value :=
  let field (result : obj) (key : string) (v : value) : M obj :=
    if (key =? "for") || (key =? "if") then ret result
    else
      match v with
      | VStr s => x <- expandString s params ;; ret (obj_set key x result)
      | VArr _ => x <- expandArray v params ;; ret (obj_set key x result)
      | VObj _ | VNull =>
          x <- expandObject v params ;; ret (obj_set key x result)
      | _ => ret (obj_set key v result)
      end in
  match o with
  | VObj fields =>
      result <- foldM (fun result kv => field result (fst kv) (snd kv))
                      fields [] ;;
      ret (VObj result)
  | VArr elems =>
      result <- foldMi (fun result i v => field result (natToString i) v)
                       elems 0%nat [] ;;
      ret (VObj result)
  | VStr s =>
      result <- foldMi (fun result i c =>
                          x <- expandString (String c "") params ;;
                          ret (obj_set (natToString i) x result))
                       (list_ascii_of_string s) 0%nat [] ;;
      ret (VObj result)
  | _ => ret (VObj [])
  end

with expandArray (arr : value) (params : obj) {struct arr} : M value :=
  match arr with
  | VArr elems =>
      result <-
        foldM (fun result elem =>
          tryCatch
            (match elem with
             | VObj fields =>
                 if obj_has "for" fields then
                   loopVars <- parseFor (obj_get "for" fields) params ;;
                   loopParams <- liftLoop (expandLoopVars params loopVars) ;;
                   if js_gt (VNum (ofZ (Z.of_nat (length loopParams)))) loopCap
                   then throw LoopTooLarge
                   else
                     foldM (fun result loopParam =>
                              skip <-
                                (if obj_has "if" fields then
                                   c <- liftHost (evaluate (obj_get "if" fields)
                                                           loopParam) ;;
                                   ret (negb (js_truthy c))
                                 else ret false) ;;
                              if skip : bool then ret result
                              else x <- expandObject elem loopParam ;;
                                   ret (result ++ [x]))
                           loopParams result
                 else if obj_has "if" fields then
                   c <- liftHost (evaluate (obj_get "if" fields) params) ;;
                   if js_truthy c
                   then x <- expandObject elem params ;; ret (result ++ [x])
                   else ret result
                 else x <- expandObject elem params ;; ret (result ++ [x])
             | VArr _ => x <- expandArray elem params ;; ret (result ++ [x])
             | VRng => ret (result ++ [elem])
             | _ => throw (TypeError "right operand of 'in' is not an object")
             end)
            (fun e => throw (ArrayElemError elem params e)))
          elems [] ;;
      ret (VArr result)
  | VStr "" => ret (VArr [])
  | VStr (String c _) =>
      throw (ArrayElemError (VStr (String c "")) params
               (TypeError "right operand of 'in' is not an object"))
  | _ => throw (TypeError "arr is not iterable")
  end.

End Expander.

(** ** The registry and the module object *)

(** The type tags the registry [sceneObjs] exports. *)
Definition sceneObjs : list string :=
  [ "SingleRay"; "Beam"; "PointSource"; "AngleSource";
    "Mirror"; "ArcMirror"; "ParabolicMirror"; "CustomMirror"; "IdealMirror";
    "BeamSplitter";
    "PlaneGlass"; "CircleGlass"; "Glass"; "CustomGlass"; "IdealLens";
    "SphericalLens"; "CircleGrinGlass"; "GrinGlass";
    "Blocker"; "CircleBlocker"; "Aperture"; "DiffractionGrating";
    "Ruler"; "Protractor"; "Detector"; "TextLabel"; "LineArrow"; "Drawing";
    "Handle"; "CropBox"; "ModuleObj" ].

Module Point.
Record t : Type := { x : value; y : value }.
End Point.

Section ModuleObj.
Context {H : Host}.

(** The fields of a module object that expansion reads or writes. *)
Record ModuleObj : Type := {
  module : string;
  moduleDef : ModuleDef.t;
  points : list Point.t;
  params : obj;
  objs : list SceneObj;
  error : option exn
}.

Definition setObjs (l : list SceneObj) (this : ModuleObj) : ModuleObj :=
  {| module := module this; moduleDef := moduleDef this;
     points := points this; params := params this;
     objs := l; error := error this |}.

Definition setError (e : option exn) (this : ModuleObj) : ModuleObj :=
  {| module := module this; moduleDef := moduleDef this;
     points := points this; params := params this;
     objs := objs this; error := e |}.

(** [new sceneObjs[objData.type](this.scene, objData)] *)
Definition instantiate (objData : value) : M SceneObj :=
  match objData with
  | VUndef | VNull => throw (TypeError "objData.type: objData is not an object")
  | _ =>
      let type := match objData with
                  | VObj fields => obj_get "type" fields
                  | _ => VUndef
                  end in
      let tag := match type with VStr s => s | _ => toStr type end in
      if existsb (String.eqb tag) sceneObjs
      then liftHost (construct tag objData)
      else throw (TypeError "sceneObjs[objData.type] is not a constructor")
  end.

(** The binding context [expandObjs] starts from: the parameters, the
    coordinates of the control points and the random stream. *)
Definition fullParams0 (this : ModuleObj) : obj :=
  let fullParams :=
    fold_left (fun fp kv => obj_set (fst kv) (snd kv) fp) (params this) [] in
  let fullParams :=
    fold_left (fun fp ip =>
                 let i := fst ip in
                 let p := snd ip in
                 obj_set ("y_" ++ natToString (i + 1)) (Point.y p)
                   (obj_set ("x_" ++ natToString (i + 1)) (Point.x p) fp))
              (combine (seq 0 (length (points this))) (points this))
              fullParams in
  obj_set "random" VRng fullParams.

Definition fieldsOf (v : value) : obj :=
  match v with
  | VObj fields => fields
  | _ => []
  end.

Definition elemsOf (v : value) : list value :=
  match v with
  | VArr elems => elems
  | _ => []
  end.

(** The body of the [try] block of [expandObjs]: the objects that
    would be assigned to [this.objs]. *)
Definition expandAndInstantiate (fuel : nat) (this : ModuleObj)
  (fullParams : obj) : M (list SceneObj) :=
  expandedObjs <-
    expandArray fuel (moduleDef this) (ModuleDef.objs (moduleDef this))
                fullParams ;;
  mapM instantiate (elemsOf expandedObjs).

(** [expandObjs()]: the module object after the call, or the exception
    that leaves the call. *)
Definition expandObjs (fuel : nat) (this : ModuleObj) : M ModuleObj :=
  let fullParams := fullParams0 this in
  varParams <-
    expandObject fuel (moduleDef this) (ModuleDef.vars (moduleDef this))
                 fullParams ;;
  let fullParams := obj_assign fullParams (fieldsOf varParams) in
  let this := setError None this in
  tryCatch
    (l <- expandAndInstantiate fuel this fullParams ;; ret (setObjs l this))
    (fun e => ret (setError (Some e) this)).

End ModuleObj.

(** ** A small host to run the engine on

    Expressions are sums of atoms, optionally compared with [!=]; an atom
    is a decimal numeral, with or without a minus sign, or a name bound
    in the scope; [random()] draws
    from the stream, whose state is the number of draws so far.  A
    constructor keeps the tag and the record it is given. *)

Module Toy.

Definition digits (s : string) : option Z :=
  match s with
  | EmptyString => None
  | _ => match NilEmpty.uint_of_string s with
         | Some u => Some (Z.of_nat (Nat.of_uint u))
         | None => None
         end
  end.

Definition numeral (s : string) : option Z :=
  match s with
  | String "-" s' => option_map Z.opp (digits s')
  | _ => digits s
  end.

Definition atom (s : string) (scope : obj) : res value :=
  let s := trim s in
  match numeral s with
  | Some z => Ok (VNum (ofZ z))
  | None =>
      if obj_has s scope then Ok (obj_get s scope)
      else Throw (HostError ("Undefined symbol " ++ s))
  end.

Definition numOf (v : value) : num :=
  match v with
  | VNum n => n
  | VBool true => one
  | VBool false => zero
  | VNull => zero
  | _ => NaN
  end.

Fixpoint sum (atoms : list string) (scope : obj) (acc : num) : res value :=
  match atoms with
  | [] => Ok (VNum acc)
  | a :: atoms' =>
      match atom a scope with
      | Ok v => sum atoms' scope (add acc (numOf v))
      | Throw e => Throw e
      end
  end.

Definition term (s : string) (scope : obj) : res value :=
  match split "+" s with
  | [a] => atom a scope
  | atoms => sum atoms scope zero
  end.

Definition numEq (a b : num) : bool :=
  match a, b with
  | Fin p, Fin q => Qeq_bool p q
  | PInf, PInf | NInf, NInf => true
  | _, _ => false
  end.

Definition expr (s : string) (scope : obj) : res value :=
  match split "!" s with
  | [l; String "=" r] =>
      match term l scope, term r scope with
      | Ok a, Ok b => Ok (VBool (negb (numEq (numOf a) (numOf b))))
      | Throw e, _ => Throw e
      | _, Throw e => Throw e
      end
  | [t] => term t scope
  | _ => Throw (HostError "Syntax error")
  end.

Definition eval (e : value) (scope : obj) (draws : nat)
  : res value * nat :=
  match e with
  | VStr s =>
      if trim s =? "random()"
      then (Ok (VNum (ofZ (Z.of_nat draws))), S draws)
      else (expr s scope, draws)
  | _ => (Throw (HostError "Unexpected type of argument"), draws)
  end.

Definition showNum (n : num) : string :=
  match n with
  | Fin q =>
      match Qnum q, Qden q with
      | Z0, _ => "0"
      | Zpos p, xH => natToString (Pos.to_nat p)
      | Zneg p, xH => "-" ++ natToString (Pos.to_nat p)
      | _, _ => "NaN"
      end
  | PInf => "Infinity"
  | NInf => "-Infinity"
  | NaN => "NaN"
  end.

Definition readNum (s : string) : num :=
  match numeral (trim s) with
  | Some z => ofZ z
  | None => match trim s with EmptyString => zero | _ => NaN end
  end.

Definition build (tag : string) (objData : value) (draws : nat)
  : res (string * value) * nat :=
  (Ok (tag, objData), draws).

(** What [build] makes of the record of a plain mirror. *)
Definition oldMirror : string * value :=
  ("Mirror", VObj [("type", VStr "Mirror")]).

Definition host : Host := {|
  Rng := nat;
  SceneObj := string * value;
  evaluate := eval;
  construct := build;
  numToStr := showNum;
  rngToStr := "function () { [native code] }";
  strToNum := readNum
|}.

End Toy.

(** ** The tilted mirror

    [TiltedMirror.onRayIncident] is written once, over the arithmetic
    it computes with.  The program runs it on IEEE 754 binary64 numbers
    ([doubles]); [reals] is the same arithmetic without rounding, on
    which the geometry of the formula is stated. *)

Module TiltedMirror.

(** The arithmetic of the method: the operators [+], [-], [*], [/],
    the functions [Math.sqrt], [Math.cos], [Math.sin], the constant
    [Math.PI] and the literals [2] and [180.0]. *)
Class Arith (N : Type) : Type := {
  plus : N -> N -> N;
  minus : N -> N -> N;
  times : N -> N -> N;
  over : N -> N -> N;
  root : N -> N;
  cosine : N -> N;
  sine : N -> N;
  pi : N;
  lit2 : N;
  lit180 : N
}.

Declare Scope arith_scope.
Delimit Scope arith_scope with arith.
Infix "+" := plus : arith_scope.
Infix "-" := minus : arith_scope.
Infix "*" := times : arith_scope.
Infix "/" := over : arith_scope.

(** [geometry.point(x, y)] *)
Record Point (N : Type) : Type := point { x : N; y : N }.
Arguments point {N}.
Arguments x {N}.
Arguments y {N}.

(** The two points a ray is given by. *)
Record Ray (N : Type) : Type := { ray_p1 : Point N; ray_p2 : Point N }.
Arguments Build_Ray {N}.
Arguments ray_p1 {N}.
Arguments ray_p2 {N}.

Record t (N : Type) : Type := { p1 : Point N; p2 : Point N; tiltAngle : N }.
Arguments Build_t {N}.
Arguments p1 {N}.
Arguments p2 {N}.
Arguments tiltAngle {N}.

Section Method.
Context {N : Type} {A : Arith N}.
Local Open Scope arith_scope.

(** [onRayIncident(ray, rayIndex, incidentPoint)]: the ray after the
    call. *)
Definition onRayIncident (this : t N) (ray : Ray N) (incidentPoint : Point N)
  : Ray N :=
  let rx := x (ray_p1 ray) - x incidentPoint in
  let ry := y (ray_p1 ray) - y incidentPoint in
  let mx := x (p2 this) - x (p1 this) in
  let my := y (p2 this) - y (p1 this) in
  let length := root (mx * mx + my * my) in
  let mx := mx / length in
  let my := my / length in
  let tiltAngle := tiltAngle this / lit180 * pi in
  let rotatedMx := mx * cosine tiltAngle - my * sine tiltAngle in
  let rotatedMy := mx * sine tiltAngle + my * cosine tiltAngle in
  {| ray_p1 := incidentPoint;
     ray_p2 :=
       point
         (x incidentPoint + rx * (rotatedMy * rotatedMy - rotatedMx * rotatedMx)
          - lit2 * ry * rotatedMx * rotatedMy)
         (y incidentPoint + ry * (rotatedMx * rotatedMx - rotatedMy * rotatedMy)
          - lit2 * rx * rotatedMx * rotatedMy) |}.

End Method.

Section Doubles.
Import PrimFloat.

(** The arithmetic of the program: binary64 numbers, each operation
    rounded to nearest, [Math.sqrt] the rounded square root.  ECMAScript
    leaves the values of [Math.cos] and [Math.sin] to the engine, except
    at a few arguments ([cos 0] is [1], [sin 0] is [0]): the two
    functions are given. *)
Definition doubles (cos sin : float -> float) : Arith float := {|
  plus := PrimFloat.add;
  minus := PrimFloat.sub;
  times := PrimFloat.mul;
  over := PrimFloat.div;
  root := PrimFloat.sqrt;
  cosine := cos;
  sine := sin;
  pi := 0x1.921fb54442d18p+1%float;
  lit2 := 2%float;
  lit180 := 180%float
|}.

End Doubles.

(** The same operations without rounding, on the real numbers. *)
Definition reals : Arith R := {|
  plus := Rplus;
  minus := Rminus;
  times := Rmult;
  over := Rdiv;
  root := R_sqrt.sqrt;
  cosine := Rtrigo_def.cos;
  sine := Rtrigo_def.sin;
  pi := PI;
  lit2 := 2%R;
  lit180 := 180%R
|}.

Local Open Scope R_scope.

(** The vector from [a] to [b]. *)
Definition vec (a b : Point R) : R * R := (x b - x a, y b - y a).

Definition dot (u v : R * R) : R := fst u * fst v + snd u * snd v.

Definition norm2 (u : R * R) : R := dot u u.

(** The mirror image of [d] in the line through the origin along the
    unit vector [m]. *)
Definition reflectAbout (m d : R * R) : R * R :=
  (2 * dot d m * fst m - fst d, 2 * dot d m * snd m - snd d).

(** The unit vector along the segment from [p1] to [p2]. *)
Definition segmentDir (this : t R) : R * R :=
  let v := vec (p1 this) (p2 this) in
  (fst v / sqrt (norm2 v), snd v / sqrt (norm2 v)).

(** [v] turned by the angle [a], in radians. *)
Definition rotate (a : R) (v : R * R) : R * R :=
  (fst v * cos a - snd v * sin a, fst v * sin a + snd v * cos a).

(** The unit normal of the segment: its direction turned by a right
    angle. *)
Definition segmentNormal (this : t R) : R * R :=
  (- snd (segmentDir this), fst (segmentDir this)).

(** The reflection of [d] at a surface of unit normal [n]. *)
Definition reflectNormal (n d : R * R) : R * R :=
  (fst d - 2 * dot d n * fst n, snd d - 2 * dot d n * snd n).

End TiltedMirror.

(** ** Module definitions and module objects to run it on *)

(** A module definition without control points or parameters. *)
Definition plainDef (vars objs maxLoopLength : value) : ModuleDef.t :=
  {| ModuleDef.numPoints := 0;
     ModuleDef.params := [];
     ModuleDef.vars := vars;
     ModuleDef.objs := objs;
     ModuleDef.maxLoopLength := maxLoopLength |}.

(** A module object of that definition, as the constructor leaves it
    before its first expansion when [l] is empty. *)
Definition plainObj {H : Host} (md : ModuleDef.t) (l : list SceneObj)
  : ModuleObj :=
  {| module := "m"; moduleDef := md; points := []; params := [];
     objs := l; error := None |}.

(** ** The life of a module object

    The constructor, [move], the placement by mouse clicks, the parameter
    controls of the object bar, the reports [getError] and [getWarning],
    [checkMouseOver] and [onDrag].  What the mouse, the object bar and
    the expanded objects answer is given to the functions as arguments. *)

Section Lifecycle.
Context {H : Host}.

Definition setPoints (l : list Point.t) (this : ModuleObj) : ModuleObj :=
  {| module := module this; moduleDef := moduleDef this;
     points := l; params := params this;
     objs := objs this; error := error this |}.

Definition setParams (p : obj) (this : ModuleObj) : ModuleObj :=
  {| module := module this; moduleDef := moduleDef this;
     points := points this; params := p;
     objs := objs this; error := error this |}.

(** [geometry.point(0, 0)] *)
Definition origin : Point.t := {| Point.x := VNum zero; Point.y := VNum zero |}.

(** [scene.modules[name]] *)
Fixpoint lookupModule (modules : list (string * ModuleDef.t)) (name : string)
  : option ModuleDef.t :=
  match modules with
  | [] => None
  | (n, md) :: modules' =>
      if String.eqb n name then Some md else lookupModule modules' name
  end.

(** The loop that gives each declared parameter its default, as the
    constructor and [onConstructMouseDown] run it: each descriptor is
    parsed against an empty scope. *)
Definition defaultParams (descriptors : list string) : M obj :=
  foldM (fun params param =>
           parsed <- parseVariableRange (VStr param) [] ;;
           ret (obj_set (name parsed) (defaultVal parsed) params))
        descriptors [].

(** The constructor, after [super(scene, jsonObj)] has set [module],
    [points] and [params] from [jsonObj], [None] standing for the [null]
    of [serializableDefaults].  The result is [None] when the object is
    left without a module. *)
Definition newModuleObj (fuel : nat) (modules : list (string * ModuleDef.t))
  (module : option string) (points : option (list Point.t))
  (params : option obj) : M (option ModuleObj) :=
  match module with
  | None | Some "" => ret None
  | Some m =>
      match lookupModule modules m with
      | None => throw (TypeError "this.moduleDef is undefined")
      | Some md =>
          let points :=
            match points with
            | Some l => l
            | None => repeat origin (ModuleDef.numPoints md)
            end in
          params <-
            match params with
            | Some p => ret p
            | None => defaultParams (ModuleDef.params md)
            end ;;
          this <- expandObjs fuel
                    {| module := m; moduleDef := md; points := points;
                       params := params; objs := []; error := None |} ;;
          ret (Some this)
      end
  end.

(** [point.x += diffX; point.y += diffY] *)
Definition movePoint (diffX diffY : value) (p : Point.t) : Point.t :=
  {| Point.x := js_add (Point.x p) diffX; Point.y := js_add (Point.y p) diffY |}.

Definition move (fuel : nat) (diffX diffY : value) (this : ModuleObj)
  : M ModuleObj :=
  match points this with
  | [] => ret this
  | _ => expandObjs fuel (setPoints (map (movePoint diffX diffY) (points this)) this)
  end.

(** The callback the object bar is given for a parameter:
    [obj.params[parsed.name] = value; obj.expandObjs()]. *)
Definition setParam (fuel : nat) (name : string) (val : value)
  (this : ModuleObj) : M ModuleObj :=
  expandObjs fuel (setParams (obj_set name val (params this)) this).

(** What [populateObjBar] creates: the note with the module name, a
    number control per parameter ([createNumber] with the name, the range
    and the current value), the demodulize button. *)
Inductive control : Type :=
| Note (module : string)
| Number (name : string) (start end_ step current : value)
| Button.

(** The [for] loop in the [try] block of [populateObjBar]; the controls
    created before an exception stay in the bar. *)
Fixpoint numberControls (this : ModuleObj) (descriptors : list string)
  (bar : list control) (s : Rng) : option (res unit * list control * Rng) :=
  match descriptors with
  | [] => Some (Ok tt, bar, s)
  | param :: descriptors' =>
      match parseVariableRange (VStr param) [] s with
      | Some (Ok parsed, s') =>
          numberControls this descriptors'
            (bar ++ [Number (name parsed) (start parsed) (end_ parsed)
                            (step parsed) (obj_get (name parsed) (params this))])
            s'
      | Some (Throw e, s') => Some (Throw e, bar, s')
      | None => None
      end
  end.

(** [populateObjBar(objBar)]: the module object and the controls of the
    bar after the call. *)
Definition populateObjBar (notDone : bool) (this : ModuleObj) (s : Rng)
  : option (ModuleObj * list control * Rng) :=
  let bar := [Note (module this)] in
  if notDone then Some (this, bar, s)
  else
    match numberControls this (ModuleDef.params (moduleDef this)) bar s with
    | Some (Ok _, bar, s') => Some (this, bar ++ [Button], s')
    | Some (Throw e, bar, s') => Some (setError (Some e) this, bar ++ [Button], s')
    | None => None
    end.

(** A module object under construction: [built] is [None] as long as the
    object has no module. *)
Record Building : Type := {
  built : option ModuleObj;
  notDone : bool
}.

(** [onConstructMouseDown]: [mousePos] is the position the mouse gives,
    snapped to the grid, [addingModuleName] the module the editor is
    adding.  The result holds [requiresObjBarUpdate]. *)
Definition onConstructMouseDown (fuel : nat)
  (modules : list (string * ModuleDef.t)) (addingModuleName : string)
  (b : Building) (mousePos : Point.t) : M (Building * bool) :=
  this <-
    (if notDone b then
       match built b with
       | Some this => ret this
       | None => throw (TypeError "this.points is null")
       end
     else
       this <-
         (let fresh :=
            match lookupModule modules addingModuleName with
            | None => throw (TypeError "this.moduleDef is undefined")
            | Some md =>
                params <- defaultParams (ModuleDef.params md) ;;
                ret {| module := addingModuleName; moduleDef := md;
                       points := []; params := params; objs := [];
                       error := match built b with
                                | Some this => error this
                                | None => None
                                end |}
            end in
          match built b with
          | Some this =>
              if String.eqb (module this) addingModuleName then ret this
              else fresh
          | None => fresh
          end) ;;
       ret (setObjs [] (setPoints [] this))) ;;
  let numPoints := ModuleDef.numPoints (moduleDef this) in
  let this :=
    if (length (points this) <? numPoints)%nat
    then setPoints (points this
                    ++ [{| Point.x := Point.x mousePos;
                           Point.y := Point.y mousePos |}]) this
    else this in
  if (length (points this) =? numPoints)%nat then
    this <- expandObjs fuel this ;;
    ret ({| built := Some this; notDone := false |}, true)
  else ret ({| built := Some this; notDone := true |}, false).

(** [onConstructMouseUp]: whether [isDone] is returned. *)
Definition onConstructMouseUp (b : Building) : M bool :=
  match built b with
  | Some this =>
      ret (length (points this) =? ModuleDef.numPoints (moduleDef this))%nat
  | None => throw (TypeError "this.points is null")
  end.

End Lifecycle.

Section Reports.
Context {H : Host}.

(** What an expanded object answers: [getError()], [getWarning()] (a
    string, or [None] for [null]) and [constructor.type]. *)
Variable objError : SceneObj -> option string.
Variable objWarning : SceneObj -> option string.
Variable objType : SceneObj -> string.

(** The lines the loops of [getError] and [getWarning] push, [i] being
    the index of the first object of [l]; an empty message is falsy. *)
Fixpoint reportLines (answer : SceneObj -> option string)
  (l : list SceneObj) (i : nat) : list string :=
  match l with
  | [] => []
  | o :: l' =>
      match answer o with
      | Some (String c msg) =>
          ("obj.objs[" ++ natToString i ++ "] " ++ objType o ++ ": "
           ++ String c msg)%string
          :: reportLines answer l' (S i)
      | _ => reportLines answer l' (S i)
      end
  end.

Definition newline : ascii := "010"%char.

Definition inExpandedObjects (lines : list string) : string :=
  ("In expanded objects:" ++ String newline (join newline lines))%string.

(** [getError()]: the error of the module object itself, or the report
    on its expanded objects, or [None] for [null]. *)
Definition getError (this : ModuleObj) : option (exn + string) :=
  match error this with
  | Some e => Some (inl e)
  | None =>
      match reportLines objError (objs this) 0 with
      | [] => None
      | errors => Some (inr (inExpandedObjects errors))
      end
  end.

Definition getWarning (this : ModuleObj) : option string :=
  match reportLines objWarning (objs this) 0 with
  | [] => None
  | warnings => Some (inExpandedObjects warnings)
  end.

End Reports.

Module DragContext.
(** The fields of a drag context that [checkMouseOver] sets. *)
Record t : Type := {
  part : Z;
  index : option nat;
  targetPoint : option Point.t;
  cursor : option string;
  mousePos0 : option Point.t;
  mousePos1 : option Point.t
}.
End DragContext.

Section MouseOver.
Context {H : Host}.

(** What the mouse and the expanded objects answer:
    [mouse.isOnPoint(p)], [geometry.distanceSquared(mouse.pos, p)],
    [mouse.getPosSnappedToGrid()], and for [obj.checkMouseOver(mouse)]
    whether a drag context is returned and whether it has a
    [targetPoint]. *)
Variable isOnPoint : Point.t -> bool.
Variable distanceSquared : Point.t -> num.
Variable mousePos : Point.t.
Variable objCheckMouseOver : SceneObj -> option bool.

(** The loop over the control points: [click_lensq] and
    [targetPoint_index] after it, [None] standing for [-1]. *)
Fixpoint nearestPoint (l : list Point.t) (i : nat) (click_lensq : num)
  (targetPoint_index : option nat) : num * option nat :=
  match l with
  | [] => (click_lensq, targetPoint_index)
  | p :: l' =>
      if isOnPoint p && le (distanceSquared p) click_lensq
      then nearestPoint l' (S i) (distanceSquared p) (Some i)
      else nearestPoint l' (S i) click_lensq targetPoint_index
  end.

(** The loop over the expanded objects: the answer of the first one the
    mouse is on. *)
Fixpoint firstHit (l : list SceneObj) : option bool :=
  match l with
  | [] => None
  | o :: l' =>
      match objCheckMouseOver o with
      | Some hasTarget => Some hasTarget
      | None => firstHit l'
      end
  end.

(** The drag contexts [checkMouseOver] returns. *)
Definition onControlPoint (i : nat) (p : Point.t) : DragContext.t :=
  {| DragContext.part := 1;
     DragContext.index := Some i;
     DragContext.targetPoint :=
       Some {| Point.x := Point.x p; Point.y := Point.y p |};
     DragContext.cursor := None;
     DragContext.mousePos0 := None;
     DragContext.mousePos1 := None |}.

Definition notDraggable (hasTarget : bool) : DragContext.t :=
  {| DragContext.part := (-1);
     DragContext.index := None;
     DragContext.targetPoint := None;
     DragContext.cursor :=
       Some (if hasTarget then "not-allowed" else "pointer");
     DragContext.mousePos0 := None;
     DragContext.mousePos1 := None |}.

Definition wholeModule : DragContext.t :=
  {| DragContext.part := 0;
     DragContext.index := None;
     DragContext.targetPoint := None;
     DragContext.cursor := None;
     DragContext.mousePos0 := Some mousePos;
     DragContext.mousePos1 := Some mousePos |}.

Definition checkMouseOver (this : ModuleObj) : option DragContext.t :=
  match snd (nearestPoint (points this) 0 PInf None) with
  | Some i => Some (onControlPoint i (nth i (points this) origin))
  | None =>
      match firstHit (objs this) with
      | Some hasTarget =>
          match points this with
          | [] => Some (notDraggable hasTarget)
          | _ => Some wholeModule
          end
      | None => None
      end
  end.

End MouseOver.

Section Drag.
Context {H : Host}.

(** [l] with the element at index [i] replaced by [p]. *)
Fixpoint replaceAt (i : nat) (p : Point.t) (l : list Point.t)
  : list Point.t :=
  match l, i with
  | [], _ => []
  | _ :: l', O => p :: l'
  | q :: l', S i' => q :: replaceAt i' p l'
  end.

Definition setMousePos1 (p : Point.t) (dc : DragContext.t) : DragContext.t :=
  {| DragContext.part := DragContext.part dc;
     DragContext.index := DragContext.index dc;
     DragContext.targetPoint := DragContext.targetPoint dc;
     DragContext.cursor := DragContext.cursor dc;
     DragContext.mousePos0 := DragContext.mousePos0 dc;
     DragContext.mousePos1 := Some p |}.

(** [onDrag]: [posGrid] is what [mouse.getPosSnappedToGrid()] answers
    and [posDirection] what [mouse.getPosSnappedToDirection] answers for
    the drag context.  The result is the module object and the drag
    context after the call. *)
Definition onDrag (fuel : nat) (shift : bool) (posGrid posDirection : Point.t)
  (dragContext : DragContext.t) (this : ModuleObj)
  : M (ModuleObj * DragContext.t) :=
  let mousePos := posGrid in
  this <-
    (if (DragContext.part dragContext =? 1)%Z then
       match DragContext.index dragContext with
       | Some i =>
           match nth_error (points this) i with
           | Some _ =>
               ret (setPoints
                      (replaceAt i {| Point.x := Point.x mousePos;
                                      Point.y := Point.y mousePos |}
                                 (points this))
                      this)
           | None =>
               throw (TypeError "this.points[dragContext.index] is undefined")
           end
       | None => throw (TypeError "this.points[dragContext.index] is undefined")
       end
     else ret this) ;;
  r <-
    (if (DragContext.part dragContext =? 0)%Z then
       let mousePosSnapped := if shift then posDirection else posGrid in
       match DragContext.mousePos1 dragContext with
       | Some mousePos1 =>
           this <- move fuel
                     (js_sub (Point.x mousePosSnapped) (Point.x mousePos1))
                     (js_sub (Point.y mousePosSnapped) (Point.y mousePos1))
                     this ;;
           ret (this, setMousePos1 mousePosSnapped dragContext)
       | None => throw (TypeError "dragContext.mousePos1 is undefined")
       end
     else ret (this, dragContext)) ;;
  this <- expandObjs fuel (fst r) ;;
  ret (this, snd r).

End Drag.

(** ** Vocabulary of the statements *)

(** The range a descriptor [x=a:s:b] of numerals parses to. *)
Definition rangeOf (x : string) (a s b : Q) : range :=
  {| name := x; start := VNum (Fin a); step := VNum (Fin s);
     end_ := VNum (Fin b); defaultVal := VNum (Fin a) |}.


(** [c] does not occur in [s]. *)
Fixpoint lacks (c : ascii) (s : string) : bool :=
  match s with
  | EmptyString => true
  | String c' s' => negb (Ascii.eqb c' c) && lacks c s'
  end.

(** A sub-expression of a range descriptor: it holds neither of the
    separators the parser splits on. *)
Definition isField (s : string) : bool := lacks "=" s && lacks ":" s.

(** Interpolation as the specification words it: the segments between
    back-ticks alternate, literal text first; an expression segment is
    evaluated and stringified. *)
Fixpoint interpolate {H : Host} (segments : list string) (params : obj)
  : M string :=
  match segments with
  | [] => ret ""
  | [text] => ret text
  | text :: expr :: segments' =>
      v <- liftHost (evaluate (VStr expr) params) ;;
      rest <- interpolate segments' params ;;
      ret (text ++ toStr v ++ rest)%string
  end.

(** A finite number as a value. *)
Definition fin (q : Q) : value := VNum (Fin q).

(** [a, a + s, (a + s) + s, ...], [k] values. *)
Fixpoint arith (k : nat) (a s : Q) : list Q :=
  match k with
  | O => []
  | S k' => a :: arith k' (a + s)%Q s
  end.

(** [counts s b a k]: stepping by [s] from [a], exactly [k] values are
    met before the first one above [b]. *)
Inductive counts (s b : Q) : Q -> nat -> Prop :=
| counts_stop (a : Q) : (b < a)%Q -> counts s b a 0
| counts_step (a : Q) (k : nat) :
    (a <= b)%Q -> counts s b (a + s)%Q k -> counts s b a (S k).

(** The loop body run on a list of values, one after the other. *)
Fixpoint foldBody (body : value -> option (res (list obj))) (vals : list Q)
  (result : list obj) : option (res (list obj)) :=
  match vals with
  | [] => Some (Ok result)
  | v :: vals' =>
      match body (fin v) with
      | Some (Ok objs) => foldBody body vals' (result ++ objs)
      | r => r
      end
  end.

(** The loop body run on the values a loop meets, one after the other. *)
Fixpoint foldValues (body : value -> option (res (list obj)))
  (vals : list value) (result : list obj) : option (res (list obj)) :=
  match vals with
  | [] => Some (Ok result)
  | v :: vals' =>
      match body v with
      | Some (Ok objs) => foldValues body vals' (result ++ objs)
      | r => r
      end
  end.

(** The combinations of named value lists over [params], in the order
    in which [expandLoopVars] pushes them: the first name varies
    slowest. *)
Fixpoint combinations (params : obj) (ranges : list (string * list value))
  : list obj :=
  match ranges with
  | [] => [params]
  | (x, vals) :: ranges' =>
      flat_map (fun v => map (obj_set x v) (combinations params ranges')) vals
  end.

(** The loop of [expandLoopVars] on the numbers of the program: the
    values that [for (let value = start; value <= end; value += step)]
    meets when [start], [end] and [step] are binary64 numbers, each sum
    rounded to nearest. *)
Fixpoint doubleValues (n : nat) (value end_ step : PrimFloat.float)
  : option (list PrimFloat.float) :=
  match n with
  | O => None
  | S n' =>
      if PrimFloat.leb value end_ then
        option_map (cons value)
                   (doubleValues n' (PrimFloat.add value step) end_ step)
      else Some []
  end.

Section Vocabulary.
Context {H : Host}.

(** The [loopLength] that [expandLoopVars] computes for a range. *)
Definition loopLength (lv : range) : value :=
  js_add (js_div (js_sub (end_ lv) (start lv)) (step lv)) (VNum one).

(** The cap test of [expandLoopVars] on a range. *)
Definition tooLong (md : ModuleDef.t) (lv : range) : bool :=
  js_gt (loopLength lv) (loopCap md).

(** The loop over the range runs at least once. *)
Definition nonEmpty (lv : range) : bool := js_le (start lv) (end_ lv).

(** [val], [val + step], [(val + step) + step], ...: [k] values, each
    the sum that the loop's [value += step] computes from the one
    before. *)
Fixpoint sums (k : nat) (val step : value) : list value :=
  match k with
  | O => []
  | S k' => val :: sums k' (js_add val step) step
  end.

(** The value of the loop variable after [k] steps from [val]. *)
Fixpoint sumAt (k : nat) (val step : value) : value :=
  match k with
  | O => val
  | S k' => sumAt k' (js_add val step) step
  end.

(** [runs end_ step val vals]: started at [val], the statement
    [for (value = val; value <= end_; value += step)] meets the values
    [vals] and then a value that is not [<= end_].  The comparison and
    the sum are the code's own. *)
Inductive runs (end_ step : value) : value -> list value -> Prop :=
| runs_stop (val : value) : js_le val end_ = false -> runs end_ step val []
| runs_next (val : value) (vals : list value) :
    js_le val end_ = true ->
    runs end_ step (js_add val step) vals ->
    runs end_ step val (val :: vals).

(** The range passes the cap test and its loop meets the values
    [vals]. *)
Definition meets (md : ModuleDef.t) (lv : range) (vals : list value) : Prop :=
  tooLong md lv = false /\ runs (end_ lv) (step lv) (start lv) vals.

(** The loop of [expandArray] over the combinations of a [for]
    element. *)
Definition forCombos (fuel : nat) (md : ModuleDef.t) (fields : obj)
  : list obj -> list value -> M (list value) :=
  foldM (fun result loopParam =>
           skip <-
             (if obj_has "if" fields then
                c <- liftHost (evaluate (obj_get "if" fields) loopParam) ;;
                ret (negb (js_truthy c))
              else ret false) ;;
           if skip : bool then ret result
           else x <- expandObject fuel md (VObj fields) loopParam ;;
                ret (result ++ [x])).

(** The [for] branch of [expandArray]. *)
Definition forElem (fuel : nat) (md : ModuleDef.t) (params : obj)
  (fields : obj) (result : list value) : M (list value) :=
  loopVars <- parseFor (obj_get "for" fields) params ;;
  loopParams <- liftLoop (expandLoopVars fuel md params loopVars) ;;
  if js_gt (VNum (ofZ (Z.of_nat (length loopParams)))) (loopCap md)
  then throw LoopTooLarge
  else forCombos fuel md fields loopParams result.

(** One turn of the loop of [expandArray], with its [try]/[catch]. *)
Definition onElem (fuel : nat) (md : ModuleDef.t) (params : obj)
  (result : list value) (elem : value) : M (list value) :=
  tryCatch
    (match elem with
     | VObj fields =>
         if obj_has "for" fields then forElem fuel md params fields result
         else if obj_has "if" fields then
           c <- liftHost (evaluate (obj_get "if" fields) params) ;;
           if js_truthy c
           then x <- expandObject fuel md elem params ;; ret (result ++ [x])
           else ret result
         else x <- expandObject fuel md elem params ;; ret (result ++ [x])
     | VArr _ => x <- expandArray fuel md elem params ;; ret (result ++ [x])
     | VRng => ret (result ++ [elem])
     | _ => throw (TypeError "right operand of 'in' is not an object")
     end)
    (fun e => throw (ArrayElemError elem params e)).

(** [keeps fuel md fields combos s out s']: going through [combos] in
    order from the stream state [s], a combination whose [if] is falsy
    gives nothing and one whose [if] is truthy gives the expansion of
    the element under it; [out] collects these and [s'] is the stream
    state at the end. *)
Inductive keeps (fuel : nat) (md : ModuleDef.t) (fields : obj)
  : list obj -> Rng -> list value -> Rng -> Prop :=
| keeps_nil (s : Rng) : keeps fuel md fields [] s [] s
| keeps_skip (combo : obj) (combos : list obj) (s s1 s2 : Rng)
    (c : value) (out : list value) :
    evaluate (obj_get "if" fields) combo s = (Ok c, s1) ->
    js_truthy c = false ->
    keeps fuel md fields combos s1 out s2 ->
    keeps fuel md fields (combo :: combos) s out s2
| keeps_take (combo : obj) (combos : list obj) (s s1 s2 s3 : Rng)
    (c x : value) (out : list value) :
    evaluate (obj_get "if" fields) combo s = (Ok c, s1) ->
    js_truthy c = true ->
    expandObject fuel md (VObj fields) combo s1 = Some (Ok x, s2) ->
    keeps fuel md fields combos s2 out s3 ->
    keeps fuel md fields (combo :: combos) s (x :: out) s3.

End Vocabulary.

(** ** Vocabulary of further statements *)

(** The keys [expandObject] skips. *)
Definition isControlKey (key : string) : bool := (key =? "for") || (key =? "if").

(** What [expandObject] stores for a field value it does not evaluate:
    a value that is no string, array or object is copied, [null] gives
    an empty object, a string without back-tick is kept.  [None] for the
    values that are expanded. *)
Definition plainImage (v : value) : option value :=
  match v with
  | VUndef | VBool _ | VNum _ | VRng => Some v
  | VNull => Some (VObj [])
  | VStr s => if lacks "`" s then Some v else None
  | _ => None
  end.

(** Neither [for] nor [if] is a key of [o]. *)
Definition noControlKeys (o : obj) : Prop :=
  obj_has "for" o = false /\ obj_has "if" o = false.

(** The values the [in] operator refuses. *)
Definition isPrimitive (v : value) : bool :=
  match v with
  | VUndef | VNull | VBool _ | VNum _ | VStr _ => true
  | _ => false
  end.

(** An array element that gives exactly one element of the result: an
    object with neither [for] nor [if], an array, a function. *)
Definition isSingle (elem : value) : bool :=
  match elem with
  | VObj fields => negb (obj_has "for" fields) && negb (obj_has "if" fields)
  | VArr _ | VRng => true
  | _ => false
  end.

(** What the expansion of such an element is: an object for an object,
    an array for an array, the element itself otherwise. *)
Definition sameKind (elem out : value) : Prop :=
  match elem with
  | VObj _ => exists fields, out = VObj fields
  | VArr _ => exists elems, out = VArr elems
  | _ => out = elem
  end.

(** The names ['x_' + (i+1)] and ['y_' + (i+1)] of the coordinates of
    the control point at index [i]. *)
Definition xName (i : nat) : string := "x_" ++ natToString (i + 1).
Definition yName (i : nat) : string := "y_" ++ natToString (i + 1).

(** The two assignments of [expandObjs] for a control point and its
    index. *)
Definition setXY (fp : obj) (ip : nat * Point.t) : obj :=
  obj_set (yName (fst ip)) (Point.y (snd ip))
    (obj_set (xName (fst ip)) (Point.x (snd ip)) fp).

(** The default a parsed descriptor gives its parameter. *)
Definition defaultOf (r : range) : string * value := (name r, defaultVal r).

(** [{ x: p.x, y: p.y }], the point a click adds. *)
Definition clicked (p : Point.t) : Point.t :=
  {| Point.x := Point.x p; Point.y := Point.y p |}.

(** An answer of [getError] or [getWarning] that is falsy: [null] or the
    empty string. *)
Definition silent (answer : option string) : bool :=
  match answer with
  | Some (String _ _) => false
  | _ => true
  end.

Section LifecycleVocabulary.
Context {H : Host}.

(** The body of the [for ... in] loop of [expandObject] for one key. *)
Definition onField (fuel : nat) (md : ModuleDef.t) (params : obj)
  (result : obj) (key : string) (v : value) : M obj :=
  if (key =? "for") || (key =? "if") then ret result
  else
    match v with
    | VStr s => x <- expandString s params ;; ret (obj_set key x result)
    | VArr _ => x <- expandArray fuel md v params ;; ret (obj_set key x result)
    | VObj _ | VNull =>
        x <- expandObject fuel md v params ;; ret (obj_set key x result)
    | _ => ret (obj_set key v result)
    end.

(** The descriptors [ds] parse one after the other against an empty
    scope, from the stream state [s], to the ranges [rs], the stream
    being left at [s']. *)
Inductive parsedAll : list string -> Rng -> list range -> Rng -> Prop :=
| parsedAll_nil (s : Rng) : parsedAll [] s [] s
| parsedAll_cons (d : string) (ds : list string) (s s1 s2 : Rng)
    (r : range) (rs : list range) :
    parseVariableRange (VStr d) [] s = Some (Ok r, s1) ->
    parsedAll ds s1 rs s2 ->
    parsedAll (d :: ds) s (r :: rs) s2.

(** The number control [populateObjBar] creates for a parsed descriptor. *)
Definition numberOf (this : ModuleObj) (r : range) : control :=
  Number (name r) (start r) (end_ r) (step r) (obj_get (name r) (params this)).

(** A module object created without a module, as the editor makes one
    before the first click. *)
Definition blank : Building := {| built := None; notDone := false |}.

(** The clicks of a placement, one [onConstructMouseDown] each: the
    state after the last one and what it returned. *)
Fixpoint constructByClicks (fuel : nat) (modules : list (string * ModuleDef.t))
  (addingModuleName : string) (b : Building) (click : Point.t)
  (clicks : list Point.t) : M (Building * bool) :=
  r <- onConstructMouseDown fuel modules addingModuleName b click ;;
  match clicks with
  | [] => ret r
  | click' :: clicks' =>
      constructByClicks fuel modules addingModuleName (fst r) click' clicks'
  end.

(** The module object being placed: the control points clicked so far
    and no expanded objects. *)
Definition placing (addingModuleName : string) (md : ModuleDef.t)
  (ps : obj) (pts : list Point.t) : ModuleObj :=
  {| module := addingModuleName; moduleDef := md; points := pts;
     params := ps; objs := []; error := None |}.

(** What the click that completes a placement returns. *)
Definition placed (this : ModuleObj) : M (Building * bool) :=
  ret ({| built := Some this; notDone := false |}, true).

(** The line [getError] and [getWarning] write for the object at index
    [i]. *)
Definition reportLine (objType : SceneObj -> string) (i : nat) (o : SceneObj)
  (msg : string) : string :=
  "obj.objs[" ++ natToString i ++ "] " ++ objType o ++ ": " ++ msg.

End LifecycleVocabulary.

(** Two module definitions to run the life of a module object on: one
    with two control points and two parameters, and the same with a
    descriptor that does not parse between them. *)
Definition twoPointDef : ModuleDef.t :=
  {| ModuleDef.numPoints := 2;
     ModuleDef.params := ["a=1:1:5"; "b=0:1:9:4"];
     ModuleDef.vars := VUndef;
     ModuleDef.objs :=
       VArr [VObj [("type", VStr "Mirror"); ("x", VStr "`x_1+a`")]];
     ModuleDef.maxLoopLength := VUndef |}.

Definition brokenDef : ModuleDef.t :=
  {| ModuleDef.numPoints := 2;
     ModuleDef.params := ["a=1:1:5"; "oops"; "b=0:1:9:4"];
     ModuleDef.vars := VUndef;
     ModuleDef.objs :=
       VArr [VObj [("type", VStr "Mirror"); ("x", VStr "`x_1+a`")]];
     ModuleDef.maxLoopLength := VUndef |}.

(** A module with one control point whose mirror draws its angle from
    the random stream. *)
Definition randomAngleDef : ModuleDef.t :=
  {| ModuleDef.numPoints := 1;
     ModuleDef.params := [];
     ModuleDef.vars := VUndef;
     ModuleDef.objs :=
       VArr [VObj [("type", VStr "Mirror"); ("angle", VStr "`random()`")]];
     ModuleDef.maxLoopLength := VUndef |}.

(** [geometry.point(x, y)] of two integers. *)
Definition pointAt (x y : Z) : Point.t :=
  {| Point.x := VNum (ofZ x); Point.y := VNum (ofZ y) |}.

(** A mouse at the origin: [geometry.distanceSquared] from it, and a
    [mouse.isOnPoint] that holds within distance 5. *)
Definition distanceSquaredFromOrigin (p : Point.t) : num :=
  match Point.x p, Point.y p with
  | VNum (Fin x), VNum (Fin y) => Fin (x * x + y * y)
  | _, _ => NaN
  end.

Definition isOnPointWithin5 (p : Point.t) : bool :=
  le (distanceSquaredFromOrigin p) (ofZ 25).

(** * Properties *)

(** ** Running a computation *)

Section MonadFacts.
Context {H : Host}.

Lemma bind_ok {A B} (m : M A) (k : A -> M B) s a s' :
  m s = Some (Ok a, s') -> bind m k s = k a s'.
Proof. intros E. unfold bind. now rewrite E. Qed.

Lemma bind_throw {A B} (m : M A) (k : A -> M B) s e s' :
  m s = Some (Throw e, s') -> bind m k s = Some (Throw e, s').
Proof. intros E. unfold bind. now rewrite E. Qed.

Lemma bind_spin {A B} (m : M A) (k : A -> M B) s :
  m s = None -> bind m k s = None.
Proof. intros E. unfold bind. now rewrite E. Qed.

Lemma bind_assoc_run {A B C} (m : M A) (f : A -> M B) (g : B -> M C) s :
  bind (bind m f) g s = bind m (fun a => bind (f a) g) s.
Proof. unfold bind. destruct (m s) as [[[a|e] s']|]; reflexivity. Qed.

Lemma bind_liftHost {A B} (f : Rng -> res A * Rng) (k : A -> M B) s :
  bind (liftHost f) k s
  = match f s with
    | (Ok a, s') => k a s'
    | (Throw e, s') => Some (Throw e, s')
    end.
Proof. unfold bind, liftHost. destruct (f s) as [[a|e] s']; reflexivity. Qed.

Lemma tryCatch_ok {A} (m : M A) (h : exn -> M A) s a s' :
  m s = Some (Ok a, s') -> tryCatch m h s = Some (Ok a, s').
Proof. intros E. unfold tryCatch. now rewrite E. Qed.

Lemma tryCatch_throw {A} (m : M A) (h : exn -> M A) s e s' :
  m s = Some (Throw e, s') -> tryCatch m h s = h e s'.
Proof. intros E. unfold tryCatch. now rewrite E. Qed.

Lemma tryCatch_spin {A} (m : M A) (h : exn -> M A) s :
  m s = None -> tryCatch m h s = None.
Proof. intros E. unfold tryCatch. now rewrite E. Qed.

Lemma foldM_app {A B} (f : B -> A -> M B) (l1 l2 : list A) :
  forall (acc : B) (s : Rng),
    foldM f (l1 ++ l2) acc s
    = bind (foldM f l1 acc) (fun acc' => foldM f l2 acc') s.
Proof.
  induction l1 as [|x l1 IH]; intros acc s; [reflexivity|].
  cbn [app foldM]. rewrite bind_assoc_run. unfold bind at 1 2.
  destruct (f acc x s) as [[[acc'|e] s']|]; try reflexivity.
  apply IH.
Qed.

End MonadFacts.

(** ** Splitting strings *)

Lemma append_assoc (a b c : string) : ((a ++ b) ++ c = a ++ (b ++ c))%string.
Proof. induction a as [|x a IH]; simpl; [reflexivity|now rewrite IH]. Qed.

Lemma append_nil_r (a : string) : (a ++ "" = a)%string.
Proof. induction a as [|x a IH]; simpl; [reflexivity|now rewrite IH]. Qed.

Lemma lacks_app (c : ascii) (a b : string) :
  lacks c (a ++ b)%string = lacks c a && lacks c b.
Proof.
  induction a as [|x a IH]; simpl; [reflexivity|].
  now rewrite IH, andb_assoc.
Qed.

Lemma split_nonempty (c : ascii) (s : string) : split c s <> [].
Proof.
  destruct s as [|x s]; simpl; [discriminate|].
  destruct (Ascii.eqb x c); [discriminate|].
  destruct (split c s); discriminate.
Qed.

Lemma split_lacks (c : ascii) (s : string) :
  lacks c s = true -> split c s = [s].
Proof.
  induction s as [|x s IH]; simpl; [reflexivity|].
  intros E. apply andb_true_iff in E as [Ex Es].
  apply negb_true_iff in Ex. rewrite Ex, (IH Es). reflexivity.
Qed.

Lemma split_app (c : ascii) (a b : string) :
  lacks c a = true -> split c (a ++ String c b)%string = a :: split c b.
Proof.
  induction a as [|x a IH]; simpl.
  - intros _. now rewrite Ascii.eqb_refl.
  - intros E. apply andb_true_iff in E as [Ex Ea].
    apply negb_true_iff in Ex. rewrite Ex, (IH Ea). reflexivity.
Qed.

Lemma join_split (c : ascii) (s : string) : join c (split c s) = s.
Proof.
  induction s as [|x s IH]; simpl; [reflexivity|].
  pose proof (split_nonempty c s) as Hn.
  destruct (Ascii.eqb_spec x c) as [->|Hx];
    destruct (split c s) as [|p ps]; try contradiction.
  - simpl in *. now rewrite IH.
  - destruct ps as [|q ps]; simpl in *; now rewrite <- IH.
Qed.

Lemma split_parts_lack (c : ascii) (s : string) :
  Forall (fun p => lacks c p = true) (split c s).
Proof.
  induction s as [|x s IH]; simpl.
  - constructor; [reflexivity|constructor].
  - destruct (Ascii.eqb_spec x c) as [->|Hx].
    + constructor; [reflexivity|exact IH].
    + pose proof (split_nonempty c s) as Hn.
      destruct (split c s) as [|p ps]; [contradiction|].
      inversion IH as [|? ? Hp Hps]; subst.
      constructor; [|exact Hps]. simpl.
      apply Ascii.eqb_neq in Hx. now rewrite Hx, Hp.
Qed.

Lemma split_single (expr : string) :
  lacks "`" expr = true ->
  split "`" ("`" ++ expr ++ "`")%string = [""; expr; ""].
Proof.
  intros He.
  change ("`" ++ expr ++ "`")%string
    with ("" ++ String "`" (expr ++ String "`" ""))%string.
  rewrite (split_app "`" "" _ eq_refl), (split_app "`" expr "" He).
  reflexivity.
Qed.

Lemma single_of_split (str : string) :
  let parts := split "`" str in
  (length parts =? 3)%nat && (nth 0 parts "" =? "") && (nth 2 parts "" =? "")
  = true ->
  exists expr, lacks "`" expr = true /\ str = ("`" ++ expr ++ "`")%string.
Proof.
  intros parts E. apply andb_true_iff in E as [E E2].
  apply andb_true_iff in E as [E3 E0].
  pose proof (join_split "`" str) as J.
  pose proof (split_parts_lack "`" str) as L.
  fold parts in J, L.
  destruct parts as [|p0 [|p1 [|p2 [|? ?]]]]; try discriminate.
  simpl in E0, E2. apply String.eqb_eq in E0, E2. subst p0 p2.
  exists p1. split.
  - inversion L as [|? ? _ L1]; subst. inversion L1; subst. assumption.
  - rewrite <- J. reflexivity.
Qed.

Lemma split_descriptor (n rhs : string) :
  lacks "=" n = true -> lacks "=" rhs = true ->
  split "=" (n ++ "=" ++ rhs)%string = [n; rhs].
Proof.
  intros Hn Hr.
  change (n ++ "=" ++ rhs)%string with (n ++ String "=" rhs)%string.
  now rewrite (split_app "=" n rhs Hn), (split_lacks "=" rhs Hr).
Qed.

Lemma isField_eq (s : string) : isField s = true -> lacks "=" s = true.
Proof. unfold isField. intros E. now apply andb_true_iff in E. Qed.

Lemma isField_colon (s : string) : isField s = true -> lacks ":" s = true.
Proof. unfold isField. intros E. now apply andb_true_iff in E. Qed.

Lemma mod2_succ (i : nat) :
  (S i mod 2 =? 0)%nat = negb (i mod 2 =? 0)%nat.
Proof.
  pose proof (Nat.div_mod_eq i 2) as E1.
  pose proof (Nat.mod_upper_bound i 2 ltac:(lia)) as B1.
  pose proof (Nat.div_mod_eq (S i) 2) as E2.
  pose proof (Nat.mod_upper_bound (S i) 2 ltac:(lia)) as B2.
  destruct (Nat.eqb_spec (S i mod 2) 0), (Nat.eqb_spec (i mod 2) 0);
    simpl; try reflexivity; exfalso; lia.
Qed.

(** ** [expandString] *)

Section ExpandStringFacts.
Context {H : Host}.

(** The index loop of [expandString] computes the interpolation; at an
    odd index a literal segment [text] has just been appended. *)
Lemma expandParts_interpolate (params : obj) (parts : list string) :
  forall (i : nat) (result : string) (s : Rng),
    ((i mod 2 =? 0)%nat = true ->
     expandParts parts i result params s
     = bind (interpolate parts params)
            (fun t => ret (result ++ t)%string) s)
    /\ ((i mod 2 =? 0)%nat = false ->
        forall text,
          expandParts parts i (result ++ text)%string params s
          = bind (interpolate (text :: parts) params)
                 (fun t => ret (result ++ t)%string) s).
Proof.
  induction parts as [|p parts IH]; intros i result s; split.
  - intros _. simpl. unfold bind, ret. now rewrite append_nil_r.
  - intros _ text. reflexivity.
  - intros Hi. cbn [expandParts]. rewrite Hi.
    apply (proj2 (IH (S i) result s)).
    rewrite mod2_succ, Hi. reflexivity.
  - intros Hi text. cbn [expandParts interpolate]. rewrite Hi.
    rewrite bind_assoc_run, !bind_liftHost.
    destruct (evaluate (VStr p) params s) as [[v|e] s1]; [|reflexivity].
    rewrite (proj1 (IH (S i) ((result ++ text) ++ toStr v)%string s1)).
    2:{ rewrite mod2_succ, Hi. reflexivity. }
    rewrite bind_assoc_run. unfold bind, ret.
    destruct (interpolate parts params s1) as [[[t|e] s2]|];
      try reflexivity.
    now rewrite !append_assoc.
Qed.

(** C6.  A string that is exactly one back-tick-delimited expression
    expands to the value of that expression, of whatever type it is.
    Any other string expands to the string read off its segments
    between back-ticks: the even-indexed ones literally, the odd-indexed
    ones evaluated and stringified.  So, once [2+3] evaluates to [5] and
    [5] prints as "5", [`2+3`] expands to the number [5] and [v=`2+3`]
    to the string "v=5". *)
Theorem expandString_spec (params : obj) (s : Rng) :
  (forall expr v s',
      lacks "`" expr = true ->
      evaluate (VStr expr) params s = (Ok v, s') ->
      expandString ("`" ++ expr ++ "`") params s = Some (Ok v, s'))
  /\ (forall str t s',
         (forall expr, lacks "`" expr = true ->
                       str <> ("`" ++ expr ++ "`")%string) ->
         interpolate (split "`" str) params s = Some (Ok t, s') ->
         expandString str params s = Some (Ok (VStr t), s'))
  /\ (params = [] ->
      evaluate (VStr "2+3") [] s = (Ok (VNum (ofZ 5)), s) ->
      numToStr (ofZ 5) = "5" ->
      expandString "`2+3`" [] s = Some (Ok (VNum (ofZ 5)), s)
      /\ expandString "v=`2+3`" [] s = Some (Ok (VStr "v=5"), s)).
Proof.
  split; [|split].
  - intros expr v s' He Hv. unfold expandString.
    rewrite (split_single expr He). cbn -[evaluate].
    unfold tryCatch, liftHost. rewrite Hv. reflexivity.
  - intros str t s' Hns Ht. unfold expandString.
    destruct ((length (split "`" str) =? 3)%nat && _ && _) eqn:E.
    + apply single_of_split in E as [expr [He Hs]].
      now destruct (Hns expr He).
    + assert (Ep : expandParts (split "`" str) 0 "" params s
                   = Some (Ok t, s')).
      { rewrite (proj1 (expandParts_interpolate params _ 0%nat "" s) eq_refl).
        now rewrite (bind_ok _ _ _ _ _ Ht). }
      unfold tryCatch. now rewrite (bind_ok _ _ _ _ _ Ep).
  - intros -> Hv Hs. split.
    + unfold expandString. cbn -[evaluate]. unfold tryCatch, liftHost.
      now rewrite Hv.
    + unfold expandString. cbn -[evaluate numToStr]. unfold tryCatch.
      rewrite bind_assoc_run, bind_liftHost, Hv.
      cbn -[numToStr]. now rewrite Hs.
Qed.

End ExpandStringFacts.

Lemma expandString_spec_witness :
  expandString (H := Toy.host) "`2+3`" [] 0%nat
  = Some (Ok (VNum (ofZ 5)), 0%nat)
  /\ expandString (H := Toy.host) "v=`2+3`" [] 0%nat
     = Some (Ok (VStr "v=5"), 0%nat).
Proof.
  destruct (expandString_spec (H := Toy.host) [] 0%nat) as [Ha [Hb Hc]].
  split.
  - apply (Ha "2+3"); reflexivity.
  - apply (Hb "v=`2+3`" "v=5").
    + intros expr _ E. discriminate E.
    + reflexivity.
Defined.

(** ** [parseVariableRange] *)

Section ParseFacts.
Context {H : Host}.

(** C7.  A descriptor [n=a:s:b] whose sub-expressions evaluate parses
    to the record of the trimmed name and the three values, each
    sub-expression evaluated against the given context in the order
    start, step, end, and with the start value as default; with a
    fourth part [d] the default is the value of [d]. *)
Theorem parseVariableRange_valid (n a s b : string) (params : obj)
  (r0 r1 r2 r3 : Rng) (va vs vb : value) :
  lacks "=" n = true ->
  isField a = true -> isField s = true -> isField b = true ->
  evaluate (VStr a) params r0 = (Ok va, r1) ->
  evaluate (VStr s) params r1 = (Ok vs, r2) ->
  evaluate (VStr b) params r2 = (Ok vb, r3) ->
  parseVariableRange (VStr (n ++ "=" ++ a ++ ":" ++ s ++ ":" ++ b)) params r0
  = Some (Ok {| name := trim n; start := va; step := vs; end_ := vb;
                defaultVal := va |}, r3)
  /\ forall (d : string) (vd : value) (r4 : Rng),
      isField d = true ->
      evaluate (VStr d) params r3 = (Ok vd, r4) ->
      parseVariableRange
        (VStr (n ++ "=" ++ a ++ ":" ++ s ++ ":" ++ b ++ ":" ++ d)) params r0
      = Some (Ok {| name := trim n; start := va; step := vs; end_ := vb;
                    defaultVal := vd |}, r4).
Proof.
  intros Hn Ha Hs Hb Eva Evs Evb.
  pose proof (isField_eq _ Ha) as Ha1. pose proof (isField_colon _ Ha) as Ha2.
  pose proof (isField_eq _ Hs) as Hs1. pose proof (isField_colon _ Hs) as Hs2.
  pose proof (isField_eq _ Hb) as Hb1. pose proof (isField_colon _ Hb) as Hb2.
  split.
  - unfold parseVariableRange.
    rewrite split_descriptor; [|assumption|].
    2:{ rewrite !lacks_app, Ha1, Hs1, Hb1. reflexivity. }
    cbn [nth_error hd].
    change (a ++ ":" ++ s ++ ":" ++ b)%string
      with (a ++ String ":" (s ++ String ":" b))%string.
    rewrite (split_app ":" a _ Ha2), (split_app ":" s _ Hs2),
      (split_lacks ":" b Hb2).
    cbn [length Nat.eqb part nth_error].
    unfold tryCatch.
    rewrite bind_liftHost, Eva, bind_liftHost, Evs, bind_liftHost, Evb.
    reflexivity.
  - intros d vd r4 Hd Evd.
    pose proof (isField_eq _ Hd) as Hd1.
    pose proof (isField_colon _ Hd) as Hd2.
    unfold parseVariableRange.
    rewrite split_descriptor; [|assumption|].
    2:{ rewrite !lacks_app, Ha1, Hs1, Hb1, Hd1. reflexivity. }
    cbn [nth_error hd].
    change (a ++ ":" ++ s ++ ":" ++ b ++ ":" ++ d)%string
      with (a ++ String ":" (s ++ String ":" (b ++ String ":" d)))%string.
    rewrite (split_app ":" a _ Ha2), (split_app ":" s _ Hs2),
      (split_app ":" b _ Hb2), (split_lacks ":" d Hd2).
    cbn [length Nat.eqb part nth_error].
    unfold tryCatch.
    rewrite bind_liftHost, Eva, bind_liftHost, Evs, bind_liftHost, Evb,
      bind_liftHost, Evd.
    reflexivity.
Qed.

End ParseFacts.

Lemma parseVariableRange_valid_witness :
  parseVariableRange (H := Toy.host) (VStr "N=1:1:10") [] 0%nat
  = Some (Ok {| name := "N"; start := VNum (ofZ 1); step := VNum (ofZ 1);
                end_ := VNum (ofZ 10); defaultVal := VNum (ofZ 1) |}, 0%nat)
  /\ parseVariableRange (H := Toy.host) (VStr "N=1:1:10:5") [] 0%nat
     = Some (Ok {| name := "N"; start := VNum (ofZ 1); step := VNum (ofZ 1);
                   end_ := VNum (ofZ 10); defaultVal := VNum (ofZ 5) |}, 0%nat).
Proof.
  pose proof (parseVariableRange_valid (H := Toy.host) "N" "1" "1" "10" []
                0%nat 0%nat 0%nat 0%nat (VNum (ofZ 1)) (VNum (ofZ 1))
                (VNum (ofZ 10)) eq_refl eq_refl eq_refl eq_refl
                eq_refl eq_refl eq_refl) as [E1 E2].
  split.
  - exact E1.
  - exact (E2 "5" (VNum (ofZ 5)) 0%nat eq_refl eq_refl).
Defined.

(** ** The loop over a range *)

Lemma inject_nat_succ (n : nat) :
  (inject_Z (Z.of_nat (S n)) == inject_Z (Z.of_nat n) + 1)%Q.
Proof. rewrite Nat2Z.inj_succ. unfold Z.succ. now rewrite inject_Z_plus. Qed.

Lemma archimedes (x : Q) : exists N : nat, (x < inject_Z (Z.of_nat N))%Q.
Proof.
  exists (Z.to_nat (Qfloor x + 1)).
  pose proof (Qlt_floor x) as Hx.
  assert (Hz : (Qfloor x + 1 <= Z.of_nat (Z.to_nat (Qfloor x + 1)))%Z) by lia.
  rewrite Zle_Qle in Hz. lra.
Qed.

Lemma counts_below (s b : Q) :
  (0 < s)%Q ->
  forall (N : nat) (a : Q),
    (b < a + inject_Z (Z.of_nat N) * s)%Q ->
    exists k, (k <= N)%nat /\ counts s b a k.
Proof.
  intros Hs. induction N as [|N IH]; intros a Hb.
  - exists 0%nat. split; [lia|]. constructor. simpl in Hb.
    unfold inject_Z in Hb. lra.
  - destruct (Qlt_le_dec b a) as [Hlt|Hle].
    + exists 0%nat. split; [lia|]. now constructor.
    + destruct (IH (a + s)%Q) as [k [Hk Hc]].
      { rewrite inject_nat_succ in Hb. lra. }
      exists (S k). split; [lia|]. now constructor.
Qed.

(** On the exact numbers of the model, a loop of positive step meets
    finitely many values. *)
Lemma counts_exists (s b a : Q) : (0 < s)%Q -> exists k, counts s b a k.
Proof.
  intros Hs. destruct (archimedes ((b - a) / s)) as [N HN].
  destruct (counts_below s b Hs N a) as [k [_ Hc]]; [|now exists k].
  assert (E : ((b - a) / s * s == b - a)%Q) by (field; lra).
  assert (X : ((b - a) / s * s < inject_Z (Z.of_nat N) * s)%Q) by nra.
  lra.
Qed.

Lemma counts_functional (s b a : Q) (k k' : nat) :
  counts s b a k -> counts s b a k' -> k = k'.
Proof.
  intros Hc. revert k'.
  induction Hc as [a Hlt|a k Hle Hc IH]; intros k' Hc'; inversion Hc'; subst.
  - reflexivity.
  - lra.
  - lra.
  - f_equal. now apply IH.
Qed.

Lemma arith_length (s : Q) (k : nat) (a : Q) : length (arith k a s) = k.
Proof.
  revert a. induction k as [|k IH]; intros a; simpl; [|rewrite IH]; reflexivity.
Qed.

Lemma foldBody_ok (body : value -> option (res (list obj)))
  (g : Q -> list obj) :
  (forall v, body (fin v) = Some (Ok (g v))) ->
  forall vals result,
    foldBody body vals result = Some (Ok (result ++ flat_map g vals)).
Proof.
  intros Hb. induction vals as [|v vals IH]; intros result; simpl.
  - now rewrite app_nil_r.
  - rewrite Hb, IH, app_assoc. reflexivity.
Qed.

Lemma foldValues_ok (body : value -> option (res (list obj)))
  (g : value -> list obj) :
  (forall v, body v = Some (Ok (g v))) ->
  forall vals result,
    foldValues body vals result = Some (Ok (result ++ flat_map g vals)).
Proof.
  intros Hb. induction vals as [|v vals IH]; intros result; simpl.
  - now rewrite app_nil_r.
  - rewrite Hb, IH, app_assoc. reflexivity.
Qed.

Lemma combinations_length (params : obj) (ranges : list (string * list value)) :
  length (combinations params ranges)
  = fold_right (fun r n => (length (snd r) * n)%nat) 1%nat ranges.
Proof.
  induction ranges as [|[x vals] ranges IH]; [reflexivity|].
  cbn [combinations fold_right snd]. rewrite <- IH. clear IH.
  induction vals as [|v vals IHv]; [reflexivity|].
  cbn [flat_map length]. rewrite length_app, length_map, IHv. reflexivity.
Qed.

Lemma combinations_size (loopVars : list range) (valss : list (list value))
  (R : range -> list value -> Prop) (params : obj) :
  Forall2 R loopVars valss ->
  length (combinations params (combine (map name loopVars) valss))
  = fold_right (fun vals n => (length vals * n)%nat) 1%nat valss.
Proof.
  intros HF. rewrite combinations_length.
  induction HF as [|lv vals loopVars valss _ _ IH]; [reflexivity|].
  cbn. now rewrite IH.
Qed.

Section LoopFacts.
Context {H : Host}.

Lemma js_le_fin (a b : Q) : js_le (fin a) (fin b) = Qle_bool a b.
Proof. reflexivity. Qed.

Lemma js_add_fin (a b : Q) : js_add (fin a) (fin b) = fin (a + b).
Proof. reflexivity. Qed.

(** While fuel lasts, the loop runs its body on the values it meets. *)
Lemma forValues_counts (s b : Q) (body : value -> option (res (list obj))) :
  forall (a : Q) (k : nat), counts s b a k ->
  forall (n : nat) (result : list obj), (k < n)%nat ->
    forValues n (fin a) (fin b) (fin s) body result
    = foldBody body (arith k a s) result.
Proof.
  induction 1 as [a Hlt|a k Hle Hc IH]; intros n result Hn.
  - destruct n as [|n]; [lia|]. cbn [forValues arith foldBody].
    rewrite js_le_fin.
    destruct (Qle_bool a b) eqn:E; [|reflexivity].
    apply Qle_bool_iff in E. lra.
  - destruct n as [|n]; [lia|]. cbn [forValues arith foldBody].
    rewrite js_le_fin.
    apply Qle_bool_iff in Hle. rewrite Hle.
    destruct (body (fin a)) as [[objs|e]|]; try reflexivity.
    rewrite js_add_fin. apply IH. lia.
Qed.

(** A loop whose step is not positive never leaves a range it is in. *)
Lemma forValues_spins (s b : Q) (body : value -> option (res (list obj))) :
  (s <= 0)%Q ->
  (forall v, exists objs, body v = Some (Ok objs)) ->
  forall (n : nat) (a : Q) (result : list obj),
    (a <= b)%Q ->
    forValues n (fin a) (fin b) (fin s) body result = None.
Proof.
  intros Hs Hb. induction n as [|n IH]; intros a result Ha; [reflexivity|].
  cbn [forValues]. rewrite js_le_fin.
  pose proof Ha as Ha'. apply Qle_bool_iff in Ha'. rewrite Ha'.
  destruct (Hb (fin a)) as [objs ->].
  rewrite js_add_fin. apply IH. lra.
Qed.

Lemma expandLoopVars_cons (fuel : nat) (md : ModuleDef.t) (params : obj)
  (lv : range) (loopVars1 : list range) :
  expandLoopVars fuel md params (lv :: loopVars1)
  = if tooLong md lv then Some (Throw (LoopVarTooLarge (name lv)))
    else forValues fuel (start lv) (end_ lv) (step lv)
           (fun val =>
              match expandLoopVars fuel md params loopVars1 with
              | Some (Ok objs) =>
                  Some (Ok (map (fun obj => obj_set (name lv) val obj) objs))
              | r => r
              end) [].
Proof. reflexivity. Qed.

(** The values a loop meets are the successive sums from its start;
    each is [<= end_], and the sum after the last is not. *)
Lemma runs_sums (end_ step : value) (val : value) (vals : list value) :
  runs end_ step val vals ->
  vals = sums (length vals) val step
  /\ Forall (fun v => js_le v end_ = true) vals
  /\ js_le (sumAt (length vals) val step) end_ = false.
Proof.
  induction 1 as [val Hstop|val vals Hle _ (IH1 & IH2 & IH3)].
  - repeat split; [constructor|exact Hstop].
  - split; [|split].
    + cbn [length sums]. now rewrite <- IH1.
    + now constructor.
    + exact IH3.
Qed.

Lemma runs_functional (end_ step : value) (val : value)
  (vals vals' : list value) :
  runs end_ step val vals -> runs end_ step val vals' -> vals = vals'.
Proof.
  intros Hr. revert vals'.
  induction Hr as [val Hstop|val vals Hle _ IH]; intros vals' Hr';
    inversion Hr'; subst; try congruence.
  f_equal. now apply IH.
Qed.

(** The successive sums from [val] are the values the loop meets, when
    the first [k] of them are [<= end_] and the next one is not. *)
Lemma sums_run (end_ step : value) (k : nat) :
  forall val : value,
    forallb (fun v => js_le v end_) (sums k val step) = true ->
    js_le (sumAt k val step) end_ = false ->
    runs end_ step val (sums k val step).
Proof.
  induction k as [|k IH]; intros val Hall Hstop.
  - now apply runs_stop.
  - cbn [sums forallb] in Hall. apply andb_true_iff in Hall as [Hle Hall].
    cbn [sums]. apply runs_next; [exact Hle|]. now apply IH.
Qed.

(** While fuel lasts, the loop runs its body on the values it meets. *)
Lemma forValues_runs (end_ step : value)
  (body : value -> option (res (list obj))) :
  forall (val : value) (vals : list value), runs end_ step val vals ->
  forall (n : nat) (result : list obj), (length vals < n)%nat ->
    forValues n val end_ step body result = foldValues body vals result.
Proof.
  induction 1 as [val Hstop|val vals Hle _ IH]; intros n result Hn.
  - destruct n as [|n]; [cbn in Hn; lia|]. cbn [forValues foldValues].
    now rewrite Hstop.
  - destruct n as [|n]; [cbn in Hn; lia|]. cbn [forValues foldValues].
    rewrite Hle.
    destruct (body val) as [[objs|e]|]; try reflexivity.
    apply IH. cbn in Hn. lia.
Qed.

(** Ranges that pass the cap test and whose loops end expand to the
    combinations of the values their loops meet. *)
Lemma expandLoopVars_meets (fuel : nat) (md : ModuleDef.t) (params : obj) :
  forall (loopVars : list range) (valss : list (list value)),
    Forall2 (meets md) loopVars valss ->
    Forall (fun vals => (length vals < fuel)%nat) valss ->
    expandLoopVars fuel md params loopVars
    = Some (Ok (combinations params (combine (map name loopVars) valss))).
Proof.
  induction 1 as [|lv vals loopVars valss [Hcap Hr] _ IH]; intros Hf.
  - reflexivity.
  - inversion Hf as [|? ? Hv Hf']; subst.
    rewrite expandLoopVars_cons, Hcap, (IH Hf').
    rewrite (forValues_runs _ _ _ _ _ Hr) by assumption.
    cbn [map combine combinations].
    now rewrite (foldValues_ok _ (fun v => map (obj_set (name lv) v)
                   (combinations params (combine (map name loopVars) valss)))).
Qed.

(** A loop at a value that its step does not change never ends. *)
Lemma forValues_stuck (end_ step val : value)
  (body : value -> option (res (list obj))) :
  js_le val end_ = true -> js_add val step = val ->
  forall (n : nat) (result : list obj) (combos : list obj),
    forValues n val end_ step body result <> Some (Ok combos).
Proof.
  intros Hle Hadd. induction n as [|n IH]; intros result combos; [discriminate|].
  cbn [forValues]. rewrite Hle, Hadd.
  destruct (body val) as [[objs|e]|]; [apply IH|discriminate|discriminate].
Qed.

Lemma forValues_stuck_none (end_ step val : value)
  (body : value -> option (res (list obj))) :
  js_le val end_ = true -> js_add val step = val ->
  (exists objs, body val = Some (Ok objs)) ->
  forall (n : nat) (result : list obj),
    forValues n val end_ step body result = None.
Proof.
  intros Hle Hadd [objs Hb]. induction n as [|n IH]; intros result; [reflexivity|].
  cbn [forValues]. rewrite Hle, Hadd, Hb. apply IH.
Qed.

(** The first range that fails the cap test is the one reported, as long
    as the loops around it run at least once. *)
Lemma expandLoopVars_tooLong (fuel : nat) (md : ModuleDef.t) (params : obj)
  (lv : range) (after : list range) :
  (0 < fuel)%nat -> tooLong md lv = true ->
  forall before : list range,
    Forall (fun r => tooLong md r = false /\ nonEmpty r = true) before ->
    expandLoopVars fuel md params (before ++ lv :: after)
    = Some (Throw (LoopVarTooLarge (name lv))).
Proof.
  intros Hfuel Hlv. induction before as [|r before IH]; intros Hb.
  - cbn [app]. now rewrite expandLoopVars_cons, Hlv.
  - inversion Hb as [|? ? [Hr1 Hr2] Hb']; subst.
    cbn [app]. rewrite expandLoopVars_cons, Hr1, (IH Hb').
    destruct fuel as [|n]; [lia|]. cbn [forValues].
    unfold nonEmpty in Hr2. now rewrite Hr2.
Qed.

End LoopFacts.

Lemma flat_map_single {A B} (f : A -> B) (l : list A) :
  flat_map (fun x => [f x]) l = map f l.
Proof. induction l as [|x l IH]; [reflexivity|]. cbn. now rewrite IH. Qed.

Ltac count_up :=
  repeat (first [ apply counts_stop; reflexivity
                | apply counts_step; [discriminate|] ]).

Ltac run_up :=
  repeat (first [ apply runs_stop; reflexivity
                | apply runs_next; [reflexivity|] ]).

(** ** Loop expansion binds the sequence of a range *)

Section LoopTheorems.
Context {H : Host}.

(** A single range that passes the cap test binds its name to the values
    its loop meets, in order. *)
Lemma expandLoopVars_single (md : ModuleDef.t) (params : obj) (lv : range)
  (a s b : Q) (k : nat) :
  start lv = fin a -> step lv = fin s -> end_ lv = fin b ->
  tooLong md lv = false -> counts s b a k ->
  forall fuel, (k < fuel)%nat ->
    expandLoopVars fuel md params [lv]
    = Some (Ok (map (fun v => obj_set (name lv) (fin v) params)
                    (arith k a s))).
Proof.
  intros Ea Es Eb Hcap Hc fuel Hf.
  rewrite expandLoopVars_cons, Hcap, Ea, Es, Eb.
  rewrite (forValues_counts s b _ a k Hc) by assumption.
  rewrite (foldBody_ok _ (fun v => [obj_set (name lv) (fin v) params]))
    by reflexivity.
  cbn [app]. now rewrite flat_map_single.
Qed.

(** On the exact numbers of the model, loops over finite ranges of
    positive step end, whatever the cap: with enough fuel the expansion
    returns the combinations or throws.  (A double can be too large for
    the step to change it: see [forValues_stuck].) *)
Lemma expandLoopVars_terminates (md : ModuleDef.t) (params : obj) :
  forall loopVars : list range,
    Forall (fun lv => exists a s b,
                start lv = fin a /\ step lv = fin s /\ end_ lv = fin b
                /\ (0 < s)%Q) loopVars ->
    exists N : nat,
      forall fuel, (N < fuel)%nat ->
        expandLoopVars fuel md params loopVars <> None.
Proof.
  induction 1 as [|lv loopVars [a [s [b [Ea [Es [Eb Hs]]]]]] _ [N IH]].
  - exists 0%nat. intros fuel _. discriminate.
  - destruct (counts_exists s b a Hs) as [k Hc].
    exists (Nat.max k N). intros fuel Hf.
    rewrite expandLoopVars_cons.
    destruct (tooLong md lv); [discriminate|].
    rewrite Ea, Es, Eb, (forValues_counts s b _ a k Hc) by lia.
    specialize (IH fuel ltac:(lia)).
    destruct (expandLoopVars fuel md params loopVars) as [[objs|e]|];
      [| |contradiction].
    + now rewrite (foldBody_ok _ (fun v => map (obj_set (name lv) (fin v)) objs)).
    + destruct (arith k a s); discriminate.
Qed.

(** A single range that passes the cap test and whose loop ends binds
    its name to the values the loop meets, in order. *)
Lemma expandLoopVars_one (md : ModuleDef.t) (params : obj) (lv : range)
  (vals : list value) :
  meets md lv vals ->
  forall fuel, (length vals < fuel)%nat ->
    expandLoopVars fuel md params [lv]
    = Some (Ok (map (fun v => obj_set (name lv) v params) vals)).
Proof.
  intros Hm fuel Hf.
  rewrite (expandLoopVars_meets fuel md params [lv] [vals]).
  - cbn [map combine combinations]. now rewrite flat_map_single.
  - constructor; [exact Hm|constructor].
  - constructor; [exact Hf|constructor].
Qed.

(** C4, amended.  For a parsed range that the cap test lets pass and
    whose loop ends, loop expansion binds the name to exactly the values
    the loop meets, in order, and these are determined by the range: the
    start, then each time the sum of the value before and the step, as
    the code's [+=] computes it, every one of them [<= end], the sum
    after the last one not [<= end].  Under the default cap the range
    [x=0:1:3] binds [x] to [0], [1], [2], [3]; and a step that does not
    divide [end - start] raises no error: [x=0:1:2.5] binds [x] to [0],
    [1], [2]. *)
Theorem expandLoopVars_sequence (md : ModuleDef.t) (params : obj) :
  (forall (lv : range) (vals : list value),
      tooLong md lv = false ->
      runs (end_ lv) (step lv) (start lv) vals ->
      (forall fuel, (length vals < fuel)%nat ->
         expandLoopVars fuel md params [lv]
         = Some (Ok (map (fun v => obj_set (name lv) v params) vals)))
      /\ (forall vals', runs (end_ lv) (step lv) (start lv) vals' ->
                        vals' = vals)
      /\ vals = sums (length vals) (start lv) (step lv)
      /\ Forall (fun v => js_le v (end_ lv) = true) vals
      /\ js_le (sumAt (length vals) (start lv) (step lv)) (end_ lv) = false)
  /\ (ModuleDef.maxLoopLength md = VUndef ->
      forall fuel, (4 < fuel)%nat ->
        expandLoopVars fuel md params [rangeOf "x" 0 1 3]
        = Some (Ok [obj_set "x" (fin 0) params; obj_set "x" (fin 1) params;
                    obj_set "x" (fin 2) params; obj_set "x" (fin 3) params]))
  /\ (ModuleDef.maxLoopLength md = VUndef ->
      forall fuel, (3 < fuel)%nat ->
        expandLoopVars fuel md params [rangeOf "x" 0 1 (5 # 2)]
        = Some (Ok [obj_set "x" (fin 0) params; obj_set "x" (fin 1) params;
                    obj_set "x" (fin 2) params])).
Proof.
  split; [|split].
  - intros lv vals Hcap Hr. split; [|split].
    + now apply expandLoopVars_one.
    + intros vals' Hr'. now apply (runs_functional (end_ lv) (step lv) (start lv)).
    + now apply (runs_sums (end_ lv)).
  - intros Hmd fuel Hf.
    apply (expandLoopVars_one md params (rangeOf "x" 0 1 3)
             [fin 0; fin 1; fin 2; fin 3]); [|exact Hf].
    split.
    + unfold tooLong, loopCap. rewrite Hmd. reflexivity.
    + run_up.
  - intros Hmd fuel Hf.
    apply (expandLoopVars_one md params (rangeOf "x" 0 1 (5 # 2))
             [fin 0; fin 1; fin 2]); [|exact Hf].
    split.
    + unfold tooLong, loopCap. rewrite Hmd. reflexivity.
    + run_up.
Qed.
End LoopTheorems.

Lemma expandLoopVars_sequence_witness :
  let md := plainDef VUndef (VArr []) VUndef in
  let lv := rangeOf "t" 0 1 (5 # 2) in
  tooLong (H := Toy.host) md lv = false
  /\ runs (H := Toy.host) (end_ lv) (step lv) (start lv) [fin 0; fin 1; fin 2]
  /\ expandLoopVars (H := Toy.host) 4 md [("n", fin 7)] [lv]
     = Some (Ok [[("n", fin 7); ("t", fin 0)]; [("n", fin 7); ("t", fin 1)];
                 [("n", fin 7); ("t", fin 2)]])
  /\ expandLoopVars (H := Toy.host) 5 md [] [rangeOf "x" 0 1 3]
     = Some (Ok [[("x", fin 0)]; [("x", fin 1)]; [("x", fin 2)]; [("x", fin 3)]]).
Proof.
  intros md lv.
  assert (Hcap : tooLong (H := Toy.host) md lv = false) by reflexivity.
  assert (Hr : runs (H := Toy.host) (end_ lv) (step lv) (start lv)
                 [fin 0; fin 1; fin 2]) by run_up.
  destruct (expandLoopVars_sequence (H := Toy.host) md [("n", fin 7)])
    as [Hg _].
  destruct (expandLoopVars_sequence (H := Toy.host) md []) as [_ [Hx _]].
  split; [exact Hcap|]. split; [exact Hr|]. split.
  - apply (proj1 (Hg lv [fin 0; fin 1; fin 2] Hcap Hr) 4%nat). cbn. lia.
  - apply (Hx eq_refl 5%nat). lia.
Defined.

Section SequenceOnDoubles.
Import PrimFloat.

(** C4 as stated fails, twice.  Not every parsed range is bound to its
    sequence: the descriptor [x=0:1:2000] parses, and under the default
    cap of 1000 its range is refused, so that the expansion throws and
    [x] is bound to no value at all.  And on the binary64 numbers of the
    program the values bound are not [a], [a + s], [a + 2 s], ...: from
    0 to 1 by the double 0.1 the loop meets eleven values, the ninth of
    which, 0.7999999999999999, is below 8 times the step, and the last
    of which is 0.9999999999999999, although 10 times the step is 1. *)
Lemma expandLoopVars_sequence_counterexample :
  let md := plainDef VUndef (VArr []) VUndef in
  let tenth := 0x1.999999999999ap-4%float in
  parseVariableRange (H := Toy.host) (VStr "x=0:1:2000") [] 0%nat
  = Some (Ok (rangeOf "x" 0 1 2000), 0%nat)
  /\ (forall fuel : nat,
        expandLoopVars (H := Toy.host) fuel md [] [rangeOf "x" 0 1 2000]
        = Some (Throw (LoopVarTooLarge "x")))
  /\ (forall fuel : nat,
        expandArray (H := Toy.host) (S fuel) md
          (VArr [VObj [("for", VStr "x=0:1:2000"); ("type", VStr "Mirror")]])
          [] 0%nat
        = Some (Throw (ArrayElemError
                         (VObj [("for", VStr "x=0:1:2000");
                                ("type", VStr "Mirror")]) []
                         (LoopVarTooLarge "x")), 0%nat))
  /\ doubleValues 12 0%float 1%float tenth
     = Some [0; 0x1.999999999999ap-4; 0x1.999999999999ap-3;
             0x1.3333333333334p-2; 0x1.999999999999ap-2; 0x1p-1;
             0x1.3333333333333p-1; 0x1.6666666666666p-1;
             0x1.9999999999999p-1; 0x1.cccccccccccccp-1;
             0x1.fffffffffffffp-1]%float
  /\ (0x1.9999999999999p-1 <? 8 * tenth)%float = true
  /\ (0x1.fffffffffffffp-1 <? 1)%float = true
  /\ (10 * tenth =? 1)%float = true.
Proof.
  intros md tenth. split; [reflexivity|]. split; [|split].
  - intros fuel. reflexivity.
  - intros fuel. reflexivity.
  - repeat split; vm_compute; reflexivity.
Qed.

End SequenceOnDoubles.

(** ** [expandArray] *)

Section ArrayFacts.
Context {H : Host}.

Lemma foldM_ext {A B} (f g : B -> A -> M B) :
  (forall acc x s, f acc x s = g acc x s) ->
  forall l acc s, foldM f l acc s = foldM g l acc s.
Proof.
  intros E. induction l as [|x l IH]; intros acc s; [reflexivity|].
  cbn [foldM]. unfold bind. rewrite E.
  destruct (g acc x s) as [[[acc'|e] s']|]; try reflexivity. apply IH.
Qed.

Lemma expandArray_VArr (fuel : nat) (md : ModuleDef.t) (elems : list value)
  (params : obj) (s : Rng) :
  expandArray fuel md (VArr elems) params s
  = (result <- foldM (onElem fuel md params) elems [] ;; ret (VArr result)) s.
Proof.
  cbn [expandArray]. unfold bind at 1 3.
  rewrite (foldM_ext _ (onElem fuel md params)); [reflexivity|].
  intros acc x s'. destruct x; reflexivity.
Qed.

Lemma expandArray_prefix (fuel : nat) (md : ModuleDef.t) (pre : list value)
  (params : obj) (s0 s1 : Rng) (out : list value) :
  expandArray fuel md (VArr pre) params s0 = Some (Ok (VArr out), s1) ->
  foldM (onElem fuel md params) pre [] s0 = Some (Ok out, s1).
Proof.
  rewrite expandArray_VArr. unfold bind, ret.
  destruct (foldM (onElem fuel md params) pre [] s0) as [[[r|e] s']|];
    intros E; inversion E; reflexivity.
Qed.

(** An element that throws, or never returns, makes the array do so. *)
Lemma expandArray_elem_throw (fuel : nat) (md : ModuleDef.t)
  (pre post : list value) (elem : value) (params : obj) (s0 s1 s2 : Rng)
  (out : list value) (e : exn) :
  expandArray fuel md (VArr pre) params s0 = Some (Ok (VArr out), s1) ->
  onElem fuel md params out elem s1 = Some (Throw e, s2) ->
  expandArray fuel md (VArr (pre ++ elem :: post)) params s0
  = Some (Throw e, s2).
Proof.
  intros Hpre He. apply expandArray_prefix in Hpre.
  rewrite expandArray_VArr.
  apply bind_throw. rewrite foldM_app. rewrite (bind_ok _ _ _ _ _ Hpre).
  cbn [foldM]. now apply bind_throw.
Qed.

Lemma expandArray_elem_spin (fuel : nat) (md : ModuleDef.t)
  (pre post : list value) (elem : value) (params : obj) (s0 s1 : Rng)
  (out : list value) :
  expandArray fuel md (VArr pre) params s0 = Some (Ok (VArr out), s1) ->
  onElem fuel md params out elem s1 = None ->
  expandArray fuel md (VArr (pre ++ elem :: post)) params s0 = None.
Proof.
  intros Hpre He. apply expandArray_prefix in Hpre.
  rewrite expandArray_VArr.
  apply bind_spin. rewrite foldM_app. rewrite (bind_ok _ _ _ _ _ Hpre).
  cbn [foldM]. now apply bind_spin.
Qed.

Lemma expandArray_last_ok (fuel : nat) (md : ModuleDef.t)
  (pre : list value) (elem : value) (params : obj) (s0 s1 s2 : Rng)
  (out out' : list value) :
  expandArray fuel md (VArr pre) params s0 = Some (Ok (VArr out), s1) ->
  onElem fuel md params out elem s1 = Some (Ok out', s2) ->
  expandArray fuel md (VArr (pre ++ [elem])) params s0
  = Some (Ok (VArr out'), s2).
Proof.
  intros Hpre He. apply expandArray_prefix in Hpre.
  rewrite expandArray_VArr.
  assert (E : foldM (onElem fuel md params) (pre ++ [elem]) [] s0
              = Some (Ok out', s2)).
  { rewrite foldM_app. rewrite (bind_ok _ _ _ _ _ Hpre).
    cbn [foldM]. now rewrite (bind_ok _ _ _ _ _ He). }
  now rewrite (bind_ok _ _ _ _ _ E).
Qed.

Lemma onElem_for (fuel : nat) (md : ModuleDef.t) (params : obj)
  (fields : obj) (result : list value) :
  obj_has "for" fields = true ->
  onElem fuel md params result (VObj fields)
  = tryCatch (forElem fuel md params fields result)
      (fun e => throw (ArrayElemError (VObj fields) params e)).
Proof. intros Hf. unfold onElem. now rewrite Hf. Qed.

Lemma forElem_parsed (fuel : nat) (md : ModuleDef.t) (params : obj)
  (fields : obj) (result : list value) (s1 s2 : Rng) (loopVars : list range) :
  parseFor (obj_get "for" fields) params s1 = Some (Ok loopVars, s2) ->
  forElem fuel md params fields result s1
  = match expandLoopVars fuel md params loopVars with
    | Some (Ok loopParams) =>
        if js_gt (VNum (ofZ (Z.of_nat (length loopParams)))) (loopCap md)
        then Some (Throw LoopTooLarge, s2)
        else forCombos fuel md fields loopParams result s2
    | Some (Throw e) => Some (Throw e, s2)
    | None => None
    end.
Proof.
  intros Hp. unfold forElem. rewrite (bind_ok _ _ _ _ _ Hp).
  unfold bind, liftLoop.
  destruct (expandLoopVars fuel md params loopVars) as [[lp|e]|];
    try reflexivity.
  now destruct (js_gt _ _).
Qed.


Lemma forCombos_cons (fuel : nat) (md : ModuleDef.t) (fields : obj)
  (combo : obj) (combos : list obj) (result : list value) (s : Rng) :
  obj_has "if" fields = true ->
  forCombos fuel md fields (combo :: combos) result s
  = match evaluate (obj_get "if" fields) combo s with
    | (Ok c, s1) =>
        if js_truthy c then
          match expandObject fuel md (VObj fields) combo s1 with
          | Some (Ok x, s2) => forCombos fuel md fields combos (result ++ [x]) s2
          | Some (Throw e, s2) => Some (Throw e, s2)
          | None => None
          end
        else forCombos fuel md fields combos result s1
    | (Throw e, s1) => Some (Throw e, s1)
    end.
Proof.
  intros Hif. unfold forCombos at 1. cbn [foldM].
  fold (forCombos fuel md fields). rewrite Hif.
  rewrite !bind_assoc_run, bind_liftHost.
  destruct (evaluate (obj_get "if" fields) combo s) as [[c|e] s1];
    [|reflexivity].
  unfold bind at 1, ret at 1.
  destruct (js_truthy c); cbn [negb]; [|reflexivity].
  rewrite bind_assoc_run. unfold bind at 1.
  destruct (expandObject fuel md (VObj fields) combo s1) as [[[x|e] s2]|];
    reflexivity.
Qed.

Lemma forCombos_keeps (fuel : nat) (md : ModuleDef.t) (fields : obj) :
  obj_has "if" fields = true ->
  forall (combos : list obj) (s : Rng) (out : list value) (s' : Rng),
    keeps fuel md fields combos s out s' ->
    forall result : list value,
      forCombos fuel md fields combos result s = Some (Ok (result ++ out), s').
Proof.
  intros Hif combos s out s' Hk.
  induction Hk as [s|combo combos s s1 s2 c out Hc Hf Hk IH
                    |combo combos s s1 s2 s3 c x out Hc Ht Hx Hk IH];
    intros result.
  - cbn. now rewrite app_nil_r.
  - rewrite forCombos_cons, Hc, Hf by assumption. apply IH.
  - rewrite forCombos_cons, Hc, Ht, Hx by assumption.
    rewrite IH, <- app_assoc. reflexivity.
Qed.

Lemma keeps_forCombos (fuel : nat) (md : ModuleDef.t) (fields : obj) :
  obj_has "if" fields = true ->
  forall (combos : list obj) (result r : list value) (s s' : Rng),
    forCombos fuel md fields combos result s = Some (Ok r, s') ->
    exists out, r = result ++ out /\ keeps fuel md fields combos s out s'.
Proof.
  intros Hif. induction combos as [|combo combos IH]; intros result r s s' E.
  - cbn in E. inversion E; subst. exists []. split.
    + now rewrite app_nil_r.
    + constructor.
  - rewrite forCombos_cons in E by assumption.
    destruct (evaluate (obj_get "if" fields) combo s) as [[c|e] s1] eqn:Hc;
      [|discriminate].
    destruct (js_truthy c) eqn:Ht.
    + destruct (expandObject fuel md (VObj fields) combo s1)
        as [[[x|e] s2]|] eqn:Hx; try discriminate.
      destruct (IH _ _ _ _ E) as [out [-> Hk]].
      exists (x :: out). split.
      * now rewrite <- app_assoc.
      * now apply (keeps_take fuel md fields combo combos s s1 s2 s' c x out).
    + destruct (IH _ _ _ _ E) as [out [-> Hk]].
      exists out. split; [reflexivity|].
      now apply (keeps_skip fuel md fields combo combos s s1 s' c out).
Qed.


(** What a [for] element with an [if] key appends is what [keeps]
    describes, and nothing else. *)
Lemma for_if_keeps (fuel : nat) (md : ModuleDef.t) (params : obj)
  (pre : list value) (fields : obj) (s0 s1 s2 : Rng)
  (out0 : list value) (loopVars : list range) (loopParams : list obj) :
  obj_has "for" fields = true ->
  obj_has "if" fields = true ->
  expandArray fuel md (VArr pre) params s0 = Some (Ok (VArr out0), s1) ->
  parseFor (obj_get "for" fields) params s1 = Some (Ok loopVars, s2) ->
  expandLoopVars fuel md params loopVars = Some (Ok loopParams) ->
  js_gt (VNum (ofZ (Z.of_nat (length loopParams)))) (loopCap md) = false ->
  forall (out : list value) (s3 : Rng),
    keeps fuel md fields loopParams s2 out s3
    <-> expandArray fuel md (VArr (pre ++ [VObj fields])) params s0
        = Some (Ok (VArr (out0 ++ out)), s3).
Proof.
  intros Hfor Hif Hpre Hparse Hloop Hcap out s3.
  assert (Hel : onElem fuel md params out0 (VObj fields) s1
                = tryCatch (forCombos fuel md fields loopParams out0)
                    (fun e => throw (ArrayElemError (VObj fields) params e)) s2).
  { rewrite onElem_for by assumption. unfold tryCatch.
    rewrite (forElem_parsed fuel md params fields out0 s1 s2 _ Hparse).
    now rewrite Hloop, Hcap. }
  split.
  - intros Hk.
    apply (expandArray_last_ok fuel md pre _ params s0 s1 s3 out0 _ Hpre).
    rewrite Hel. apply tryCatch_ok. now apply forCombos_keeps.
  - intros E. rewrite expandArray_VArr in E.
    pose proof (expandArray_prefix _ _ _ _ _ _ _ Hpre) as Hp.
    unfold bind at 1 in E. rewrite foldM_app in E.
    rewrite (bind_ok _ _ _ _ _ Hp) in E. cbn [foldM] in E.
    unfold bind at 1 in E. rewrite Hel in E. unfold tryCatch in E.
    destruct (forCombos fuel md fields loopParams out0 s2)
      as [[[r|e] s']|] eqn:Hc; try discriminate.
    cbn in E. inversion E; subst.
    destruct (keeps_forCombos fuel md fields Hif _ _ _ _ _ Hc) as [out' [Er Hk]].
    apply app_inv_head in Er. now subst.
Qed.

(** The example of the specification: once the numerals and [i], [i!=1]
    evaluate as they read, the element below expands to two records, those
    of [i = 0] and [i = 2]. *)
Lemma for_if_example (fuel : nat) (md : ModuleDef.t) (params : obj) :
  ModuleDef.maxLoopLength md = VUndef ->
      (3 < fuel)%nat ->
      (forall s, evaluate (VStr "0") params s = (Ok (fin 0), s)) ->
      (forall s, evaluate (VStr "1") params s = (Ok (fin 1), s)) ->
      (forall s, evaluate (VStr "2") params s = (Ok (fin 2), s)) ->
      (forall s, evaluate (VStr "i!=1") (obj_set "i" (fin 0) params) s
                 = (Ok (VBool true), s)) ->
      (forall s, evaluate (VStr "i!=1") (obj_set "i" (fin 1) params) s
                 = (Ok (VBool false), s)) ->
      (forall s, evaluate (VStr "i!=1") (obj_set "i" (fin 2) params) s
                 = (Ok (VBool true), s)) ->
      (forall v s, evaluate (VStr "i") (obj_set "i" (fin v) params) s
                   = (Ok (fin v), s)) ->
      forall s,
        expandArray fuel md
          (VArr [VObj [("for", VStr "i=0:1:2"); ("if", VStr "i!=1");
                       ("v", VStr "`i`")]]) params s
        = Some (Ok (VArr [VObj [("v", fin 0)]; VObj [("v", fin 2)]]), s).
Proof.
  intros Hmd Hfuel E0 E1 E2 C0 C1 C2 Ei s.
  set (fields := [("for", VStr "i=0:1:2"); ("if", VStr "i!=1");
                  ("v", VStr "`i`")]).
  assert (Hparse : parseFor (obj_get "for" fields) params s
                   = Some (Ok [rangeOf "i" 0 1 2], s)).
  { assert (Hp : parseVariableRange (VStr "i=0:1:2") params s
                  = Some (Ok (rangeOf "i" 0 1 2), s)).
    { unfold parseVariableRange. cbn -[evaluate]. unfold tryCatch.
      rewrite bind_liftHost, E0, bind_liftHost, E1, bind_liftHost, E2.
      reflexivity. }
    change (obj_get "for" fields) with (VStr "i=0:1:2"). cbn [parseFor].
    now rewrite (bind_ok _ _ _ _ _ Hp). }
  assert (Hloop : expandLoopVars fuel md params [rangeOf "i" 0 1 2]
                  = Some (Ok [obj_set "i" (fin 0) params;
                              obj_set "i" (fin 1) params;
                              obj_set "i" (fin 2) params])).
  { rewrite (expandLoopVars_single md params _ 0 1 2 3%nat);
      try reflexivity; try lia.
    - unfold tooLong, loopCap. rewrite Hmd. reflexivity.
    - count_up. }
  assert (Hx : forall v s',
             expandObject fuel md (VObj fields) (obj_set "i" (fin v) params) s'
             = Some (Ok (VObj [("v", fin v)]), s')).
  { intros v s'.
    assert (Hs : expandString "`i`" (obj_set "i" (fin v) params) s'
                 = Some (Ok (fin v), s')).
    { unfold expandString. cbn -[evaluate obj_set].
      unfold tryCatch, liftHost. now rewrite Ei. }
    cbn -[expandString obj_set]. unfold bind, ret. now rewrite Hs. }
  apply (proj1 (for_if_keeps fuel md params [] fields s s s []
                  [rangeOf "i" 0 1 2] _ eq_refl eq_refl eq_refl Hparse Hloop
                  ltac:(unfold loopCap; rewrite Hmd; reflexivity)
                  [VObj [("v", fin 0)]; VObj [("v", fin 2)]] s)).
  eapply keeps_take; [apply C0|reflexivity|apply Hx|].
  eapply keeps_skip; [apply C1|reflexivity|].
  eapply keeps_take; [apply C2|reflexivity|apply Hx|].
  apply keeps_nil.
Qed.

(** C5.  For an element with a [for] and an [if] key whose combinations
    pass the cap, the elements [expandArray] appends are exactly those
    [keeps] describes: going through the combinations in loop order, one
    whose [if] is falsy under the combination is skipped and one whose
    [if] is truthy gives the expansion of the element under it, once.  In
    particular [{for: "i=0:1:2", if: "i!=1"}] gives exactly two elements,
    the one of [i = 0] and the one of [i = 2], as the field [v] shows. *)
Theorem for_if_filter (fuel : nat) (md : ModuleDef.t) (params : obj) :
  (forall (pre : list value) (fields : obj) (s0 s1 s2 : Rng)
          (out0 : list value) (loopVars : list range) (loopParams : list obj),
      obj_has "for" fields = true ->
      obj_has "if" fields = true ->
      expandArray fuel md (VArr pre) params s0 = Some (Ok (VArr out0), s1) ->
      parseFor (obj_get "for" fields) params s1 = Some (Ok loopVars, s2) ->
      expandLoopVars fuel md params loopVars = Some (Ok loopParams) ->
      js_gt (VNum (ofZ (Z.of_nat (length loopParams)))) (loopCap md) = false ->
      forall (out : list value) (s3 : Rng),
        keeps fuel md fields loopParams s2 out s3
        <-> expandArray fuel md (VArr (pre ++ [VObj fields])) params s0
            = Some (Ok (VArr (out0 ++ out)), s3))
  /\ (ModuleDef.maxLoopLength md = VUndef ->
      (3 < fuel)%nat ->
      (forall s, evaluate (VStr "0") params s = (Ok (fin 0), s)) ->
      (forall s, evaluate (VStr "1") params s = (Ok (fin 1), s)) ->
      (forall s, evaluate (VStr "2") params s = (Ok (fin 2), s)) ->
      (forall s, evaluate (VStr "i!=1") (obj_set "i" (fin 0) params) s
                 = (Ok (VBool true), s)) ->
      (forall s, evaluate (VStr "i!=1") (obj_set "i" (fin 1) params) s
                 = (Ok (VBool false), s)) ->
      (forall s, evaluate (VStr "i!=1") (obj_set "i" (fin 2) params) s
                 = (Ok (VBool true), s)) ->
      (forall v s, evaluate (VStr "i") (obj_set "i" (fin v) params) s
                   = (Ok (fin v), s)) ->
      forall s,
        expandArray fuel md
          (VArr [VObj [("for", VStr "i=0:1:2"); ("if", VStr "i!=1");
                       ("v", VStr "`i`")]]) params s
        = Some (Ok (VArr [VObj [("v", fin 0)]; VObj [("v", fin 2)]]), s)).
Proof.
  split.
  - intros pre fields s0 s1 s2 out0 loopVars loopParams
      Hfor Hif Hpre Hparse Hloop Hcap out s3.
    now apply (for_if_keeps fuel md params pre fields s0 s1 s2 out0
                 loopVars loopParams).
  - apply for_if_example.
Qed.

End ArrayFacts.


(** C3 fails on the code.  The descriptor [i=0:-1:0] parses to a range of
    step [-1]; it passes the cap test, and the loop over it never ends:
    whatever the fuel, the expansion of an element with this [for] uses
    it all. *)
Theorem negative_step_spins :
  parseVariableRange (H := Toy.host) (VStr "i=0:-1:0") [] 0%nat
  = Some (Ok {| name := "i"; start := fin 0; step := fin (-1); end_ := fin 0;
                defaultVal := fin 0 |}, 0%nat)
  /\ forall fuel : nat,
      expandArray (H := Toy.host) fuel (plainDef VUndef (VArr []) VUndef)
        (VArr [VObj [("for", VStr "i=0:-1:0"); ("type", VStr "Mirror")]])
        [] 0%nat
      = None.
Proof.
  split; [reflexivity|]. intros fuel.
  apply (expandArray_elem_spin (H := Toy.host) fuel _ [] [] _ [] 0%nat 0%nat []);
    [reflexivity|].
  rewrite onElem_for by reflexivity.
  apply tryCatch_spin.
  rewrite (forElem_parsed (H := Toy.host) fuel _ []
             [("for", VStr "i=0:-1:0"); ("type", VStr "Mirror")] [] 0%nat 0%nat
             [{| name := "i"; start := fin 0; step := fin (-1); end_ := fin 0;
                 defaultVal := fin 0 |}] eq_refl).
  rewrite expandLoopVars_cons.
  change (tooLong (H := Toy.host) (plainDef VUndef (VArr []) VUndef)
            {| name := "i"; start := fin 0; step := fin (-1); end_ := fin 0;
               defaultVal := fin 0 |}) with false.
  cbn [start end_ step name].
  rewrite (forValues_spins (H := Toy.host) (-1) 0); try reflexivity.
  - discriminate.
  - intros v. eexists. reflexivity.
  - discriminate.
Qed.



Lemma for_if_filter_witness :
  expandArray (H := Toy.host) 4 (plainDef VUndef (VArr []) VUndef)
    (VArr [VObj [("for", VStr "i=0:1:2"); ("if", VStr "i!=1");
                 ("type", VStr "Mirror"); ("x", VStr "`i`")]]) [] 0%nat
  = Some (Ok (VArr [VObj [("type", VStr "Mirror"); ("x", fin 0)];
                    VObj [("type", VStr "Mirror"); ("x", fin 2)]]), 0%nat)
  /\ expandArray (H := Toy.host) 4 (plainDef VUndef (VArr []) VUndef)
       (VArr [VObj [("for", VStr "i=0:1:2"); ("if", VStr "i!=1");
                    ("v", VStr "`i`")]]) [] 0%nat
     = Some (Ok (VArr [VObj [("v", fin 0)]; VObj [("v", fin 2)]]), 0%nat).
Proof.
  destruct (for_if_filter (H := Toy.host) 4
              (plainDef VUndef (VArr []) VUndef) []) as [Hkeeps Hex].
  split.
  - apply (proj1 (Hkeeps []
                    [("for", VStr "i=0:1:2"); ("if", VStr "i!=1");
                     ("type", VStr "Mirror"); ("x", VStr "`i`")]
                    0%nat 0%nat 0%nat [] [rangeOf "i" 0 1 2]
                    [[("i", fin 0)]; [("i", fin 1)]; [("i", fin 2)]]
                    eq_refl eq_refl eq_refl eq_refl eq_refl eq_refl
                    [VObj [("type", VStr "Mirror"); ("x", fin 0)];
                     VObj [("type", VStr "Mirror"); ("x", fin 2)]] 0%nat)).
    eapply keeps_take; [reflexivity|reflexivity|reflexivity|].
    eapply keeps_skip; [reflexivity|reflexivity|].
    eapply keeps_take; [reflexivity|reflexivity|reflexivity|].
    apply keeps_nil.
  - apply Hex; try reflexivity. lia.
Defined.

(** ** [expandObjs] *)

Section ObjsFacts.
Context {H : Host}.

Lemma mapM_throw {A B} (f : A -> M B) (before after : list A) (x : A)
  (s s1 s2 : Rng) (built : list B) (e : exn) :
  mapM f before s = Some (Ok built, s1) ->
  f x s1 = Some (Throw e, s2) ->
  mapM f (before ++ x :: after) s = Some (Throw e, s2).
Proof.
  intros Hb Hx. unfold mapM in *. rewrite foldM_app.
  rewrite (bind_ok _ _ _ _ _ Hb). cbn [foldM].
  apply bind_throw. now apply bind_throw.
Qed.

(** An exception of the [vars] template is thrown before the [try] block
    is entered. *)
Lemma expandObjs_vars_throw (fuel : nat) (this : ModuleObj) (s s1 : Rng)
  (e : exn) :
  expandObject fuel (moduleDef this) (ModuleDef.vars (moduleDef this))
    (fullParams0 this) s = Some (Throw e, s1) ->
  expandObjs fuel this s = Some (Throw e, s1).
Proof. intros E. unfold expandObjs. now apply bind_throw. Qed.

Lemma expandObjs_run (fuel : nat) (this : ModuleObj) (s s1 : Rng)
  (varParams : value) :
  expandObject fuel (moduleDef this) (ModuleDef.vars (moduleDef this))
    (fullParams0 this) s = Some (Ok varParams, s1) ->
  expandObjs fuel this s
  = match expandAndInstantiate fuel this
            (obj_assign (fullParams0 this) (fieldsOf varParams)) s1 with
    | Some (Ok l, s2) => Some (Ok (setObjs l (setError None this)), s2)
    | Some (Throw e, s2) => Some (Ok (setError (Some e) this), s2)
    | None => None
    end.
Proof.
  intros E. unfold expandObjs. rewrite (bind_ok _ _ _ _ _ E).
  unfold tryCatch, bind, ret.
  change (expandAndInstantiate fuel (setError None this))
    with (expandAndInstantiate fuel this).
  destruct (expandAndInstantiate fuel this _ s1) as [[[l|e] s2]|]; reflexivity.
Qed.

Lemma expandAndInstantiate_run (fuel : nat) (this : ModuleObj)
  (fullParams : obj) (s : Rng) :
  expandAndInstantiate fuel this fullParams s
  = match expandArray fuel (moduleDef this) (ModuleDef.objs (moduleDef this))
            fullParams s with
    | Some (Ok records, s') => mapM instantiate (elemsOf records) s'
    | Some (Throw e, s') => Some (Throw e, s')
    | None => None
    end.
Proof. reflexivity. Qed.

(** C10.  Once the [vars] template has expanded, a failure in the [try]
    block of [expandObjs] leaves [objs] as it was and stores the thrown
    value in [error]: so it is when [expandArray] throws on
    [moduleDef.objs], and when the constructor of any record throws after
    those of the records before it succeeded.  [objs] changes only when
    every record has been expanded and instantiated, and is then the
    whole list. *)
Theorem expandObjs_commits_whole (fuel : nat) (this : ModuleObj) (s s1 : Rng)
  (varParams : value) :
  expandObject fuel (moduleDef this) (ModuleDef.vars (moduleDef this))
    (fullParams0 this) s = Some (Ok varParams, s1) ->
  let fullParams := obj_assign (fullParams0 this) (fieldsOf varParams) in
  let expanded :=
    expandArray fuel (moduleDef this) (ModuleDef.objs (moduleDef this))
      fullParams s1 in
  (forall e s2,
      expanded = Some (Throw e, s2) ->
      exists this',
        expandObjs fuel this s = Some (Ok this', s2)
        /\ objs this' = objs this /\ error this' = Some e)
  /\ (forall before objData after s2 built s3 e s4,
         expanded = Some (Ok (VArr (before ++ objData :: after)), s2) ->
         mapM instantiate before s2 = Some (Ok built, s3) ->
         instantiate objData s3 = Some (Throw e, s4) ->
         exists this',
           expandObjs fuel this s = Some (Ok this', s4)
           /\ objs this' = objs this /\ error this' = Some e)
  /\ (forall this' s',
         expandObjs fuel this s = Some (Ok this', s') ->
         (error this' = None
          /\ exists records s2,
              expanded = Some (Ok records, s2)
              /\ mapM instantiate (elemsOf records) s2
                 = Some (Ok (objs this'), s'))
         \/ (exists e, error this' = Some e /\ objs this' = objs this)).
Proof.
  intros Hv fullParams expanded.
  pose proof (expandObjs_run fuel this s s1 varParams Hv) as Hrun.
  rewrite expandAndInstantiate_run in Hrun.
  fold fullParams in Hrun. fold expanded in Hrun.
  split; [|split].
  - intros e s2 He. exists (setError (Some e) this).
    rewrite Hrun, He. repeat split.
  - intros before objData after s2 built s3 e s4 He Hb Hi.
    exists (setError (Some e) this).
    rewrite Hrun, He. cbn [elemsOf].
    rewrite (mapM_throw _ _ _ _ _ _ _ _ _ Hb Hi). repeat split.
  - intros this' s' E. rewrite Hrun in E.
    destruct expanded as [[[records|e] s2]|]; try discriminate.
    + destruct (mapM instantiate (elemsOf records) s2)
        as [[[l|e] s3]|] eqn:Hm; try discriminate.
      * inversion E; subst. left. split; [reflexivity|].
        exists records, s2. split; [reflexivity|exact Hm].
      * inversion E; subst. right. exists e. split; reflexivity.
    + inversion E; subst. right. exists e. split; reflexivity.
Qed.

(** C9, amended.  An expansion that leaves the random stream where it
    found it is repeatable: called again on the module object it returned,
    with definition, points and parameters unchanged, [expandObjs] returns
    the same module object, with the same [objs] and the same [error]. *)
Theorem expandObjs_idempotent (fuel : nat) (this this' : ModuleObj) (s : Rng) :
  expandObjs fuel this s = Some (Ok this', s) ->
  expandObjs fuel this' s = Some (Ok this', s).
Proof.
  intros E.
  destruct (expandObject fuel (moduleDef this) (ModuleDef.vars (moduleDef this))
              (fullParams0 this) s) as [[[varParams|e] s1]|] eqn:Hv.
  - pose proof (expandObjs_run fuel this s s1 varParams Hv) as Hrun.
    rewrite Hrun in E.
    destruct (expandAndInstantiate fuel this _ s1) as [[[l|e] s2]|] eqn:Hx;
      inversion E; subst.
    + rewrite (expandObjs_run fuel (setObjs l (setError None this)) s s1
                 varParams Hv).
      change (expandAndInstantiate fuel (setObjs l (setError None this)))
        with (expandAndInstantiate fuel this).
      change (fullParams0 (setObjs l (setError None this)))
        with (fullParams0 this).
      rewrite Hx. reflexivity.
    + rewrite (expandObjs_run fuel (setError (Some e) this) s s1
                 varParams Hv).
      change (expandAndInstantiate fuel (setError (Some e) this))
        with (expandAndInstantiate fuel this).
      change (fullParams0 (setError (Some e) this)) with (fullParams0 this).
      rewrite Hx. reflexivity.
  - rewrite (expandObjs_vars_throw fuel this s s1 e Hv) in E. discriminate.
  - unfold expandObjs in E. rewrite (bind_spin _ _ _ Hv) in E. discriminate.
Qed.
End ObjsFacts.

Lemma expandObjs_commits_whole_witness :
  let md := plainDef VUndef
              (VArr [VObj [("type", VStr "Mirror")];
                     VObj [("type", VStr "Prism")]]) VUndef in
  let this := plainObj (H := Toy.host) md [Toy.oldMirror] in
  exists this',
    expandObjs (H := Toy.host) 1 this 0%nat = Some (Ok this', 0%nat)
    /\ objs this' = [Toy.oldMirror]
    /\ error this'
       = Some (TypeError "sceneObjs[objData.type] is not a constructor").
Proof.
  intros md this.
  destruct (expandObjs_commits_whole (H := Toy.host) 1 this 0%nat 0%nat
              (VObj []) eq_refl) as [_ [Hinst _]].
  apply (Hinst [VObj [("type", VStr "Mirror")]]
               (VObj [("type", VStr "Prism")]) [] 0%nat
               [("Mirror", VObj [("type", VStr "Mirror")])] 0%nat
               (TypeError "sceneObjs[objData.type] is not a constructor")
               0%nat); reflexivity.
Defined.

Lemma expandObjs_idempotent_witness :
  let md := plainDef VUndef (VArr [VObj [("type", VStr "Mirror")]]) VUndef in
  let this' := plainObj (H := Toy.host) md [Toy.oldMirror] in
  expandObjs (H := Toy.host) 1 (plainObj (H := Toy.host) md []) 0%nat
  = Some (Ok this', 0%nat)
  /\ expandObjs (H := Toy.host) 1 this' 0%nat = Some (Ok this', 0%nat).
Proof.
  intros md this'.
  assert (E : expandObjs (H := Toy.host) 1 (plainObj (H := Toy.host) md []) 0%nat
              = Some (Ok this', 0%nat)) by reflexivity.
  split; [exact E|].
  exact (expandObjs_idempotent (H := Toy.host) 1 _ this' 0%nat E).
Defined.

(** C9 as stated fails: a template that draws from [random] expands to a
    different record each time, the second call starting from the stream
    the first one left. *)
Lemma expandObjs_idempotent_counterexample :
  let md := plainDef VUndef
              (VArr [VObj [("type", VStr "Mirror"); ("angle", VStr "`random()`")]])
              VUndef in
  let first :=
    plainObj (H := Toy.host) md
      [("Mirror", VObj [("type", VStr "Mirror"); ("angle", fin 0)])] in
  let second :=
    plainObj (H := Toy.host) md
      [("Mirror", VObj [("type", VStr "Mirror"); ("angle", fin 1)])] in
  expandObjs (H := Toy.host) 1 (plainObj (H := Toy.host) md []) 0%nat
  = Some (Ok first, 1%nat)
  /\ expandObjs (H := Toy.host) 1 first 1%nat = Some (Ok second, 2%nat)
  /\ objs first <> objs second.
Proof.
  intros md first second. split; [reflexivity|]. split; [reflexivity|].
  discriminate.
Qed.

(** C1 fails on the code.  The [vars] template is expanded before the
    [try] block: when an expression of it does not evaluate, here the
    unbound name [q], the exception leaves [expandObjs] and [error] is not
    set. *)
Theorem vars_error_escapes :
  forall fuel : nat,
    expandObjs (H := Toy.host) fuel
      (plainObj (H := Toy.host)
         (plainDef (VObj [("a", VStr "`q`")]) (VArr []) VUndef) []) 0%nat
    = Some (Throw (StringExpandError "`q`" [("random", VRng)]
                     (HostError "Undefined symbol q")), 0%nat).
Proof.
  intros fuel. apply (expandObjs_vars_throw (H := Toy.host)). reflexivity.
Qed.

(** ** The tilted mirror *)

Module MirrorFacts.
Import TiltedMirror.
Local Open Scope R_scope.

Lemma sum_squares_pos (a b : R) : a <> 0 \/ b <> 0 -> 0 < a * a + b * b.
Proof. intros [Ha|Hb]; nra. Qed.

Lemma normalized_unit (a b : R) :
  0 < a * a + b * b ->
  a / sqrt (a * a + b * b) * (a / sqrt (a * a + b * b))
  + b / sqrt (a * a + b * b) * (b / sqrt (a * a + b * b)) = 1.
Proof.
  intros Hpos.
  assert (Hs : sqrt (a * a + b * b) * sqrt (a * a + b * b) = a * a + b * b)
    by (apply sqrt_sqrt; lra).
  set (L := sqrt (a * a + b * b)) in *.
  assert (Hn : L <> 0) by (intro E; rewrite E in Hs; lra).
  replace (a / L * (a / L) + b / L * (b / L))
    with ((a * a + b * b) / (L * L)) by (field; assumption).
  rewrite Hs. field. lra.
Qed.

Lemma distinct_points (a b : Point R) :
  a <> b -> x b - x a <> 0 \/ y b - y a <> 0.
Proof.
  intros Hab. destruct a as [ax ay], b as [bx by_]; simpl.
  destruct (Req_dec ax bx) as [Ex|Ex]; [|left; lra].
  destruct (Req_dec ay by_) as [Ey|Ey]; [|right; lra].
  subst. contradiction Hab. reflexivity.
Qed.

Lemma segmentDir_unit (this : t R) :
  p1 this <> p2 this -> norm2 (segmentDir this) = 1.
Proof.
  intros Hd. unfold segmentDir, norm2, dot, vec; simpl.
  apply normalized_unit, sum_squares_pos, distinct_points, Hd.
Qed.

Lemma rotate_norm2 (a : R) (v : R * R) : norm2 (rotate a v) = norm2 v.
Proof.
  unfold norm2, dot, rotate; simpl.
  pose proof (sin2_cos2 a) as E. unfold Rsqr in E.
  replace ((fst v * cos a - snd v * sin a) * (fst v * cos a - snd v * sin a) +
     (fst v * sin a + snd v * cos a) * (fst v * sin a + snd v * cos a))
    with ((fst v * fst v + snd v * snd v) * (sin a * sin a + cos a * cos a)) by ring.
  rewrite E. ring.
Qed.

Lemma reflect_formula (mx my rx ry : R) :
  mx * mx + my * my = 1 ->
  (rx * (my * my - mx * mx) - 2 * ry * mx * my,
   ry * (mx * mx - my * my) - 2 * rx * mx * my)
  = reflectAbout (mx, my) (- rx, - ry).
Proof.
  intros E. unfold reflectAbout, dot; simpl. f_equal.
  - replace (my * my) with (1 - mx * mx) by lra. ring.
  - replace (mx * mx) with (1 - my * my) by lra. ring.
Qed.

Lemma reflectAbout_norm2 (m d : R * R) :
  norm2 m = 1 -> norm2 (reflectAbout m d) = norm2 d.
Proof.
  unfold norm2, reflectAbout, dot; simpl. intros E.
  replace ((2 * (fst d * fst m + snd d * snd m) * fst m - fst d) *
  (2 * (fst d * fst m + snd d * snd m) * fst m - fst d) +
  (2 * (fst d * fst m + snd d * snd m) * snd m - snd d) *
  (2 * (fst d * fst m + snd d * snd m) * snd m - snd d))
  with (fst d * fst d + snd d * snd d + 4 * (fst d * fst m + snd d * snd m) * (fst d * fst m + snd d * snd m) * (fst m * fst m + snd m * snd m - 1)) by ring.
  rewrite E. ring.
Qed.

Lemma reflectAbout_normal (m d : R * R) :
  norm2 m = 1 ->
  reflectAbout m d = reflectNormal (- snd m, fst m) d.
Proof.
  destruct m as [mx my], d as [dx dy].
  unfold norm2, reflectAbout, reflectNormal, dot; simpl. intros E.
  f_equal.
  - assert (X : 2 * (dx * mx + dy * my) * mx - dx
                - (dx - 2 * (dx * - my + dy * mx) * - my)
                = 2 * dx * (mx * mx + my * my - 1)) by ring.
    rewrite E in X. lra.
  - assert (X : 2 * (dx * mx + dy * my) * my - dy
                - (dy - 2 * (dx * - my + dy * mx) * mx)
                = 2 * dy * (mx * mx + my * my - 1)) by ring.
    rewrite E in X. lra.
Qed.

Lemma reflectAbout_dot_normal (m d : R * R) :
  dot (reflectAbout m d) (- snd m, fst m) = - dot d (- snd m, fst m).
Proof.
  destruct m as [mx my], d as [dx dy].
  unfold reflectAbout, dot; simpl. ring.
Qed.

Lemma reflectAbout_dot_dir (m d : R * R) :
  norm2 m = 1 -> dot (reflectAbout m d) m = dot d m.
Proof.
  destruct m as [mx my], d as [dx dy].
  unfold reflectAbout, norm2, dot; simpl. intros E.
  assert (X : (2 * (dx * mx + dy * my) * mx - dx) * mx
              + (2 * (dx * mx + dy * my) * my - dy) * my
              - (dx * mx + dy * my)
              = 2 * (dx * mx + dy * my) * (mx * mx + my * my - 1)) by ring.
  rewrite E in X. lra.
Qed.

(** The outgoing vector of the method run on the real numbers. *)
Lemma onRayIncident_vec (this : t R) (ray : Ray R) (incidentPoint : Point R) :
  p1 this <> p2 this ->
  vec incidentPoint (ray_p2 (onRayIncident (A := reals) this ray incidentPoint))
  = reflectAbout (rotate (tiltAngle this / 180 * PI) (segmentDir this))
                 (vec (ray_p1 ray) incidentPoint).
Proof.
  intros Hd.
  assert (Hm : norm2 (rotate (tiltAngle this / 180 * PI) (segmentDir this)) = 1).
  { rewrite rotate_norm2. apply segmentDir_unit, Hd. }
  unfold onRayIncident, vec.
  cbn [plus minus times over root cosine sine pi lit2 lit180 reals
       x y ray_p1 ray_p2 fst snd].
  set (a := tiltAngle this / 180 * PI) in *.
  set (L := sqrt _).
  set (ux := (x (p2 this) - x (p1 this)) / L).
  set (uy := (y (p2 this) - y (p1 this)) / L).
  set (Mx := ux * cos a - uy * sin a).
  set (My := ux * sin a + uy * cos a).
  assert (EM : rotate a (segmentDir this) = (Mx, My)).
  { unfold rotate, segmentDir, norm2, dot, vec; simpl. reflexivity. }
  rewrite EM in Hm |- *. unfold norm2, dot in Hm; simpl in Hm.
  replace (x incidentPoint - x (ray_p1 ray), y incidentPoint - y (ray_p1 ray))
    with (- (x (ray_p1 ray) - x incidentPoint),
          - (y (ray_p1 ray) - y incidentPoint))
    by (f_equal; ring).
  rewrite <- (reflect_formula _ _ _ _ Hm). f_equal; ring.
Qed.



(** Without rounding, the mirror from (0, 0) to (3, 4) sends the vector
    (25, 0) to (-7, 24). *)
Lemma exact_reflection_example :
  let this : t R := {| p1 := point 0 0; p2 := point 3 4; tiltAngle := 0 |} in
  let ray : Ray R := {| ray_p1 := point (-25) 0; ray_p2 := point 0 0 |} in
  onRayIncident (A := reals) this ray (point 0 0)
  = {| ray_p1 := point 0 0; ray_p2 := point (-7) 24 |}.
Proof.
  intros this ray.
  unfold onRayIncident, this, ray.
  cbn [plus minus times over root cosine sine pi lit2 lit180 reals
       x y p1 p2 ray_p1 ray_p2 tiltAngle].
  replace ((3 - 0) * (3 - 0) + (4 - 0) * (4 - 0)) with (5 * 5) by ring.
  rewrite sqrt_square by lra.
  replace (0 / 180 * PI) with 0 by (unfold Rdiv; ring).
  rewrite cos_0, sin_0. f_equal. f_equal; field.
Qed.

Section DoublePrecision.
Import PrimFloat.


End DoublePrecision.

End MirrorFacts.

(** ** Further properties of the engine *)

Lemma to_uint_nonnil (n : nat) : Nat.to_uint n <> Decimal.Nil.
Proof.
  intros E. pose proof (Unsigned.of_to n) as Hn. rewrite E in Hn.
  cbn in Hn. subst n. discriminate E.
Qed.

Lemma natToString_read (n : nat) :
  NilZero.uint_of_string (natToString n) = Some (Nat.to_uint n).
Proof. apply NilZero.usu, to_uint_nonnil. Qed.

Lemma natToString_inj (n m : nat) : natToString n = natToString m -> n = m.
Proof.
  intros E. apply (f_equal NilZero.uint_of_string) in E.
  rewrite !natToString_read in E. inversion E as [E'].
  now apply Unsigned.to_uint_inj.
Qed.

Lemma natToString_not (n : nat) (s : string) :
  NilZero.uint_of_string s = None -> natToString n <> s.
Proof.
  intros Hs E. rewrite <- E, natToString_read in Hs. discriminate.
Qed.

Lemma obj_has_set (key k : string) (v : value) (o : obj) :
  obj_has k (obj_set key v o) = (String.eqb key k || obj_has k o).
Proof.
  induction o as [|[k' w] o IH]; cbn [obj_set obj_has].
  - now rewrite orb_false_r.
  - destruct (String.eqb_spec k' key) as [->|Hk]; cbn [obj_has].
    + destruct (String.eqb key k); reflexivity.
    + rewrite IH. destruct (String.eqb k' k), (String.eqb key k); reflexivity.
Qed.

Lemma obj_get_set_same (key : string) (v : value) (o : obj) :
  obj_get key (obj_set key v o) = v.
Proof.
  induction o as [|[k' w] o IH]; cbn [obj_set obj_get].
  - now rewrite String.eqb_refl.
  - destruct (String.eqb_spec k' key) as [->|Hk]; cbn [obj_get].
    + now rewrite String.eqb_refl.
    + apply String.eqb_neq in Hk. now rewrite Hk.
Qed.

Lemma obj_get_set_other (key k : string) (v : value) (o : obj) :
  key <> k -> obj_get k (obj_set key v o) = obj_get k o.
Proof.
  intros Hne. induction o as [|[k' w] o IH]; cbn [obj_set obj_get].
  - apply String.eqb_neq in Hne. now rewrite Hne.
  - destruct (String.eqb_spec k' key) as [->|Hk]; cbn [obj_get].
    + apply String.eqb_neq in Hne. now rewrite Hne.
    + now rewrite IH.
Qed.

Lemma obj_set_fresh (key : string) (v : value) (o : obj) :
  obj_has key o = false -> obj_set key v o = o ++ [(key, v)].
Proof.
  induction o as [|[k' w] o IH]; cbn [obj_set obj_has app]; [reflexivity|].
  intros E. apply orb_false_iff in E as [E1 E2]. rewrite E1.
  now rewrite (IH E2).
Qed.

Lemma obj_has_keys (k : string) (o : obj) :
  obj_has k o = true <-> In k (map fst o).
Proof.
  induction o as [|[k' w] o IH]; cbn [obj_has map fst In].
  - split; [discriminate|contradiction].
  - rewrite orb_true_iff, IH, String.eqb_eq. reflexivity.
Qed.

(** *** Strings and descriptors *)

Section MoreStringFacts.
Context {H : Host}.

(** A string without back-tick is returned as it is, without a call to
    the evaluator. *)
Lemma expandString_plain (str : string) (params : obj) (s : Rng) :
  lacks "`" str = true ->
  expandString str params s = Some (Ok (VStr str), s).
Proof.
  intros Hs. unfold expandString. rewrite (split_lacks "`" str Hs).
  reflexivity.
Qed.

Lemma expandParts_total (params : obj) (parts : list string) :
  forall i result s, expandParts parts i result params s <> None.
Proof.
  induction parts as [|p parts IH]; intros i result s; [discriminate|].
  cbn [expandParts]. destruct (i mod 2 =? 0)%nat; [apply IH|].
  rewrite bind_liftHost.
  destruct (evaluate (VStr p) params s) as [[v|e] s1]; [apply IH|discriminate].
Qed.

Lemma expandString_wraps (str : string) (params : obj)
  (s s' : Rng) (e : exn) :
  expandString str params s = Some (Throw e, s') ->
  exists cause, e = StringExpandError str params cause.
Proof.
  unfold expandString, tryCatch.
  match goal with
  | |- context [match ?m s with _ => _ end] => destruct (m s) as [[[r|c] s1]|]
  end; intros E; try discriminate.
  inversion E; subst. now exists c.
Qed.
End MoreStringFacts.

Lemma split_join (c : ascii) (parts : list string) :
  parts <> [] -> Forall (fun p => lacks c p = true) parts ->
  split c (join c parts) = parts.
Proof.
  induction parts as [|p parts IH]; intros Hne Hall; [contradiction|].
  inversion Hall as [|? ? Hp Hps]; subst.
  destruct parts as [|q parts].
  - cbn [join]. now apply split_lacks.
  - cbn [join]. rewrite (split_app c p _ Hp). f_equal.
    apply IH; [discriminate|assumption].
Qed.

Lemma lacks_join (c d : ascii) (parts : list string) :
  Ascii.eqb d c = false ->
  Forall (fun p => lacks c p = true) parts ->
  lacks c (join d parts) = true.
Proof.
  intros Hd. induction 1 as [|p ps Hp _ IH]; [reflexivity|].
  destruct ps as [|q ps]; [exact Hp|].
  change (join d (p :: q :: ps)) with (p ++ String d (join d (q :: ps)))%string.
  rewrite lacks_app, Hp.
  change (lacks c (String d (join d (q :: ps))))
    with (negb (Ascii.eqb d c) && lacks c (join d (q :: ps))).
  now rewrite Hd, IH.
Qed.

Section MoreParseFacts.
Context {H : Host}.

(** X1.  A descriptor that is not a string, or a string without [=], is
    refused before anything is evaluated: [parseVariableRange] throws its
    parse error around a [TypeError] and leaves the random stream as it
    found it. *)
Theorem parseVariableRange_no_equals (str : value) (params : obj) (s : Rng) :
  match str with VStr d => lacks "=" d = true | _ => True end ->
  exists msg,
    parseVariableRange str params s
    = Some (Throw (RangeParseError str params (TypeError msg)), s).
Proof.
  intros Hs. unfold parseVariableRange.
  destruct str as [| |b|n|d|l|o|]; try (eexists; reflexivity).
  rewrite (split_lacks "=" d Hs). cbn [nth_error]. eexists. reflexivity.
Qed.

Lemma parseVariableRange_wraps (str : value) (params : obj)
  (s s' : Rng) (e : exn) :
  parseVariableRange str params s = Some (Throw e, s') ->
  exists cause, e = RangeParseError str params cause.
Proof.
  unfold parseVariableRange, tryCatch.
  match goal with
  | |- context [match ?m s with _ => _ end] => destruct (m s) as [[[r|c] s1]|]
  end; intros E; try discriminate.
  inversion E; subst. now exists c.
Qed.

(** X2.  Only a descriptor with exactly four [:]-separated parts has a
    default of its own.  With three parts, or with five and more, the
    default is the start value, the parts after the third are not
    evaluated, and nothing is thrown. *)
Theorem parseVariableRange_extra_parts (n a st b : string) (rest : list string)
  (params : obj) (r0 r1 r2 r3 : Rng) (va vs vb : value) :
  lacks "=" n = true ->
  isField a = true -> isField st = true -> isField b = true ->
  Forall (fun p => isField p = true) rest ->
  length rest <> 1%nat ->
  evaluate (VStr a) params r0 = (Ok va, r1) ->
  evaluate (VStr st) params r1 = (Ok vs, r2) ->
  evaluate (VStr b) params r2 = (Ok vb, r3) ->
  parseVariableRange (VStr (n ++ "=" ++ join ":" (a :: st :: b :: rest)))
    params r0
  = Some (Ok {| name := trim n; start := va; step := vs; end_ := vb;
                defaultVal := va |}, r3).
Proof.
  intros Hn Ha Hs Hb Hrest Hlen Eva Evs Evb.
  assert (Hall : Forall (fun p => isField p = true) (a :: st :: b :: rest))
    by (repeat constructor; assumption).
  assert (Hcolon : Forall (fun p => lacks ":" p = true) (a :: st :: b :: rest)).
  { eapply Forall_impl; [|exact Hall]. intros p. apply isField_colon. }
  assert (Heq : lacks "=" (join ":" (a :: st :: b :: rest)) = true).
  { apply lacks_join; [reflexivity|].
    eapply Forall_impl; [|exact Hall]. intros p. apply isField_eq. }
  unfold parseVariableRange.
  rewrite split_descriptor by assumption.
  cbn [nth_error hd].
  rewrite (split_join ":" (a :: st :: b :: rest)) by (discriminate || assumption).
  cbn [length part nth_error].
  destruct (S (S (S (length rest))) =? 4)%nat eqn:E4.
  { apply Nat.eqb_eq in E4. lia. }
  unfold tryCatch.
  rewrite bind_liftHost, Eva, bind_liftHost, Evs, bind_liftHost, Evb.
  reflexivity.
Qed.

(** X3.  Whatever [parseVariableRange] throws is its parse error, carrying
    the descriptor and the scope it was called with; whatever
    [expandString] throws is its expansion error, carrying the string and
    the scope.  An exception of the evaluator never leaves either
    function as it is. *)
Theorem thrown_values_are_wrapped :
  (forall (str : value) (params : obj) (s s' : Rng) (e : exn),
      parseVariableRange str params s = Some (Throw e, s') ->
      exists cause, e = RangeParseError str params cause)
  /\ (forall (str : string) (params : obj) (s s' : Rng) (e : exn),
         expandString str params s = Some (Throw e, s') ->
         exists cause, e = StringExpandError str params cause).
Proof.
  split.
  - exact parseVariableRange_wraps.
  - exact expandString_wraps.
Qed.

End MoreParseFacts.

Lemma thrown_values_are_wrapped_witness :
  (exists cause,
      RangeParseError (VStr "N=1:q:10") [] (HostError "Undefined symbol q")
      = RangeParseError (VStr "N=1:q:10") [] cause)
  /\ (exists cause,
         StringExpandError "a`q`" [] (HostError "Undefined symbol q")
         = StringExpandError "a`q`" [] cause).
Proof.
  split.
  - exact (proj1 (thrown_values_are_wrapped (H := Toy.host))
             (VStr "N=1:q:10") [] 0%nat 0%nat _ eq_refl).
  - exact (proj2 (thrown_values_are_wrapped (H := Toy.host))
             "a`q`" [] 0%nat 0%nat _ eq_refl).
Defined.

Lemma parseVariableRange_no_equals_witness :
  exists msg,
    parseVariableRange (H := Toy.host) (VStr "N:1:10") [] 0%nat
    = Some (Throw (RangeParseError (VStr "N:1:10") [] (TypeError msg)), 0%nat).
Proof.
  exact (parseVariableRange_no_equals (H := Toy.host) (VStr "N:1:10") [] 0%nat
           eq_refl).
Defined.

Lemma parseVariableRange_extra_parts_witness :
  parseVariableRange (H := Toy.host) (VStr "N=1:1:10:5:7") [] 0%nat
  = Some (Ok {| name := "N"; start := fin 1; step := fin 1; end_ := fin 10;
                defaultVal := fin 1 |}, 0%nat).
Proof.
  apply (parseVariableRange_extra_parts (H := Toy.host) "N" "1" "1" "10"
           ["5"; "7"] [] 0%nat 0%nat 0%nat 0%nat (fin 1) (fin 1) (fin 10));
    try reflexivity.
  - repeat constructor.
  - discriminate.
Defined.

(** *** [expandObject], field by field *)

Section MoreObjectFacts.
Context {H : Host}.

Lemma expandObject_VObj (fuel : nat) (md : ModuleDef.t) (fields : obj)
  (params : obj) :
  expandObject fuel md (VObj fields) params
  = (result <- foldM (fun result kv =>
                        onField fuel md params result (fst kv) (snd kv))
                     fields [] ;;
     ret (VObj result)).
Proof. reflexivity. Qed.

Lemma expandObject_VArr (fuel : nat) (md : ModuleDef.t) (elems : list value)
  (params : obj) :
  expandObject fuel md (VArr elems) params
  = (result <- foldMi (fun result i v =>
                         onField fuel md params result (natToString i) v)
                      elems 0%nat [] ;;
     ret (VObj result)).
Proof. reflexivity. Qed.

Lemma foldM_invariant {A B} (P : B -> Prop) (f : B -> A -> M B) :
  (forall acc x s acc' s',
      P acc -> f acc x s = Some (Ok acc', s') -> P acc') ->
  forall l acc s r s',
    P acc -> foldM f l acc s = Some (Ok r, s') -> P r.
Proof.
  intros Hf. induction l as [|x l IH]; intros acc s r s' Hacc E.
  - cbn in E. inversion E; subst. exact Hacc.
  - cbn [foldM] in E. unfold bind in E.
    destruct (f acc x s) as [[[acc'|e] s1]|] eqn:Ef; try discriminate.
    apply (IH acc' s1 r s'); [|exact E]. now apply (Hf acc x s acc' s1).
Qed.

Lemma foldMi_invariant {A B} (P : B -> Prop) (f : B -> nat -> A -> M B) :
  (forall acc i x s acc' s',
      P acc -> f acc i x s = Some (Ok acc', s') -> P acc') ->
  forall l i acc s r s',
    P acc -> foldMi f l i acc s = Some (Ok r, s') -> P r.
Proof.
  intros Hf. induction l as [|x l IH]; intros i acc s r s' Hacc E.
  - cbn in E. inversion E; subst. exact Hacc.
  - cbn [foldMi] in E. unfold bind in E.
    destruct (f acc i x s) as [[[acc'|e] s1]|] eqn:Ef; try discriminate.
    apply (IH (S i) acc' s1 r s'); [|exact E]. now apply (Hf acc i x s acc' s1).
Qed.

Lemma onField_result (fuel : nat) (md : ModuleDef.t) (params : obj)
  (result : obj) (key : string) (v : value) (s s' : Rng) (r : obj) :
  onField fuel md params result key v s = Some (Ok r, s') ->
  (isControlKey key = true /\ r = result)
  \/ (isControlKey key = false /\ exists x, r = obj_set key x result).
Proof.
  unfold onField, isControlKey.
  destruct ((key =? "for") || (key =? "if")).
  - intros E. inversion E. now left.
  - intros E. right. split; [reflexivity|].
    destruct v; unfold bind, ret in E;
      try (inversion E; eexists; reflexivity);
      match type of E with
      | context [match ?m s with _ => _ end] =>
          destruct (m s) as [[[x|e] s1]|]; try discriminate;
          inversion E; eexists; reflexivity
      end.
Qed.

Lemma onField_noControl (fuel : nat) (md : ModuleDef.t) (params : obj)
  (result : obj) (key : string) (v : value) (s s' : Rng) (r : obj) :
  noControlKeys result ->
  onField fuel md params result key v s = Some (Ok r, s') ->
  noControlKeys r.
Proof.
  intros [Hf Hi] E.
  destruct (onField_result _ _ _ _ _ _ _ _ _ E) as [[_ ->]|[Hk [x ->]]];
    [now split|].
  unfold isControlKey in Hk. apply orb_false_iff in Hk as [K1 K2].
  unfold noControlKeys. now rewrite !obj_has_set, K1, K2, Hf, Hi.
Qed.

Lemma expandObject_object (fuel : nat) (md : ModuleDef.t)
  (o : value) (params : obj) (s s' : Rng) (r : value) :
  expandObject fuel md o params s = Some (Ok r, s') ->
  exists fields, r = VObj fields /\ noControlKeys fields.
Proof.
  destruct o as [| |b|n|str|elems|fields|];
    try (intros E; inversion E; exists []; split; [reflexivity|now split]).
  - (* a string: its characters *)
    cbn [expandObject]. unfold bind at 1.
    match goal with
    | |- context [foldMi ?f ?l ?i ?a s] =>
        destruct (foldMi f l i a s) as [[[res|e] s1]|] eqn:E; try discriminate
    end.
    intros E'. inversion E'; subst. exists res. split; [reflexivity|].
    revert E. apply foldMi_invariant; [|now split].
    intros acc i c s0 acc' s0' [Hf Hi] Ec. unfold bind, ret in Ec.
    destruct (expandString (String c "") params s0) as [[[x|e] s2]|];
      try discriminate.
    inversion Ec; subst. unfold noControlKeys.
    rewrite !obj_has_set, Hf, Hi, !orb_false_r.
    split; apply String.eqb_neq, natToString_not; reflexivity.
  - rewrite expandObject_VArr. unfold bind at 1.
    match goal with
    | |- context [foldMi ?f ?l ?i ?a s] =>
        destruct (foldMi f l i a s) as [[[res|e] s1]|] eqn:E; try discriminate
    end.
    intros E'. inversion E'; subst. exists res. split; [reflexivity|].
    revert E. apply foldMi_invariant; [|now split].
    intros acc i x s0 acc' s0' Hacc Ec.
    now apply (onField_noControl _ _ _ _ _ _ _ _ _ Hacc Ec).
  - rewrite expandObject_VObj. unfold bind at 1.
    match goal with
    | |- context [foldM ?f ?l ?a s] =>
        destruct (foldM f l a s) as [[[res|e] s1]|] eqn:E; try discriminate
    end.
    intros E'. inversion E'; subst. exists res. split; [reflexivity|].
    revert E. apply foldM_invariant; [|now split].
    intros acc x s0 acc' s0' Hacc Ec.
    now apply (onField_noControl _ _ _ _ _ _ _ _ _ Hacc Ec).
Qed.

(** X4.  Whatever it is given (an object, an array, a string, [null], a
    number), [expandObject] returns an object when it returns, and that
    object has neither a [for] nor an [if] key. *)
Theorem expandObject_drops_control_keys (fuel : nat) (md : ModuleDef.t)
  (o : value) (params : obj) (s s' : Rng) (r : value) :
  expandObject fuel md o params s = Some (Ok r, s') ->
  exists fields, r = VObj fields /\ noControlKeys fields.
Proof. exact (expandObject_object fuel md o params s s' r). Qed.

Lemma onField_plain (fuel : nat) (md : ModuleDef.t) (params : obj)
  (result : obj) (key : string) (v w : value) (s : Rng) :
  isControlKey key = false -> plainImage v = Some w ->
  onField fuel md params result key v s = Some (Ok (obj_set key w result), s).
Proof.
  unfold onField, isControlKey. intros -> Hw.
  destruct v as [| |b|n|str|elems|fields|]; cbn in Hw;
    try (inversion Hw; subst; reflexivity); try discriminate.
  destruct (lacks "`" str) eqn:Hs; [|discriminate]. inversion Hw; subst.
  unfold bind. now rewrite (expandString_plain str params s Hs).
Qed.

(** The keys and values of the result of the [for ... in] loop of
    [expandObject], read off the fields of the template. *)
Lemma expandFields_spec (fuel : nat) (md : ModuleDef.t) (params : obj) :
  forall (fields : obj) (acc : obj) (s : Rng) (r : obj) (s' : Rng),
    NoDup (map fst fields) ->
    (forall k, In k (map fst fields) -> obj_has k acc = false) ->
    foldM (fun result kv => onField fuel md params result (fst kv) (snd kv))
          fields acc s = Some (Ok r, s') ->
    map fst r
    = map fst acc ++ filter (fun k => negb (isControlKey k)) (map fst fields)
    /\ (forall k, ~ In k (map fst fields) -> obj_get k r = obj_get k acc)
    /\ (forall k v w, In (k, v) fields -> isControlKey k = false ->
                      plainImage v = Some w -> obj_get k r = w).
Proof.
  induction fields as [|[key v] fields IH]; intros acc s r s' Hnd Hfresh E.
  - cbn in E. inversion E; subst. cbn. rewrite app_nil_r.
    split; [reflexivity|]. split; [reflexivity|]. intros k v w [].
  - cbn [foldM] in E. unfold bind in E. cbn [fst snd] in E.
    destruct (onField fuel md params acc key v s) as [[[acc'|e] s1]|] eqn:Ef;
      try discriminate.
    cbn [map fst] in Hnd. inversion Hnd as [|? ? Hkey Hnd']; subst.
    assert (Hacc : obj_has key acc = false) by (apply Hfresh; now left).
    destruct (onField_result _ _ _ _ _ _ _ _ _ Ef) as [[Hk ->]|[Hk [x ->]]].
    + destruct (IH acc s1 r s' Hnd') as [K1 [K2 K3]]; [|exact E|].
      { intros k Hin. apply Hfresh. now right. }
      cbn [map fst filter]. rewrite Hk. cbn [negb].
      split; [exact K1|]. split.
      * intros k Hn. apply K2. intros Hin. apply Hn. now right.
      * intros k v0 w [Heq|Hin] Hck Hw; [|now apply (K3 k v0 w)].
        inversion Heq; subst. congruence.
    + destruct (IH (obj_set key x acc) s1 r s' Hnd') as [K1 [K2 K3]];
        [|exact E|].
      { intros k Hin. rewrite obj_has_set.
        destruct (String.eqb_spec key k) as [->|_]; [contradiction|].
        apply Hfresh. now right. }
      cbn [map fst filter]. rewrite Hk. cbn [negb].
      split; [|split].
      * rewrite K1, (obj_set_fresh key x acc Hacc), map_app, <- app_assoc.
        reflexivity.
      * intros k Hn. rewrite K2 by (intros Hin; apply Hn; now right).
        apply obj_get_set_other. intros ->. apply Hn. now left.
      * intros k v0 w [Heq|Hin] Hck Hw; [|now apply (K3 k v0 w)].
        inversion Heq; subst k v0.
        rewrite (K2 key Hkey).
        rewrite (onField_plain fuel md params acc key v w s Hck Hw) in Ef.
        injection Ef as Ex _. rewrite <- Ex. apply obj_get_set_same.
Qed.

(** X5.  The keys of an expanded object are the keys of the template
    other than [for] and [if], in the order of the template. *)
Theorem expandObject_keeps_keys (fuel : nat) (md : ModuleDef.t)
  (fields : obj) (params : obj) (s s' : Rng) (r : value) :
  NoDup (map fst fields) ->
  expandObject fuel md (VObj fields) params s = Some (Ok r, s') ->
  exists out,
    r = VObj out
    /\ map fst out = filter (fun k => negb (isControlKey k)) (map fst fields).
Proof.
  intros Hnd. rewrite expandObject_VObj. unfold bind at 1.
  match goal with
  | |- context [foldM ?f ?l ?a s] =>
      destruct (foldM f l a s) as [[[res|e] s1]|] eqn:E; try discriminate
  end.
  intros E'. inversion E'; subst. exists res. split; [reflexivity|].
  now destruct (expandFields_spec fuel md params fields [] s res s' Hnd
                  ltac:(reflexivity) E) as [K _].
Qed.

(** X6.  [expandObject] copies the fields it has nothing to evaluate in:
    a number, a boolean, [undefined] or a function is stored as it is, a
    string without back-tick unchanged, and [null] becomes an empty
    object. *)
Theorem expandObject_copies_plain (fuel : nat) (md : ModuleDef.t)
  (fields : obj) (params : obj) (s s' : Rng) (out : obj) :
  NoDup (map fst fields) ->
  expandObject fuel md (VObj fields) params s = Some (Ok (VObj out), s') ->
  forall k v w,
    In (k, v) fields -> isControlKey k = false -> plainImage v = Some w ->
    obj_get k out = w.
Proof.
  intros Hnd. rewrite expandObject_VObj. unfold bind at 1.
  match goal with
  | |- context [foldM ?f ?l ?a s] =>
      destruct (foldM f l a s) as [[[res|e] s1]|] eqn:E; try discriminate
  end.
  intros E'. inversion E'; subst.
  now destruct (expandFields_spec fuel md params fields [] s out s' Hnd
                  ltac:(reflexivity) E) as [_ [_ K]].
Qed.
End MoreObjectFacts.

Lemma expandObject_drops_control_keys_witness :
  exists fields,
    VObj [("type", VStr "Mirror")] = VObj fields /\ noControlKeys fields.
Proof.
  exact (expandObject_drops_control_keys (H := Toy.host) 1
           (plainDef VUndef (VArr []) VUndef)
           (VObj [("for", VStr "i=0:1:2"); ("type", VStr "Mirror")])
           [] 0%nat 0%nat _ eq_refl).
Defined.

Lemma expandObject_keeps_keys_witness :
  exists out,
    VObj [("type", VStr "Mirror"); ("angle", fin 5)] = VObj out
    /\ map fst out = ["type"; "angle"].
Proof.
  apply (expandObject_keeps_keys (H := Toy.host) 1
           (plainDef VUndef (VArr []) VUndef)
           [("type", VStr "Mirror"); ("if", VStr "1!=1"); ("angle", VStr "`2+3`")]
           [] 0%nat 0%nat); [|reflexivity].
  repeat constructor; cbn; intuition discriminate.
Defined.

Lemma expandObject_copies_plain_witness :
  obj_get "n" [("n", fin 3); ("label", VStr "a"); ("angle", fin 5)] = fin 3
  /\ obj_get "label" [("n", fin 3); ("label", VStr "a"); ("angle", fin 5)]
     = VStr "a".
Proof.
  assert (Hnd : NoDup (map fst [("n", fin 3); ("label", VStr "a");
                                ("angle", VStr "`2+3`")]))
    by (repeat constructor; cbn; intuition discriminate).
  pose proof (expandObject_copies_plain (H := Toy.host) 1
                (plainDef VUndef (VArr []) VUndef)
                [("n", fin 3); ("label", VStr "a"); ("angle", VStr "`2+3`")]
                [] 0%nat 0%nat
                [("n", fin 3); ("label", VStr "a"); ("angle", fin 5)]
                Hnd eq_refl) as K.
  split.
  - apply (K "n" (fin 3) (fin 3)); [now left|reflexivity|reflexivity].
  - apply (K "label" (VStr "a") (VStr "a"));
      [right; now left|reflexivity|reflexivity].
Defined.

(** *** [expandArray], element by element *)

Section MoreArrayFacts.
Context {H : Host}.

Lemma foldM_throw {A B} (f : B -> A -> M B) :
  forall l acc s e s',
    foldM f l acc s = Some (Throw e, s') ->
    exists x acc0 s0, In x l /\ f acc0 x s0 = Some (Throw e, s').
Proof.
  induction l as [|x l IH]; intros acc s e s' E; [discriminate|].
  cbn [foldM] in E. unfold bind in E.
  destruct (f acc x s) as [[[acc'|e0] s1]|] eqn:Ef; try discriminate.
  - destruct (IH _ _ _ _ E) as [y [a0 [s0 [Hin Hy]]]].
    exists y, a0, s0. split; [now right|exact Hy].
  - inversion E; subst. exists x, acc, s. split; [now left|exact Ef].
Qed.

(** X7.  An array element that is a primitive value (a string, a number,
    a boolean, [null] or [undefined]) makes [expandArray] throw: the [in]
    test of the first branch refuses it with a [TypeError], so the branch
    for strings is never reached.  The stream is where the elements
    before it left it. *)
Theorem expandArray_primitive_elem (fuel : nat) (md : ModuleDef.t)
  (pre post : list value) (elem : value) (params : obj) (s0 s1 : Rng)
  (out : list value) :
  isPrimitive elem = true ->
  expandArray fuel md (VArr pre) params s0 = Some (Ok (VArr out), s1) ->
  exists msg,
    expandArray fuel md (VArr (pre ++ elem :: post)) params s0
    = Some (Throw (ArrayElemError elem params (TypeError msg)), s1).
Proof.
  intros Hp Hpre.
  exists "right operand of 'in' is not an object".
  apply (expandArray_elem_throw fuel md pre post elem params s0 s1 s1 out _ Hpre).
  destruct elem; try discriminate; reflexivity.
Qed.

(** X8.  Whatever [expandArray] throws is its element error, carrying an
    element of the array, the scope of the call and the cause. *)
Theorem expandArray_throws_wrapped (fuel : nat) (md : ModuleDef.t)
  (elems : list value) (params : obj) (s s' : Rng) (e : exn) :
  expandArray fuel md (VArr elems) params s = Some (Throw e, s') ->
  exists elem cause, In elem elems /\ e = ArrayElemError elem params cause.
Proof.
  rewrite expandArray_VArr. unfold bind at 1.
  destruct (foldM (onElem fuel md params) elems [] s) as [[[r|e0] s1]|] eqn:E;
    try discriminate.
  intros E'. inversion E'; subst.
  destruct (foldM_throw _ _ _ _ _ _ E) as [elem [acc0 [s0 [Hin Ht]]]].
  exists elem. unfold onElem, tryCatch in Ht.
  match type of Ht with
  | context [match ?m s0 with _ => _ end] =>
      destruct (m s0) as [[[x|c] s2]|]; try discriminate
  end.
  inversion Ht; subst. now exists c.
Qed.

Lemma onElem_if (fuel : nat) (md : ModuleDef.t) (params : obj)
  (fields : obj) (result : list value) (s : Rng) :
  obj_has "for" fields = false -> obj_has "if" fields = true ->
  onElem fuel md params result (VObj fields) s
  = match evaluate (obj_get "if" fields) params s with
    | (Ok c, s1) =>
        if js_truthy c then
          match expandObject fuel md (VObj fields) params s1 with
          | Some (Ok x, s2) => Some (Ok (result ++ [x]), s2)
          | Some (Throw e, s2) =>
              Some (Throw (ArrayElemError (VObj fields) params e), s2)
          | None => None
          end
        else Some (Ok result, s1)
    | (Throw e, s1) => Some (Throw (ArrayElemError (VObj fields) params e), s1)
    end.
Proof.
  intros Hf Hi. unfold onElem, tryCatch. rewrite Hf, Hi, bind_liftHost.
  destruct (evaluate (obj_get "if" fields) params s) as [[c|e] s1];
    [|reflexivity].
  destruct (js_truthy c); [|reflexivity].
  unfold bind.
  destruct (expandObject fuel md (VObj fields) params s1) as [[[x|e] s2]|];
    reflexivity.
Qed.

(** X9.  An element with [if] and no [for]: when the condition evaluates
    to a falsy value the element adds nothing to the result, when it
    evaluates to a truthy one the element adds its expansion under the
    scope of the call, once. *)
Theorem if_only_element (fuel : nat) (md : ModuleDef.t) (params : obj)
  (pre : list value) (fields : obj) (s0 s1 s2 : Rng) (out0 : list value)
  (c : value) :
  obj_has "for" fields = false -> obj_has "if" fields = true ->
  expandArray fuel md (VArr pre) params s0 = Some (Ok (VArr out0), s1) ->
  evaluate (obj_get "if" fields) params s1 = (Ok c, s2) ->
  (js_truthy c = false ->
   expandArray fuel md (VArr (pre ++ [VObj fields])) params s0
   = Some (Ok (VArr out0), s2))
  /\ (js_truthy c = true ->
      forall x s3,
        expandObject fuel md (VObj fields) params s2 = Some (Ok x, s3) ->
        expandArray fuel md (VArr (pre ++ [VObj fields])) params s0
        = Some (Ok (VArr (out0 ++ [x])), s3)).
Proof.
  intros Hf Hi Hpre Hc. split.
  - intros Ht.
    apply (expandArray_last_ok fuel md pre _ params s0 s1 s2 out0 _ Hpre).
    now rewrite onElem_if, Hc, Ht.
  - intros Ht x s3 Hx.
    apply (expandArray_last_ok fuel md pre _ params s0 s1 s3 out0 _ Hpre).
    now rewrite onElem_if, Hc, Ht, Hx.
Qed.

Lemma onElem_single (fuel : nat) (md : ModuleDef.t) (params : obj)
  (result r : list value) (elem : value) (s s' : Rng) :
  isSingle elem = true ->
  onElem fuel md params result elem s = Some (Ok r, s') ->
  exists x, r = result ++ [x] /\ sameKind elem x.
Proof.
  intros Hs. unfold onElem, tryCatch.
  destruct elem as [| |b|n|str|l|fields|]; try discriminate.
  - unfold bind.
    destruct (expandArray fuel md (VArr l) params s) as [[[x|e] s1]|] eqn:Ex;
      try discriminate.
    intros E. inversion E; subst. exists x. split; [reflexivity|].
    rewrite expandArray_VArr in Ex. unfold bind, ret in Ex.
    destruct (foldM (onElem fuel md params) l [] s) as [[[o|e] s2]|];
      try discriminate.
    inversion Ex. now exists o.
  - cbn [isSingle] in Hs. apply andb_true_iff in Hs as [Hf Hi].
    apply negb_true_iff in Hf, Hi. rewrite Hf, Hi. unfold bind.
    destruct (expandObject fuel md (VObj fields) params s) as [[[x|e] s1]|] eqn:Ex;
      try discriminate.
    intros E. inversion E; subst. exists x. split; [reflexivity|].
    destruct (expandObject_object _ _ _ _ _ _ _ Ex) as [o [-> _]].
    now exists o.
  - intros E. inversion E; subst. exists VRng. split; reflexivity.
Qed.

(** X10.  An array whose elements have neither [for] nor [if] expands
    element by element: the result has as many elements, in the same
    order, an object for an object, an array for an array, and a function
    as it is. *)
Theorem expandArray_one_for_one (fuel : nat) (md : ModuleDef.t)
  (elems : list value) (params : obj) (s s' : Rng) (out : list value) :
  Forall (fun elem => isSingle elem = true) elems ->
  expandArray fuel md (VArr elems) params s = Some (Ok (VArr out), s') ->
  Forall2 sameKind elems out.
Proof.
  intros Hall E. apply expandArray_prefix in E.
  assert (G : forall l acc s0 r s1,
             Forall (fun elem => isSingle elem = true) l ->
             foldM (onElem fuel md params) l acc s0 = Some (Ok r, s1) ->
             exists outs, r = acc ++ outs /\ Forall2 sameKind l outs).
  { clear. induction l as [|elem l IH]; intros acc s0 r s1 Hall E.
    - cbn in E. inversion E; subst. exists []. split; [now rewrite app_nil_r|constructor].
    - inversion Hall as [|? ? He Hl]; subst.
      cbn [foldM] in E. unfold bind in E.
      destruct (onElem fuel md params acc elem s0) as [[[acc'|e] s2]|] eqn:Eo;
        try discriminate.
      destruct (onElem_single _ _ _ _ _ _ _ _ He Eo) as [x [-> Hk]].
      destruct (IH _ _ _ _ Hl E) as [outs [-> HF]].
      exists (x :: outs). split; [now rewrite <- app_assoc|now constructor]. }
  destruct (G elems [] s out s' Hall E) as [outs [-> HF]]. exact HF.
Qed.
End MoreArrayFacts.

Lemma expandArray_primitive_elem_witness :
  exists msg,
    expandArray (H := Toy.host) 1 (plainDef VUndef (VArr []) VUndef)
      (VArr [VStr "`1+1`"]) [] 0%nat
    = Some (Throw (ArrayElemError (VStr "`1+1`") [] (TypeError msg)), 0%nat).
Proof.
  exact (expandArray_primitive_elem (H := Toy.host) 1
           (plainDef VUndef (VArr []) VUndef) [] [] (VStr "`1+1`") []
           0%nat 0%nat [] eq_refl eq_refl).
Defined.

Lemma expandArray_throws_wrapped_witness :
  exists elem cause,
    In elem [VObj [("type", VStr "Mirror")]; VObj [("angle", VStr "`q`")]]
    /\ ArrayElemError (VObj [("angle", VStr "`q`")]) []
         (StringExpandError "`q`" [] (HostError "Undefined symbol q"))
       = ArrayElemError elem [] cause.
Proof.
  exact (expandArray_throws_wrapped (H := Toy.host) 1
           (plainDef VUndef (VArr []) VUndef)
           [VObj [("type", VStr "Mirror")]; VObj [("angle", VStr "`q`")]]
           [] 0%nat 0%nat _ eq_refl).
Defined.

Lemma if_only_element_witness :
  expandArray (H := Toy.host) 1 (plainDef VUndef (VArr []) VUndef)
    (VArr [VObj [("if", VStr "1!=1"); ("type", VStr "Mirror")]]) [] 0%nat
  = Some (Ok (VArr []), 0%nat)
  /\ expandArray (H := Toy.host) 1 (plainDef VUndef (VArr []) VUndef)
       (VArr [VObj [("if", VStr "1!=2"); ("type", VStr "Mirror")]]) [] 0%nat
     = Some (Ok (VArr [VObj [("type", VStr "Mirror")]]), 0%nat).
Proof.
  split.
  - apply (proj1 (if_only_element (H := Toy.host) 1
                    (plainDef VUndef (VArr []) VUndef) [] []
                    [("if", VStr "1!=1"); ("type", VStr "Mirror")]
                    0%nat 0%nat 0%nat [] (VBool false)
                    eq_refl eq_refl eq_refl eq_refl)).
    reflexivity.
  - apply (proj2 (if_only_element (H := Toy.host) 1
                    (plainDef VUndef (VArr []) VUndef) [] []
                    [("if", VStr "1!=2"); ("type", VStr "Mirror")]
                    0%nat 0%nat 0%nat [] (VBool true)
                    eq_refl eq_refl eq_refl eq_refl));
      reflexivity.
Defined.

Lemma expandArray_one_for_one_witness :
  Forall2 sameKind
    [VObj [("type", VStr "Mirror")]; VArr [VObj [("n", VStr "`1+1`")]]]
    [VObj [("type", VStr "Mirror")]; VArr [VObj [("n", fin 2)]]].
Proof.
  apply (expandArray_one_for_one (H := Toy.host) 1
           (plainDef VUndef (VArr []) VUndef) _ [] 0%nat 0%nat);
    [|reflexivity].
  repeat constructor.
Defined.

(** *** Loops and their combinations *)

Section MoreLoopFacts.
Context {H : Host}.

(** X11.  A [for] value that is neither a string nor a non-empty array
    (a number, an object, [null], an empty array) declares no loop
    variable: as long as the cap is at least one, the element stands for
    the single combination that is the scope of the call.  Without an
    [if] key it is expanded exactly once, under that scope.  With an
    [if] key the condition is evaluated once, under that scope: the
    element is dropped when the value is falsy, and expanded exactly
    once when it is truthy. *)
Theorem for_without_ranges (fuel : nat) (md : ModuleDef.t) (params : obj)
  (pre : list value) (fields : obj) (s0 s1 : Rng) (out0 : list value) :
  obj_has "for" fields = true ->
  match obj_get "for" fields with
  | VStr _ | VArr (_ :: _) => False
  | _ => True
  end ->
  js_gt (VNum (ofZ 1)) (loopCap md) = false ->
  expandArray fuel md (VArr pre) params s0 = Some (Ok (VArr out0), s1) ->
  (obj_has "if" fields = false ->
   forall x s2,
     expandObject fuel md (VObj fields) params s1 = Some (Ok x, s2) ->
     expandArray fuel md (VArr (pre ++ [VObj fields])) params s0
     = Some (Ok (VArr (out0 ++ [x])), s2))
  /\ (obj_has "if" fields = true ->
      forall c s2,
        evaluate (obj_get "if" fields) params s1 = (Ok c, s2) ->
        (js_truthy c = false ->
         expandArray fuel md (VArr (pre ++ [VObj fields])) params s0
         = Some (Ok (VArr out0), s2))
        /\ (js_truthy c = true ->
            forall x s3,
              expandObject fuel md (VObj fields) params s2 = Some (Ok x, s3) ->
              expandArray fuel md (VArr (pre ++ [VObj fields])) params s0
              = Some (Ok (VArr (out0 ++ [x])), s3))).
Proof.
  intros Hfor Hshape Hcap Hpre.
  assert (Hp : parseFor (obj_get "for" fields) params s1 = Some (Ok [], s1)).
  { destruct (obj_get "for" fields) as [| |b|n|str|[|f fs]|o|];
      try contradiction; reflexivity. }
  assert (Hel : onElem fuel md params out0 (VObj fields) s1
                = tryCatch (forCombos fuel md fields [params] out0)
                    (fun e => throw (ArrayElemError (VObj fields) params e)) s1).
  { rewrite onElem_for by assumption. unfold tryCatch.
    rewrite (forElem_parsed fuel md params fields out0 s1 s1 [] Hp).
    cbn [expandLoopVars].
    change (js_gt (VNum (ofZ (Z.of_nat (length [params])))) (loopCap md))
      with (js_gt (VNum (ofZ 1)) (loopCap md)).
    now rewrite Hcap. }
  split.
  - intros Hif x s2 Hx.
    apply (expandArray_last_ok fuel md pre _ params s0 s1 s2 out0 _ Hpre).
    rewrite Hel. apply tryCatch_ok.
    unfold forCombos. cbn [foldM]. rewrite Hif.
    unfold bind, ret. now rewrite Hx.
  - intros Hif c s2 Hc. split.
    + intros Ht.
      apply (expandArray_last_ok fuel md pre _ params s0 s1 s2 out0 _ Hpre).
      rewrite Hel. apply tryCatch_ok.
      rewrite forCombos_cons by assumption. now rewrite Hc, Ht.
    + intros Ht x s3 Hx.
      apply (expandArray_last_ok fuel md pre _ params s0 s1 s3 out0 _ Hpre).
      rewrite Hel. apply tryCatch_ok.
      rewrite forCombos_cons by assumption. now rewrite Hc, Ht, Hx.
Qed.

(** X12.  Ranges that pass the cap test one by one and whose loops end
    expand to the combinations of the values their loops meet, the
    first range varying slowest; the number of combinations is the
    product of the numbers of values.  (The cap on that number is
    applied by the caller, not here.) *)
Theorem expandLoopVars_cartesian (fuel : nat) (md : ModuleDef.t) (params : obj)
  (loopVars : list range) (valss : list (list value)) :
  Forall2 (meets md) loopVars valss ->
  Forall (fun vals => (length vals < fuel)%nat) valss ->
  let combos := combinations params (combine (map name loopVars) valss) in
  expandLoopVars fuel md params loopVars = Some (Ok combos)
  /\ length combos
     = fold_right (fun vals n => (length vals * n)%nat) 1%nat valss.
Proof.
  intros HF Hlen combos. split.
  - now apply expandLoopVars_meets.
  - now apply (combinations_size loopVars valss (meets md)).
Qed.

(** What a combination binds: the names outside the ranges keep the
    values of [params], the keys of [params] stay, and a name that
    occurs once among the ranges is bound to a value of its list. *)
Lemma combinations_bindings (params : obj) :
  forall (ranges : list (string * list value)) (combo : obj),
    In combo (combinations params ranges) ->
    (forall k, ~ In k (map fst ranges) -> obj_get k combo = obj_get k params)
    /\ (forall k, obj_has k params = true -> obj_has k combo = true)
    /\ (NoDup (map fst ranges) ->
        forall x vals, In (x, vals) ranges ->
                       exists v, In v vals /\ obj_get x combo = v).
Proof.
  induction ranges as [|[x vals] ranges IH]; intros combo Hin.
  - cbn in Hin. destruct Hin as [<-|[]].
    split; [reflexivity|]. split; [auto|]. intros _ y vs [].
  - cbn [combinations] in Hin. apply in_flat_map in Hin as [v [Hv Hin]].
    apply in_map_iff in Hin as [inner [<- Hinner]].
    destruct (IH inner Hinner) as [K1 [K2 K3]].
    split; [|split].
    + intros k Hk. rewrite obj_get_set_other.
      * apply K1. intros Hin. apply Hk. now right.
      * intros ->. apply Hk. now left.
    + intros k Hk. rewrite obj_has_set, (K2 k Hk). apply orb_true_r.
    + intros Hnd y vs [Heq|Hin].
      * inversion Heq; subst. exists v. split; [exact Hv|].
        apply obj_get_set_same.
      * cbn [map fst] in Hnd. inversion Hnd as [|? ? Hx Hnd']; subst.
        destruct (K3 Hnd' y vs Hin) as [w [Hw Hg]].
        exists w. split; [exact Hw|].
        rewrite obj_get_set_other; [exact Hg|].
        intros ->. apply Hx. apply in_map_iff. now exists (y, vs).
Qed.

(** X13.  Each combination of a loop extends the scope of the call: the
    names that are no loop variable keep their values, the keys of the
    scope stay, and when the loop variables have distinct names each is
    bound to one of the values that the loop over its range meets. *)
Theorem expandLoopVars_bindings (fuel : nat) (md : ModuleDef.t) (params : obj)
  (loopVars : list range) (valss : list (list value)) (combo : obj) :
  Forall2 (meets md) loopVars valss ->
  Forall (fun vals => (length vals < fuel)%nat) valss ->
  (exists combos,
      expandLoopVars fuel md params loopVars = Some (Ok combos)
      /\ In combo combos) ->
  (forall k, ~ In k (map name loopVars) -> obj_get k combo = obj_get k params)
  /\ (forall k, obj_has k params = true -> obj_has k combo = true)
  /\ (NoDup (map name loopVars) ->
      forall lv vals, In (lv, vals) (combine loopVars valss) ->
                      exists v, In v vals /\ obj_get (name lv) combo = v).
Proof.
  intros HF Hlen [combos [E Hin]].
  rewrite (expandLoopVars_meets fuel md params loopVars valss HF Hlen) in E.
  inversion E; subst combos.
  assert (Hkeys : map fst (combine (map name loopVars) valss)
                  = map name loopVars).
  { clear - HF. induction HF; [reflexivity|]. cbn. now f_equal. }
  destruct (combinations_bindings params _ combo Hin) as [K1 [K2 K3]].
  rewrite Hkeys in K1, K3.
  split; [exact K1|]. split; [exact K2|].
  intros Hnd lv vals Hlv. apply (K3 Hnd (name lv) vals).
  clear - Hlv. revert valss Hlv.
  induction loopVars as [|l ls IH]; intros [|v vs] Hlv; try contradiction.
  cbn in *. destruct Hlv as [Heq|Hlv]; [inversion Heq; now left|].
  right. now apply IH.
Qed.
End MoreLoopFacts.

Lemma for_without_ranges_witness :
  expandArray (H := Toy.host) 1 (plainDef VUndef (VArr []) VUndef)
    (VArr [VObj [("for", fin 3); ("type", VStr "Mirror")]]) [] 0%nat
  = Some (Ok (VArr [VObj [("type", VStr "Mirror")]]), 0%nat)
  /\ expandArray (H := Toy.host) 1 (plainDef VUndef (VArr []) VUndef)
       (VArr [VObj [("for", fin 3); ("if", VStr "1!=1");
                    ("type", VStr "Mirror")]]) [] 0%nat
     = Some (Ok (VArr []), 0%nat)
  /\ expandArray (H := Toy.host) 1 (plainDef VUndef (VArr []) VUndef)
       (VArr [VObj [("for", fin 3); ("if", VStr "1!=2");
                    ("type", VStr "Mirror")]]) [] 0%nat
     = Some (Ok (VArr [VObj [("type", VStr "Mirror")]]), 0%nat).
Proof.
  split; [|split].
  - apply (proj1 (for_without_ranges (H := Toy.host) 1
                    (plainDef VUndef (VArr []) VUndef) [] []
                    [("for", fin 3); ("type", VStr "Mirror")] 0%nat 0%nat []
                    eq_refl I eq_refl eq_refl)); reflexivity.
  - apply (proj1 (proj2 (for_without_ranges (H := Toy.host) 1
                    (plainDef VUndef (VArr []) VUndef) [] []
                    [("for", fin 3); ("if", VStr "1!=1");
                     ("type", VStr "Mirror")] 0%nat 0%nat []
                    eq_refl I eq_refl eq_refl) eq_refl
                  (VBool false) 0%nat eq_refl)); reflexivity.
  - apply (proj2 (proj2 (for_without_ranges (H := Toy.host) 1
                    (plainDef VUndef (VArr []) VUndef) [] []
                    [("for", fin 3); ("if", VStr "1!=2");
                     ("type", VStr "Mirror")] 0%nat 0%nat []
                    eq_refl I eq_refl eq_refl) eq_refl
                  (VBool true) 0%nat eq_refl)); reflexivity.
Defined.

Lemma expandLoopVars_cartesian_witness :
  let md := plainDef VUndef (VArr []) VUndef in
  let combos :=
    [[("j", fin 5); ("i", fin 0)]; [("j", fin 6); ("i", fin 0)];
     [("j", fin 5); ("i", fin 1)]; [("j", fin 6); ("i", fin 1)];
     [("j", fin 5); ("i", fin 2)]; [("j", fin 6); ("i", fin 2)]] in
  expandLoopVars (H := Toy.host) 4 md [] [rangeOf "i" 0 1 2; rangeOf "j" 5 1 6]
  = Some (Ok combos)
  /\ length combos = 6%nat.
Proof.
  intros md combos.
  apply (expandLoopVars_cartesian (H := Toy.host) 4 md []
           [rangeOf "i" 0 1 2; rangeOf "j" 5 1 6]
           [[fin 0; fin 1; fin 2]; [fin 5; fin 6]]).
  - constructor; [|constructor; [|constructor]];
      (split; [reflexivity|run_up]).
  - repeat constructor.
Defined.

Lemma expandLoopVars_bindings_witness :
  let md := plainDef VUndef (VArr []) VUndef in
  let combo := [("k", fin 9); ("j", fin 6); ("i", fin 1)] in
  (exists combos,
      expandLoopVars (H := Toy.host) 4 md [("k", fin 9)]
        [rangeOf "i" 0 1 2; rangeOf "j" 5 1 6] = Some (Ok combos)
      /\ In combo combos)
  /\ obj_get "k" combo = fin 9
  /\ exists v, In v [fin 0; fin 1; fin 2] /\ obj_get "i" combo = v.
Proof.
  intros md combo.
  assert (HF : Forall2 (meets (H := Toy.host) md)
                 [rangeOf "i" 0 1 2; rangeOf "j" 5 1 6]
                 [[fin 0; fin 1; fin 2]; [fin 5; fin 6]]).
  { constructor; [|constructor; [|constructor]];
      (split; [reflexivity|run_up]). }
  assert (Hlen : Forall (fun vals : list value => (length vals < 4)%nat)
                   [[fin 0; fin 1; fin 2]; [fin 5; fin 6]])
    by (repeat constructor).
  assert (Hrun : exists combos,
             expandLoopVars (H := Toy.host) 4 md [("k", fin 9)]
               [rangeOf "i" 0 1 2; rangeOf "j" 5 1 6] = Some (Ok combos)
             /\ In combo combos).
  { eexists. split; [reflexivity|]. cbn. do 3 right. now left. }
  destruct (expandLoopVars_bindings (H := Toy.host) 4 md [("k", fin 9)]
              [rangeOf "i" 0 1 2; rangeOf "j" 5 1 6]
              [[fin 0; fin 1; fin 2]; [fin 5; fin 6]]
              combo HF Hlen Hrun) as (K1 & _ & K3).
  split; [exact Hrun|]. split.
  - apply (K1 "k"). cbn. intuition discriminate.
  - apply (K3 ltac:(repeat constructor; cbn; intuition discriminate)
              (rangeOf "i" 0 1 2) [fin 0; fin 1; fin 2]).
    now left.
Defined.

(** *** Loops that never end, loops that never start *)

Section StepFacts.
Context {H : Host}.

(** X14.  Take a range that passes the cap test.  If its start is
    [<= end] and adding the step leaves the start as it is (a step of
    zero, or one too small to change the value), the loop never ends:
    the expansion returns no combinations, whatever the ranges after it,
    and on the range alone it has no outcome at all.  If its start is
    not [<= end], the loop body never runs and there is no
    combination. *)
Theorem loop_stuck_or_empty (md : ModuleDef.t) (params : obj) (lv : range)
  (after : list range) :
  tooLong md lv = false ->
  (js_le (start lv) (end_ lv) = true ->
   js_add (start lv) (step lv) = start lv ->
   (forall fuel combos,
       expandLoopVars fuel md params (lv :: after) <> Some (Ok combos))
   /\ (forall fuel, expandLoopVars fuel md params [lv] = None))
  /\ (js_le (start lv) (end_ lv) = false ->
      forall fuel, (0 < fuel)%nat ->
        expandLoopVars fuel md params (lv :: after) = Some (Ok [])).
Proof.
  intros Hcap. split.
  - intros Hle Hadd. split.
    + intros fuel combos. rewrite expandLoopVars_cons, Hcap.
      now apply forValues_stuck.
    + intros fuel. rewrite expandLoopVars_cons, Hcap.
      apply forValues_stuck_none; [assumption|assumption|].
      eexists. reflexivity.
  - intros Hle fuel Hf. rewrite expandLoopVars_cons, Hcap.
    destruct fuel as [|n]; [lia|]. cbn [forValues]. now rewrite Hle.
Qed.
End StepFacts.

Lemma loop_stuck_or_empty_witness :
  let md := plainDef VUndef (VArr []) VUndef in
  (forall fuel,
      expandLoopVars (H := Toy.host) fuel md [] [rangeOf "i" 1 0 1] = None)
  /\ expandLoopVars (H := Toy.host) 1 md []
       [rangeOf "i" 3 1 0; rangeOf "j" 0 1 2] = Some (Ok []).
Proof.
  intros md. split.
  - apply (proj2 (proj1 (loop_stuck_or_empty (H := Toy.host) md []
                           (rangeOf "i" 1 0 1) [] eq_refl)
                    eq_refl eq_refl)).
  - apply (proj2 (loop_stuck_or_empty (H := Toy.host) md []
                    (rangeOf "i" 3 1 0) [rangeOf "j" 0 1 2] eq_refl)
             eq_refl 1%nat).
    lia.
Defined.


Lemma xName_inj i j : xName i = xName j -> i = j.
Proof.
  unfold xName. intros E. cbn in E. inversion E as [E'].
  apply natToString_inj in E'. lia.
Qed.

Lemma yName_inj i j : yName i = yName j -> i = j.
Proof.
  unfold yName. intros E. cbn in E. inversion E as [E'].
  apply natToString_inj in E'. lia.
Qed.

Lemma xName_yName i j : xName i <> yName j.
Proof. unfold xName, yName. cbn. discriminate. Qed.

Lemma copy_get (o : obj) :
  NoDup (map fst o) ->
  forall acc k,
    (forall k', In k' (map fst o) -> obj_has k' acc = false) ->
    obj_get k (fold_left (fun fp kv => obj_set (fst kv) (snd kv) fp) o acc)
    = if obj_has k o then obj_get k o else obj_get k acc.
Proof.
  induction o as [|[key v] o IH]; intros Hnd acc k Hfresh; [reflexivity|].
  cbn [map fst] in Hnd. inversion Hnd as [|? ? Hkey Hnd']; subst.
  cbn [fold_left fst snd obj_has obj_get].
  rewrite IH; [|assumption|].
  2:{ intros k' Hin. rewrite obj_has_set.
      destruct (String.eqb_spec key k') as [->|_]; [contradiction|].
      apply Hfresh. now right. }
  destruct (String.eqb_spec key k) as [->|Hne]; cbn [orb].
  - assert (Hk : obj_has k o = false).
    { destruct (obj_has k o) eqn:E; [|reflexivity].
      apply obj_has_keys in E. contradiction. }
    rewrite Hk. apply obj_get_set_same.
  - destruct (obj_has k o); [reflexivity|]. now apply obj_get_set_other.
Qed.

(** *** The scope of an expansion *)

Section ScopeFacts.
Context {H : Host}.

Lemma fullParams0_eq (this : ModuleObj) :
  fullParams0 this
  = obj_set "random" VRng
      (fold_left setXY (combine (seq 0 (length (points this))) (points this))
         (fold_left (fun fp kv => obj_set (fst kv) (snd kv) fp)
                    (params this) [])).
Proof. reflexivity. Qed.

Lemma points_get (pts : list Point.t) :
  forall (i0 : nat) (acc : obj) (k : string),
    obj_get k (fold_left setXY (combine (seq i0 (length pts)) pts) acc)
    = match find (fun ip => String.eqb (xName (fst ip)) k
                            || String.eqb (yName (fst ip)) k)
                 (combine (seq i0 (length pts)) pts) with
      | Some ip => if String.eqb (xName (fst ip)) k then Point.x (snd ip)
                   else Point.y (snd ip)
      | None => obj_get k acc
      end.
Proof.
  induction pts as [|p pts IH]; intros i0 acc k; [reflexivity|].
  cbn [length seq combine fold_left find fst snd].
  rewrite IH.
  assert (Hlater : forall ip, In ip (combine (seq (S i0) (length pts)) pts) ->
                     (i0 < fst ip)%nat).
  { intros [i q] Hin. apply in_combine_l in Hin. apply in_seq in Hin.
    cbn. lia. }
  destruct (String.eqb_spec (xName i0) k) as [Ex|Ex]; cbn [orb].
  - subst k.
    destruct (find _ (combine (seq (S i0) (length pts)) pts)) as [ip|] eqn:Ef.
    + apply find_some in Ef as [Hin Hm]. apply Hlater in Hin.
      apply orb_true_iff in Hm as [Hm|Hm]; apply String.eqb_eq in Hm.
      * apply xName_inj in Hm. lia.
      * symmetry in Hm. now apply xName_yName in Hm.
    + rewrite String.eqb_refl. unfold setXY at 1. cbn [fst snd].
      rewrite obj_get_set_other by (intros E; symmetry in E; now apply xName_yName in E).
      apply obj_get_set_same.
  - destruct (String.eqb_spec (yName i0) k) as [Ey|Ey].
    + subst k.
      destruct (find _ (combine (seq (S i0) (length pts)) pts)) as [ip|] eqn:Ef.
      * apply find_some in Ef as [Hin Hm]. apply Hlater in Hin.
        apply orb_true_iff in Hm as [Hm|Hm]; apply String.eqb_eq in Hm.
        -- now apply xName_yName in Hm.
        -- apply yName_inj in Hm. lia.
      * unfold setXY at 1. cbn [fst snd]. apply obj_get_set_same.
    + destruct (find _ (combine (seq (S i0) (length pts)) pts)); [reflexivity|].
      unfold setXY. cbn [fst snd].
      now rewrite !obj_get_set_other.
Qed.

Lemma points_find (k : string) (p : Point.t) (pts : list Point.t) :
  forall i0 i,
    nth_error pts i = Some p ->
    k = xName (i0 + i) \/ k = yName (i0 + i) ->
    find (fun ip => String.eqb (xName (fst ip)) k
                    || String.eqb (yName (fst ip)) k)
         (combine (seq i0 (length pts)) pts) = Some ((i0 + i)%nat, p).
Proof.
  induction pts as [|q pts IH]; intros i0 j Hn Hk.
  - destruct j; discriminate.
  - cbn [length seq combine find fst].
    destruct j as [|j].
    + cbn in Hn. inversion Hn; subst q. rewrite Nat.add_0_r in *.
      destruct Hk as [->| ->].
      * now rewrite String.eqb_refl.
      * rewrite String.eqb_refl, orb_true_r. reflexivity.
    + cbn in Hn.
      replace (i0 + S j)%nat with (S i0 + j)%nat in * by lia.
      assert (Hx : String.eqb (xName i0) k = false).
      { apply String.eqb_neq. intros E. destruct Hk as [->| ->].
        - apply xName_inj in E. lia.
        - now apply xName_yName in E. }
      assert (Hy : String.eqb (yName i0) k = false).
      { apply String.eqb_neq. intros E. destruct Hk as [->| ->].
        - symmetry in E. now apply xName_yName in E.
        - apply yName_inj in E. lia. }
      rewrite Hx, Hy. cbn [orb]. now apply IH.
Qed.

Lemma points_find_none (k : string) (pts : list Point.t) (i0 : nat) :
  (forall i, (i < length pts)%nat ->
             k <> xName (i0 + i) /\ k <> yName (i0 + i)) ->
  find (fun ip => String.eqb (xName (fst ip)) k
                  || String.eqb (yName (fst ip)) k)
       (combine (seq i0 (length pts)) pts) = None.
Proof.
  intros Hk.
  destruct (find _ _) as [[i p]|] eqn:Ef; [|reflexivity].
  apply find_some in Ef as [Hin Hm]. cbn [fst] in Hm.
  apply in_combine_l in Hin. apply in_seq in Hin.
  destruct (Hk (i - i0)%nat ltac:(lia)) as [Hx Hy].
  replace (i0 + (i - i0))%nat with i in * by lia.
  apply orb_true_iff in Hm as [Hm|Hm]; apply String.eqb_eq in Hm;
    symmetry in Hm; contradiction.
Qed.

Lemma fullParams0_get (this : ModuleObj) :
  NoDup (map fst (params this)) ->
  (forall i p, nth_error (points this) i = Some p ->
     obj_get (xName i) (fullParams0 this) = Point.x p
     /\ obj_get (yName i) (fullParams0 this) = Point.y p)
  /\ obj_get "random" (fullParams0 this) = VRng
  /\ (forall k,
        k <> "random" ->
        (forall i, (i < length (points this))%nat ->
                   k <> xName i /\ k <> yName i) ->
        obj_get k (fullParams0 this) = obj_get k (params this)).
Proof.
  intros Hnd. rewrite fullParams0_eq. repeat split.
  - rewrite obj_get_set_other by (unfold xName; cbn; discriminate).
    rewrite points_get.
    rewrite (points_find (xName i) p (points this) 0 i) by (auto).
    cbn [fst snd]. now rewrite String.eqb_refl.
  - rewrite obj_get_set_other by (unfold yName; cbn; discriminate).
    rewrite points_get.
    rewrite (points_find (yName i) p (points this) 0 i) by (auto).
    cbn [fst snd].
    destruct (String.eqb_spec (xName i) (yName i)) as [E|_]; [|reflexivity].
    now apply xName_yName in E.
  - apply obj_get_set_same.
  - intros k Hr Hk.
    rewrite obj_get_set_other by congruence.
    rewrite points_get, points_find_none by (intros i Hi; now apply Hk).
    rewrite copy_get; [|assumption|reflexivity].
    destruct (obj_has k (params this)) eqn:E; [reflexivity|].
    cbn [obj_get]. clear -E.
    induction (params this) as [|[k' v] o IH]; [reflexivity|].
    cbn [obj_has obj_get] in *.
    destruct (String.eqb k' k); [discriminate|]. now apply IH.
Qed.
(** X15.  The scope [expandObjs] starts from: the coordinates of the
    control point at index [i] under [x_(i+1)] and [y_(i+1)], the random
    stream under [random], and every other name as the parameters have
    it.  A parameter called [random], [x_1], [y_1], ... is shadowed. *)
Theorem fullParams0_bindings (this : ModuleObj) :
  NoDup (map fst (params this)) ->
  (forall i p, nth_error (points this) i = Some p ->
     obj_get (xName i) (fullParams0 this) = Point.x p
     /\ obj_get (yName i) (fullParams0 this) = Point.y p)
  /\ obj_get "random" (fullParams0 this) = VRng
  /\ (forall k,
        k <> "random" ->
        (forall i, (i < length (points this))%nat ->
                   k <> xName i /\ k <> yName i) ->
        obj_get k (fullParams0 this) = obj_get k (params this)).
Proof. exact (fullParams0_get this). Qed.

End ScopeFacts.

Lemma fullParams0_bindings_witness :
  let this : @ModuleObj Toy.host :=
    {| module := "m"; moduleDef := twoPointDef;
       points := [pointAt 3 4; pointAt 5 6];
       params := [("a", fin 1); ("b", fin 4)];
       objs := []; error := None |} in
  obj_get "x_2" (fullParams0 this) = fin 5
  /\ obj_get "y_1" (fullParams0 this) = fin 4
  /\ obj_get "random" (fullParams0 this) = VRng
  /\ obj_get "b" (fullParams0 this) = fin 4.
Proof.
  intros this.
  destruct (fullParams0_bindings (H := Toy.host) this) as (Kp & Kr & Kk).
  { repeat constructor; cbn; intuition discriminate. }
  split; [|split; [|split]].
  - exact (proj1 (Kp 1%nat (pointAt 5 6) eq_refl)).
  - exact (proj2 (Kp 0%nat (pointAt 3 4) eq_refl)).
  - exact Kr.
  - apply (Kk "b"); [discriminate|].
    intros i Hi. cbn in Hi.
    destruct i as [|[|i]]; [split; discriminate|split; discriminate|lia].
Defined.

(** *** Constructor, object bar, [move] *)

Section LifecycleFacts.
Context {H : Host}.

Lemma expandObjs_frame (fuel : nat) (this this' : ModuleObj) (s s' : Rng) :
  expandObjs fuel this s = Some (Ok this', s') ->
  module this' = module this /\ moduleDef this' = moduleDef this
  /\ points this' = points this /\ params this' = params this.
Proof.
  unfold expandObjs, bind, tryCatch, ret. intros E.
  destruct (expandObject _ _ _ _ s) as [[[v|e] s1]|]; try discriminate.
  destruct (expandAndInstantiate _ _ _ s1) as [[[l|e] s2]|]; try discriminate;
    inversion E; subst; repeat split.
Qed.

(** X16.  An exception leaves [expandObjs] only from the expansion of the
    [vars] template, which runs before the [try] block: every other
    failure is stored in [error] and the call returns. *)
Theorem expandObjs_throws_from_vars (fuel : nat) (this : ModuleObj)
  (s s' : Rng) (e : exn) :
  expandObjs fuel this s = Some (Throw e, s') ->
  expandObject fuel (moduleDef this) (ModuleDef.vars (moduleDef this))
    (fullParams0 this) s = Some (Throw e, s').
Proof.
  unfold expandObjs, bind, tryCatch, ret. intros E.
  destruct (expandObject _ _ _ _ s) as [[[v|e'] s1]|]; try discriminate.
  - destruct (expandAndInstantiate _ _ _ s1) as [[[l|e'] s2]|]; discriminate.
  - now inversion E.
Qed.

Lemma defaultParams_fold (ds : list string) (s s2 : Rng) (rs : list range) :
  parsedAll ds s rs s2 ->
  forall acc,
    foldM (fun params param =>
             parsed <- parseVariableRange (VStr param) [] ;;
             ret (obj_set (name parsed) (defaultVal parsed) params))
          ds acc s
    = Some (Ok (fold_left (fun o r => obj_set (name r) (defaultVal r) o) rs acc),
            s2).
Proof.
  induction 1 as [s|d ds s s1 s2 r rs Hd _ IH]; intros acc; [reflexivity|].
  cbn [foldM fold_left]. rewrite bind_assoc_run, (bind_ok _ _ _ _ _ Hd).
  unfold bind at 1, ret at 1. apply IH.
Qed.

Lemma fold_defaults (rs : list range) :
  forall acc,
    NoDup (map fst acc ++ map name rs) ->
    fold_left (fun o r => obj_set (name r) (defaultVal r) o) rs acc
    = acc ++ map defaultOf rs.
Proof.
  induction rs as [|r rs IH]; intros acc Hnd; cbn [fold_left map].
  - now rewrite app_nil_r.
  - rewrite IH.
    + rewrite obj_set_fresh.
      * now rewrite <- app_assoc.
      * destruct (obj_has (name r) acc) eqn:E; [|reflexivity].
        apply obj_has_keys in E. cbn [map] in Hnd.
        apply NoDup_remove_2 in Hnd. exfalso. apply Hnd.
        apply in_or_app. now left.
    + rewrite obj_set_fresh.
      * rewrite map_app. cbn [map fst]. rewrite <- app_assoc. exact Hnd.
      * destruct (obj_has (name r) acc) eqn:E; [|reflexivity].
        apply obj_has_keys in E. cbn [map] in Hnd.
        apply NoDup_remove_2 in Hnd. exfalso. apply Hnd.
        apply in_or_app. now left.
Qed.

(** X17.  The defaults of a new module object: when the descriptors of
    the module parse and declare distinct names, the parameters are the
    names of the descriptors with their default values, in the order of
    the descriptors. *)
Theorem defaultParams_spec (ds : list string) (s s' : Rng) (rs : list range) :
  parsedAll ds s rs s' ->
  NoDup (map name rs) ->
  defaultParams ds s = Some (Ok (map defaultOf rs), s').
Proof.
  intros Hp Hnd. unfold defaultParams.
  rewrite (defaultParams_fold _ _ _ _ Hp). now rewrite fold_defaults.
Qed.

Lemma defaultParams_throw (pre post : list string) (d : string)
  (s s1 s2 : Rng) (rs : list range) (e : exn) :
  parsedAll pre s rs s1 ->
  parseVariableRange (VStr d) [] s1 = Some (Throw e, s2) ->
  defaultParams (pre ++ d :: post) s = Some (Throw e, s2).
Proof.
  intros Hp Hd. unfold defaultParams. rewrite foldM_app.
  rewrite (bind_ok _ _ _ _ _ (defaultParams_fold _ _ _ _ Hp [])).
  cbn [foldM]. apply bind_throw. now apply bind_throw.
Qed.

Lemma numberControls_ok (this : ModuleObj) (ds : list string) (s s' : Rng)
  (rs : list range) :
  parsedAll ds s rs s' ->
  forall bar,
    numberControls this ds bar s
    = Some (Ok tt, bar ++ map (numberOf this) rs, s').
Proof.
  induction 1 as [s|d ds s s1 s2 r rs Hd _ IH]; intros bar;
    cbn [numberControls map].
  - now rewrite app_nil_r.
  - rewrite Hd, IH, <- app_assoc. reflexivity.
Qed.

Lemma numberControls_throw (this : ModuleObj) (pre post : list string)
  (d : string) (s s1 s2 : Rng) (rs : list range) (e : exn) :
  parsedAll pre s rs s1 ->
  parseVariableRange (VStr d) [] s1 = Some (Throw e, s2) ->
  forall bar,
    numberControls this (pre ++ d :: post) bar s
    = Some (Throw e, bar ++ map (numberOf this) rs, s2).
Proof.
  induction 1 as [s|d' ds s s1 s3 r rs Hd' _ IH]; intros Hd bar;
    cbn [numberControls map app].
  - now rewrite Hd, app_nil_r.
  - rewrite Hd', (IH Hd), <- app_assoc. reflexivity.
Qed.

(** X18.  A module object the constructor returns has the module
    definition registered under its module name; the control points it
    was given, or [numPoints] points at the origin when it was given
    none; the parameters it was given, or the defaults of the
    descriptors when it was given none. *)
Theorem newModuleObj_result (fuel : nat) (modules : list (string * ModuleDef.t))
  (m : string) (pts : option (list Point.t)) (ps : option obj)
  (s s' : Rng) (this : ModuleObj) :
  newModuleObj fuel modules (Some m) pts ps s = Some (Ok (Some this), s') ->
  module this = m
  /\ lookupModule modules m = Some (moduleDef this)
  /\ points this
     = match pts with
       | Some l => l
       | None => repeat origin (ModuleDef.numPoints (moduleDef this))
       end
  /\ match ps with
     | Some p => params this = p
     | None =>
         exists s1,
           defaultParams (ModuleDef.params (moduleDef this)) s
           = Some (Ok (params this), s1)
     end.
Proof.
  unfold newModuleObj. intros E.
  destruct m as [|c m]; [discriminate|].
  destruct (lookupModule modules (String c m)) as [md|]; [|discriminate].
  destruct ps as [p|].
  - unfold bind at 1, ret at 1 in E.
    unfold bind, ret in E.
    destruct (expandObjs _ _ _) as [[[this'|e] s1]|] eqn:Ex; try discriminate.
    inversion E; subst.
    apply expandObjs_frame in Ex as (Hm & Hd & Hp & Hq). cbn in *.
    rewrite Hd. repeat split; assumption.
  - unfold bind at 1 in E.
    destruct (defaultParams (ModuleDef.params md) s) as [[[p|e] s1]|] eqn:Ed;
      try discriminate.
    unfold bind, ret in E.
    destruct (expandObjs _ _ _) as [[[this'|e] s2]|] eqn:Ex; try discriminate.
    inversion E; subst.
    apply expandObjs_frame in Ex as (Hm & Hd & Hp & Hq). cbn in *.
    rewrite Hd. repeat split; try assumption.
    exists s1. now rewrite Hq.
Qed.

(** X19.  A descriptor of the module that does not parse: the constructor
    lets the parse error escape when it has to compute the defaults,
    whereas [populateObjBar] stores the error in [error], keeps the
    number controls of the descriptors before it and still creates the
    button. *)
Theorem malformed_descriptor_handling (fuel : nat)
  (modules : list (string * ModuleDef.t)) (m : string) (md : ModuleDef.t)
  (pts : option (list Point.t)) (pre post : list string) (d : string)
  (rs : list range) (s s1 s2 : Rng) (e : exn) :
  m <> "" ->
  lookupModule modules m = Some md ->
  ModuleDef.params md = pre ++ d :: post ->
  parsedAll pre s rs s1 ->
  parseVariableRange (VStr d) [] s1 = Some (Throw e, s2) ->
  newModuleObj fuel modules (Some m) pts None s = Some (Throw e, s2)
  /\ forall this,
       moduleDef this = md ->
       populateObjBar false this s
       = Some (setError (Some e) this,
               Note (module this) :: map (numberOf this) rs ++ [Button], s2).
Proof.
  intros Hm Hl Hps Hpre Hd. split.
  - unfold newModuleObj. destruct m as [|c m]; [contradiction|].
    rewrite Hl, Hps. apply bind_throw.
    now apply (defaultParams_throw _ _ _ _ _ _ _ _ Hpre).
  - intros this Hdef. unfold populateObjBar. rewrite Hdef, Hps.
    now rewrite (numberControls_throw _ _ _ _ _ _ _ _ _ Hpre Hd).
Qed.

(** X20.  When the descriptors parse, the object bar of a placed module
    holds the note with the module name, one number control per
    descriptor in order, with the range of the descriptor and the current
    value of the parameter, and the button; the module object is not
    changed. *)
Theorem populateObjBar_controls (this : ModuleObj) (s s' : Rng)
  (rs : list range) :
  parsedAll (ModuleDef.params (moduleDef this)) s rs s' ->
  populateObjBar false this s
  = Some (this, Note (module this) :: map (numberOf this) rs ++ [Button], s').
Proof.
  intros Hp. unfold populateObjBar.
  now rewrite (numberControls_ok _ _ _ _ _ Hp).
Qed.

Lemma move_frame (fuel : nat) (diffX diffY : value)
  (this this' : ModuleObj) (s s' : Rng) :
  move fuel diffX diffY this s = Some (Ok this', s') ->
  points this' = map (movePoint diffX diffY) (points this)
  /\ params this' = params this
  /\ moduleDef this' = moduleDef this
  /\ (points this = [] -> this' = this /\ s' = s).
Proof.
  unfold move. intros E.
  destruct (points this) as [|p l] eqn:Hp.
  - inversion E; subst. rewrite Hp. repeat split.
  - apply expandObjs_frame in E as (_ & Hd & Hq & Hr). cbn in *.
    repeat split; try assumption; try discriminate.
Qed.

(** X21.  [move] translates every control point by the given offsets and
    keeps the parameters and the module definition; a module without
    control points is left exactly as it was, without a new
    expansion. *)
Theorem move_translates (fuel : nat) (diffX diffY : value)
  (this this' : ModuleObj) (s s' : Rng) :
  move fuel diffX diffY this s = Some (Ok this', s') ->
  points this' = map (movePoint diffX diffY) (points this)
  /\ params this' = params this
  /\ moduleDef this' = moduleDef this
  /\ (points this = [] -> this' = this /\ s' = s).
Proof. exact (move_frame fuel diffX diffY this this' s s'). Qed.

(** X22.  The callback of a number control: after it the parameter has
    the new value, the other parameters are unchanged, and the scope of
    the following expansions binds the name to the new value (for a name
    that is none of [random], [x_i], [y_i]). *)
Theorem setParam_seen (fuel : nat) (k : string) (v : value)
  (this this' : ModuleObj) (s s' : Rng) :
  NoDup (map fst (params this)) ->
  k <> "random" ->
  (forall i, (i < length (points this))%nat -> k <> xName i /\ k <> yName i) ->
  setParam fuel k v this s = Some (Ok this', s') ->
  obj_get k (params this') = v
  /\ obj_get k (fullParams0 this') = v
  /\ forall k', k' <> k -> obj_get k' (params this') = obj_get k' (params this).
Proof.
  intros Hnd Hr Hxy E. unfold setParam in E.
  apply expandObjs_frame in E as (_ & _ & Hp & Hq). cbn in Hp, Hq.
  assert (Hnd' : NoDup (map fst (params this'))).
  { rewrite Hq. clear -Hnd. induction (params this) as [|[k' w] o IH].
    - cbn. constructor; [intros []|constructor].
    - cbn [obj_set]. inversion Hnd as [|? ? Hk Hnd']; subst.
      destruct (String.eqb_spec k' k) as [->|Hne]; cbn [map fst].
      + now constructor.
      + constructor; [|now apply IH].
        intros Hin. apply Hk.
        assert (G : obj_has k' (obj_set k v o) = true).
        { clear -Hin. induction (obj_set k v o) as [|[a b] l IHl]; [destruct Hin|].
          cbn in *. destruct Hin as [->|Hin].
          - now rewrite String.eqb_refl.
          - destruct (String.eqb a k'); [reflexivity|now apply IHl]. }
        rewrite obj_has_set in G.
        apply String.eqb_neq in Hne. rewrite String.eqb_sym in Hne.
        rewrite Hne in G. cbn in G. now apply obj_has_keys. }
  destruct (fullParams0_get this' Hnd') as (_ & _ & Hk).
  split; [|split].
  - rewrite Hq. apply obj_get_set_same.
  - rewrite Hk; [rewrite Hq; apply obj_get_set_same|assumption|].
    rewrite Hp. exact Hxy.
  - intros k' Hne. rewrite Hq. apply obj_get_set_other. congruence.
Qed.

End LifecycleFacts.

Lemma expandObjs_throws_from_vars_witness :
  let this :=
    plainObj (H := Toy.host)
      (plainDef (VObj [("a", VStr "`q`")]) (VArr []) VUndef) [] in
  expandObject (H := Toy.host) 1 (moduleDef this)
    (ModuleDef.vars (moduleDef this)) (fullParams0 this) 0%nat
  = Some (Throw (StringExpandError "`q`" [("random", VRng)]
                   (HostError "Undefined symbol q")), 0%nat).
Proof.
  intros this.
  exact (expandObjs_throws_from_vars (H := Toy.host) 1 this 0%nat 0%nat _
           eq_refl).
Defined.

(** The descriptors of [twoPointDef] parse to their two ranges. *)
Lemma parsed_twoPointDef :
  parsedAll (H := Toy.host) (ModuleDef.params twoPointDef) 0%nat
    [{| name := "a"; start := fin 1; step := fin 1; end_ := fin 5;
        defaultVal := fin 1 |};
     {| name := "b"; start := fin 0; step := fin 1; end_ := fin 9;
        defaultVal := fin 4 |}] 0%nat.
Proof.
  apply (parsedAll_cons (H := Toy.host) _ _ 0%nat 0%nat 0%nat); [reflexivity|].
  apply (parsedAll_cons (H := Toy.host) _ _ 0%nat 0%nat 0%nat); [reflexivity|].
  constructor.
Defined.

Lemma defaultParams_spec_witness :
  defaultParams (H := Toy.host) (ModuleDef.params twoPointDef) 0%nat
  = Some (Ok [("a", fin 1); ("b", fin 4)], 0%nat).
Proof.
  apply (defaultParams_spec (H := Toy.host) _ 0%nat 0%nat _ parsed_twoPointDef).
  repeat constructor; cbn; intuition discriminate.
Defined.

Lemma newModuleObj_result_witness :
  let this : @ModuleObj Toy.host :=
    {| module := "m"; moduleDef := twoPointDef;
       points := [origin; origin];
       params := [("a", fin 1); ("b", fin 4)];
       objs := [(("Mirror", VObj [("type", VStr "Mirror"); ("x", fin 1)])
                 : @SceneObj Toy.host)];
       error := None |} in
  module this = "m"
  /\ lookupModule [("m", twoPointDef)] "m" = Some (moduleDef this)
  /\ points this = repeat origin (ModuleDef.numPoints (moduleDef this))
  /\ exists s1,
       defaultParams (H := Toy.host) (ModuleDef.params (moduleDef this)) 0%nat
       = Some (Ok (params this), s1).
Proof.
  intros this.
  exact (newModuleObj_result (H := Toy.host) 1 [("m", twoPointDef)] "m"
           None None 0%nat 0%nat this eq_refl).
Defined.

Lemma malformed_descriptor_handling_witness :
  let e := RangeParseError (VStr "oops") [] (TypeError "parts[1] is undefined") in
  let this := placing (H := Toy.host) "m" brokenDef [] [] in
  newModuleObj (H := Toy.host) 1 [("m", brokenDef)] (Some "m") None None 0%nat
  = Some (Throw e, 0%nat)
  /\ populateObjBar (H := Toy.host) false this 0%nat
     = Some (setError (Some e) this,
             [Note "m"; Number "a" (fin 1) (fin 5) (fin 1) VUndef; Button],
             0%nat).
Proof.
  intros e this.
  destruct (malformed_descriptor_handling (H := Toy.host) 1 [("m", brokenDef)] "m"
              brokenDef None ["a=1:1:5"] ["b=0:1:9:4"] "oops"
              [{| name := "a"; start := fin 1; step := fin 1; end_ := fin 5;
                  defaultVal := fin 1 |}]
              0%nat 0%nat 0%nat e) as [K1 K2]; try reflexivity.
  - discriminate.
  - apply (parsedAll_cons (H := Toy.host) _ _ 0%nat 0%nat 0%nat);
      [reflexivity|constructor].
  - split; [exact K1|]. exact (K2 this eq_refl).
Defined.

Lemma populateObjBar_controls_witness :
  let this : @ModuleObj Toy.host :=
    {| module := "m"; moduleDef := twoPointDef;
       points := [origin; origin];
       params := [("a", fin 2); ("b", fin 4)];
       objs := []; error := None |} in
  populateObjBar (H := Toy.host) false this 0%nat
  = Some (this,
          [Note "m"; Number "a" (fin 1) (fin 5) (fin 1) (fin 2);
           Number "b" (fin 0) (fin 9) (fin 1) (fin 4); Button], 0%nat).
Proof.
  intros this.
  exact (populateObjBar_controls (H := Toy.host) this 0%nat 0%nat _
           parsed_twoPointDef).
Defined.

Lemma move_translates_witness :
  let this : @ModuleObj Toy.host :=
    {| module := "m"; moduleDef := twoPointDef;
       points := [pointAt 3 4; pointAt 5 6];
       params := [("a", fin 1); ("b", fin 4)];
       objs := []; error := None |} in
  let this' : @ModuleObj Toy.host :=
    {| module := "m"; moduleDef := twoPointDef;
       points := [pointAt 13 24; pointAt 15 26];
       params := [("a", fin 1); ("b", fin 4)];
       objs := [(("Mirror", VObj [("type", VStr "Mirror"); ("x", fin 14)])
                 : @SceneObj Toy.host)];
       error := None |} in
  move (H := Toy.host) 1 (fin 10) (fin 20) this 0%nat = Some (Ok this', 0%nat)
  /\ points this' = map (movePoint (H := Toy.host) (fin 10) (fin 20)) (points this)
  /\ params this' = params this.
Proof.
  intros this this'.
  assert (E : move (H := Toy.host) 1 (fin 10) (fin 20) this 0%nat
              = Some (Ok this', 0%nat)) by reflexivity.
  destruct (move_translates (H := Toy.host) 1 (fin 10) (fin 20) this this'
              0%nat 0%nat E) as (K1 & K2 & _).
  split; [exact E|]. split; [exact K1|exact K2].
Defined.

Lemma setParam_seen_witness :
  let this : @ModuleObj Toy.host :=
    {| module := "m"; moduleDef := twoPointDef;
       points := [pointAt 3 4; pointAt 5 6];
       params := [("a", fin 1); ("b", fin 4)];
       objs := []; error := None |} in
  let this' : @ModuleObj Toy.host :=
    {| module := "m"; moduleDef := twoPointDef;
       points := [pointAt 3 4; pointAt 5 6];
       params := [("a", fin 3); ("b", fin 4)];
       objs := [(("Mirror", VObj [("type", VStr "Mirror"); ("x", fin 6)])
                 : @SceneObj Toy.host)];
       error := None |} in
  setParam (H := Toy.host) 1 "a" (fin 3) this 0%nat = Some (Ok this', 0%nat)
  /\ obj_get "a" (fullParams0 this') = fin 3.
Proof.
  intros this this'.
  assert (E : setParam (H := Toy.host) 1 "a" (fin 3) this 0%nat
              = Some (Ok this', 0%nat)) by reflexivity.
  split; [exact E|].
  apply (setParam_seen (H := Toy.host) 1 "a" (fin 3) this this' 0%nat 0%nat).
  - repeat constructor; cbn; intuition discriminate.
  - discriminate.
  - intros i Hi. cbn in Hi.
    destruct i as [|[|i]]; [split; discriminate|split; discriminate|lia].
  - exact E.
Defined.

(** *** Placement by clicks *)

Section PlacementFacts.
Context {H : Host}.

Lemma click_continues (fuel : nat) (modules : list (string * ModuleDef.t))
  (name : string) (md : ModuleDef.t) (ps : obj) (pts : list Point.t)
  (click : Point.t) (s : Rng) :
  onConstructMouseDown fuel modules name
    {| built := Some (placing name md ps pts); notDone := true |} click s
  = if (length pts <? ModuleDef.numPoints md)%nat
    then
      if (S (length pts) =? ModuleDef.numPoints md)%nat
      then bind (expandObjs fuel (placing name md ps (pts ++ [clicked click])))
                placed s
      else Some (Ok ({| built := Some (placing name md ps (pts ++ [clicked click]));
                        notDone := true |}, false), s)
    else
      if (length pts =? ModuleDef.numPoints md)%nat
      then bind (expandObjs fuel (placing name md ps pts)) placed s
      else Some (Ok ({| built := Some (placing name md ps pts);
                        notDone := true |}, false), s).
Proof.
  unfold onConstructMouseDown. cbn [notDone built].
  rewrite (bind_ok _ _ s (placing name md ps pts) s eq_refl).
  cbn [placing points moduleDef].
  destruct (length pts <? ModuleDef.numPoints md)%nat eqn:Hlt.
  - cbn [setPoints points]. rewrite length_app. cbn [length].
    rewrite Nat.add_1_r.
    destruct (S (length pts) =? ModuleDef.numPoints md)%nat; reflexivity.
  - change (points (placing name md ps pts)) with pts.
    destruct (length pts =? ModuleDef.numPoints md)%nat; reflexivity.
Qed.

Lemma click_starts (fuel : nat) (modules : list (string * ModuleDef.t))
  (name : string) (md : ModuleDef.t) (ps : obj) (click : Point.t)
  (s s1 : Rng) :
  lookupModule modules name = Some md ->
  defaultParams (ModuleDef.params md) s = Some (Ok ps, s1) ->
  onConstructMouseDown fuel modules name blank click s
  = onConstructMouseDown fuel modules name
      {| built := Some (placing name md ps []); notDone := true |} click s1.
Proof.
  intros Hl Hd. unfold onConstructMouseDown. cbn [notDone built blank].
  rewrite Hl. rewrite !bind_assoc_run. rewrite (bind_ok _ _ _ _ _ Hd).
  reflexivity.
Qed.

Lemma constructByClicks_continues (fuel : nat) (modules : list (string * ModuleDef.t))
  (name : string) (md : ModuleDef.t) (ps : obj) (clicks : list Point.t) :
  forall (pts : list Point.t) (click : Point.t) (s : Rng),
    (length pts + S (length clicks))%nat = ModuleDef.numPoints md ->
    constructByClicks fuel modules name
      {| built := Some (placing name md ps pts); notDone := true |}
      click clicks s
    = bind (expandObjs fuel
              (placing name md ps (pts ++ map clicked (click :: clicks))))
           placed s.
Proof.
  induction clicks as [|click' clicks IH]; intros pts click s Hn;
    cbn [constructByClicks].
  - cbn [length] in Hn.
    unfold bind at 1.
    rewrite click_continues.
    assert (Hlt : (length pts <? ModuleDef.numPoints md)%nat = true)
      by (apply Nat.ltb_lt; lia).
    assert (Heq : (S (length pts) =? ModuleDef.numPoints md)%nat = true)
      by (apply Nat.eqb_eq; lia).
    rewrite Hlt, Heq. cbn [map]. unfold bind.
    destruct (expandObjs _ _ s) as [[[t|e] s']|]; reflexivity.
  - cbn [length] in Hn.
    unfold bind at 1. rewrite click_continues.
    assert (Hlt : (length pts <? ModuleDef.numPoints md)%nat = true)
      by (apply Nat.ltb_lt; lia).
    assert (Heq : (S (length pts) =? ModuleDef.numPoints md)%nat = false)
      by (apply Nat.eqb_neq; lia).
    rewrite Hlt, Heq. cbn [fst].
    rewrite IH by (rewrite length_app; cbn [length]; lia).
    cbn [map]. now rewrite <- app_assoc.
Qed.

Lemma placement_complete (fuel : nat) (modules : list (string * ModuleDef.t))
  (name : string) (md : ModuleDef.t) (ps : obj) (click : Point.t)
  (clicks : list Point.t) (s s1 : Rng) :
  lookupModule modules name = Some md ->
  defaultParams (ModuleDef.params md) s = Some (Ok ps, s1) ->
  S (length clicks) = ModuleDef.numPoints md ->
  constructByClicks fuel modules name blank click clicks s
  = bind (expandObjs fuel (placing name md ps (map clicked (click :: clicks))))
         placed s1.
Proof.
  intros Hl Hd Hn.
  change (map clicked (click :: clicks))
    with ([] ++ map clicked (click :: clicks)).
  rewrite <- (constructByClicks_continues fuel modules name md ps clicks [] click s1)
    by exact Hn.
  destruct clicks as [|click' clicks]; cbn [constructByClicks]; unfold bind at 1;
    rewrite (click_starts _ _ _ _ _ _ _ _ Hl Hd); reflexivity.
Qed.

Lemma placement_unfinished (fuel : nat)
  (modules : list (string * ModuleDef.t))
  (name : string) (md : ModuleDef.t) (ps : obj) (click : Point.t)
  (clicks : list Point.t) (s s1 : Rng) :
  lookupModule modules name = Some md ->
  defaultParams (ModuleDef.params md) s = Some (Ok ps, s1) ->
  (S (length clicks) < ModuleDef.numPoints md)%nat ->
  let b := {| built := Some (placing name md ps (map clicked (click :: clicks)));
              notDone := true |} in
  constructByClicks fuel modules name blank click clicks s = Some (Ok (b, false), s1)
  /\ onConstructMouseUp b s1 = Some (Ok false, s1).
Proof.
  intros Hl Hd Hn b. split.
  - assert (G : forall clicks pts click s,
               (length pts + S (length clicks) < ModuleDef.numPoints md)%nat ->
               constructByClicks fuel modules name
                 {| built := Some (placing name md ps pts); notDone := true |}
                 click clicks s
               = Some (Ok ({| built := Some (placing name md ps
                                 (pts ++ map clicked (click :: clicks)));
                              notDone := true |}, false), s)).
    { clear. induction clicks as [|click' clicks IH]; intros pts click s Hn;
        cbn [constructByClicks length] in *; unfold bind at 1;
        rewrite click_continues;
        assert (Hlt : (length pts <? ModuleDef.numPoints md)%nat = true)
          by (apply Nat.ltb_lt; lia);
        assert (Heq : (S (length pts) =? ModuleDef.numPoints md)%nat = false)
          by (apply Nat.eqb_neq; lia);
        rewrite Hlt, Heq.
      - reflexivity.
      - cbn [fst]. rewrite IH by (rewrite length_app; cbn [length]; lia).
        cbn [map]. now rewrite <- app_assoc. }
    unfold b. change (map clicked (click :: clicks))
      with ([] ++ map clicked (click :: clicks)).
    rewrite <- (G clicks [] click s1) by exact Hn.
    destruct clicks as [|click' clicks]; cbn [constructByClicks]; unfold bind at 1;
      rewrite (click_starts _ _ _ _ _ _ _ _ Hl Hd); reflexivity.
  - unfold onConstructMouseUp, b. cbn [built placing points moduleDef].
    rewrite length_map. cbn [length].
    assert (E : (S (length clicks) =? ModuleDef.numPoints md)%nat = false)
      by (apply Nat.eqb_neq; lia).
    now rewrite E.
Qed.

Lemma placement_no_points (fuel : nat)
  (modules : list (string * ModuleDef.t))
  (name : string) (md : ModuleDef.t) (ps : obj) (click : Point.t)
  (s s1 : Rng) :
  lookupModule modules name = Some md ->
  defaultParams (ModuleDef.params md) s = Some (Ok ps, s1) ->
  ModuleDef.numPoints md = 0%nat ->
  onConstructMouseDown fuel modules name blank click s
  = bind (expandObjs fuel (placing name md ps [])) placed s1.
Proof.
  intros Hl Hd Hn. rewrite (click_starts _ _ _ _ _ _ _ _ Hl Hd).
  rewrite click_continues. cbn [length]. rewrite Hn. reflexivity.
Qed.

(** X23.  Placing a module by clicks, from a module object without
    module.  Before the last control point the object holds the points
    clicked so far, is not done, has not been expanded, and
    [onConstructMouseUp] does not report it done.  The click that adds
    the last of the [numPoints] points expands the module once, with the
    clicked points in order, and asks for an update of the object bar.  A
    module without control points is completed by the first click, whose
    position is not recorded. *)
Theorem placement_by_clicks (fuel : nat) (modules : list (string * ModuleDef.t))
  (name : string) (md : ModuleDef.t) (ps : obj) (click : Point.t)
  (clicks : list Point.t) (s s1 : Rng) :
  lookupModule modules name = Some md ->
  defaultParams (ModuleDef.params md) s = Some (Ok ps, s1) ->
  let pts := map clicked (click :: clicks) in
  let b := {| built := Some (placing name md ps pts); notDone := true |} in
  ((S (length clicks) < ModuleDef.numPoints md)%nat ->
   constructByClicks fuel modules name blank click clicks s
   = Some (Ok (b, false), s1)
   /\ onConstructMouseUp b s1 = Some (Ok false, s1))
  /\ (S (length clicks) = ModuleDef.numPoints md ->
      constructByClicks fuel modules name blank click clicks s
      = bind (expandObjs fuel (placing name md ps pts)) placed s1)
  /\ (ModuleDef.numPoints md = 0%nat ->
      onConstructMouseDown fuel modules name blank click s
      = bind (expandObjs fuel (placing name md ps [])) placed s1).
Proof.
  intros Hl Hd pts b. split; [|split].
  - intros Hn. now apply placement_unfinished.
  - intros Hn. now apply placement_complete.
  - intros Hn. now apply placement_no_points.
Qed.

End PlacementFacts.

Lemma placement_by_clicks_witness :
  let modules := [("m", twoPointDef)] in
  let ps := [("a", fin 1); ("b", fin 4)] in
  constructByClicks (H := Toy.host) 1 modules "m" blank (pointAt 3 4) [] 0%nat
  = Some (Ok ({| built := Some (placing (H := Toy.host) "m" twoPointDef ps
                                  [pointAt 3 4]);
                 notDone := true |}, false), 0%nat)
  /\ constructByClicks (H := Toy.host) 1 modules "m" blank (pointAt 3 4)
       [pointAt 5 6] 0%nat
     = bind (H := Toy.host)
         (expandObjs 1 (placing "m" twoPointDef ps [pointAt 3 4; pointAt 5 6]))
         placed 0%nat.
Proof.
  intros modules ps. split.
  - apply (proj1 (placement_by_clicks (H := Toy.host) 1 modules "m" twoPointDef ps
                    (pointAt 3 4) [] 0%nat 0%nat eq_refl eq_refl)).
    cbn. lia.
  - apply (proj1 (proj2 (placement_by_clicks (H := Toy.host) 1 modules "m" twoPointDef ps
                           (pointAt 3 4) [pointAt 5 6] 0%nat 0%nat
                           eq_refl eq_refl))).
    reflexivity.
Defined.

(** *** Dragging *)

Section DragFacts.
Context {H : Host}.

Lemma replaceAt_same (p : Point.t) (l : list Point.t) :
  forall i, (i < length l)%nat -> nth_error (replaceAt i p l) i = Some p.
Proof.
  induction l as [|q l IH]; intros i Hi; [cbn in Hi; lia|].
  destruct i as [|i]; [reflexivity|]. cbn. apply IH. cbn in Hi. lia.
Qed.

Lemma replaceAt_other (p : Point.t) (l : list Point.t) :
  forall i j, j <> i -> nth_error (replaceAt i p l) j = nth_error l j.
Proof.
  induction l as [|q l IH]; intros i j Hne; [now destruct i|].
  destruct i as [|i], j as [|j]; try reflexivity; [contradiction|].
  cbn. apply IH. lia.
Qed.

(** X24.  A drag event keeps the parameters and the module definition.
    On a control point it puts that point, and no other, at the mouse
    position and leaves the drag context as it is.  On the whole module
    it translates every control point by the displacement of the mouse
    since the last event and records the new position in the drag
    context.  Any other drag context changes neither. *)
Theorem onDrag_moves (fuel : nat) (shift : bool) (posGrid posDirection : Point.t)
  (dragContext dragContext' : DragContext.t) (this this' : ModuleObj)
  (s s' : Rng) :
  onDrag fuel shift posGrid posDirection dragContext this s
  = Some (Ok (this', dragContext'), s') ->
  let snapped := if shift then posDirection else posGrid in
  params this' = params this /\ moduleDef this' = moduleDef this
  /\ (DragContext.part dragContext = 1%Z ->
      exists i,
        DragContext.index dragContext = Some i /\ (i < length (points this))%nat
        /\ dragContext' = dragContext
        /\ nth_error (points this') i = Some (clicked posGrid)
        /\ forall j, j <> i ->
                     nth_error (points this') j = nth_error (points this) j)
  /\ (DragContext.part dragContext = 0%Z ->
      exists mousePos1,
        DragContext.mousePos1 dragContext = Some mousePos1
        /\ dragContext' = setMousePos1 snapped dragContext
        /\ points this'
           = map (movePoint (js_sub (Point.x snapped) (Point.x mousePos1))
                            (js_sub (Point.y snapped) (Point.y mousePos1)))
                 (points this))
  /\ (DragContext.part dragContext <> 1%Z ->
      DragContext.part dragContext <> 0%Z ->
      dragContext' = dragContext /\ points this' = points this).
Proof.
  intros E snapped. unfold onDrag in E.
  destruct (DragContext.part dragContext =? 1)%Z eqn:P1.
  - apply Z.eqb_eq in P1.
    assert (P0 : (DragContext.part dragContext =? 0)%Z = false)
      by (apply Z.eqb_neq; lia).
    rewrite P0 in E.
    destruct (DragContext.index dragContext) as [i|] eqn:Ei;
      [|discriminate].
    destruct (nth_error (points this) i) as [p|] eqn:En; [|discriminate].
    unfold bind at 1 2, ret at 1 2 in E. cbn [fst snd] in E.
    unfold bind, ret in E.
    destruct (expandObjs _ _ _) as [[[t|e] s1]|] eqn:Ex; try discriminate.
    inversion E; subst t dragContext' s1.
    apply expandObjs_frame in Ex as (_ & Hd & Hp & Hq). cbn in Hd, Hp, Hq.
    assert (Hi : (i < length (points this))%nat)
      by (apply nth_error_Some; congruence).
    split; [exact Hq|]. split; [exact Hd|]. split; [|split].
    + intros _. exists i. repeat split; try assumption.
      * rewrite Hp. now apply replaceAt_same.
      * intros j Hj. rewrite Hp. now apply replaceAt_other.
    + intros K. lia.
    + intros K. contradiction.
  - apply Z.eqb_neq in P1.
    unfold bind at 1, ret at 1 in E.
    destruct (DragContext.part dragContext =? 0)%Z eqn:P0.
    + apply Z.eqb_eq in P0.
      destruct (DragContext.mousePos1 dragContext) as [m1|] eqn:Em;
        [|discriminate].
      fold snapped in E.
      rewrite bind_assoc_run in E. unfold bind at 1 in E.
      destruct (move _ _ _ _ _) as [[[t1|e] s1]|] eqn:Emv; try discriminate.
      unfold bind at 1, ret at 1 in E. cbn [fst snd] in E.
      unfold bind, ret in E.
      destruct (expandObjs _ _ _) as [[[t|e] s2]|] eqn:Ex; try discriminate.
      inversion E; subst t dragContext' s2.
      apply expandObjs_frame in Ex as (_ & Hd & Hp & Hq).
      apply move_frame in Emv as (Mp & Mq & Md & _).
      split; [congruence|]. split; [congruence|]. split; [|split].
      * intros K. contradiction.
      * intros _. exists m1. repeat split. congruence.
      * intros _ K. contradiction.
    + apply Z.eqb_neq in P0.
      unfold bind at 1, ret at 1 in E. cbn [fst snd] in E.
      unfold bind, ret in E.
      destruct (expandObjs _ _ _) as [[[t|e] s2]|] eqn:Ex; try discriminate.
      inversion E; subst t dragContext' s2.
      apply expandObjs_frame in Ex as (_ & Hd & Hp & Hq).
      split; [exact Hq|]. split; [exact Hd|]. split; [|split].
      * intros K. contradiction.
      * intros K. contradiction.
      * intros _ _. split; [reflexivity|exact Hp].
Qed.

(** X25.  Dragging a module with control points as a whole expands it
    twice per drag event: once in [move], on the translated points, and
    once more at the end of [onDrag]. *)
Theorem onDrag_expands_twice (fuel : nat) (shift : bool) (posGrid posDirection : Point.t)
  (dragContext : DragContext.t) (this : ModuleObj) (mousePos1 : Point.t)
  (s : Rng) :
  DragContext.part dragContext = 0%Z ->
  DragContext.mousePos1 dragContext = Some mousePos1 ->
  points this <> [] ->
  let snapped := if shift then posDirection else posGrid in
  onDrag fuel shift posGrid posDirection dragContext this s
  = (this1 <-
       expandObjs fuel
         (setPoints
            (map (movePoint (js_sub (Point.x snapped) (Point.x mousePos1))
                            (js_sub (Point.y snapped) (Point.y mousePos1)))
                 (points this))
            this) ;;
     this2 <- expandObjs fuel this1 ;;
     ret (this2, setMousePos1 snapped dragContext)) s.
Proof.
  intros P0 Em Hne snapped. unfold onDrag. rewrite P0, Em. cbn [Z.eqb].
  unfold bind at 1, ret at 1. fold snapped.
  rewrite bind_assoc_run.
  unfold move. destruct (points this) as [|p l] eqn:Hp; [contradiction|].
  unfold bind, ret.
  destruct (expandObjs _ _ s) as [[[t1|e] s1]|]; reflexivity.
Qed.

End DragFacts.

Lemma onDrag_moves_witness :
  let this : @ModuleObj Toy.host :=
    {| module := "m"; moduleDef := twoPointDef;
       points := [pointAt 3 4; pointAt 5 6];
       params := [("a", fin 1); ("b", fin 4)];
       objs := []; error := None |} in
  let this' : @ModuleObj Toy.host :=
    {| module := "m"; moduleDef := twoPointDef;
       points := [pointAt 3 4; pointAt 7 8];
       params := [("a", fin 1); ("b", fin 4)];
       objs := [(("Mirror", VObj [("type", VStr "Mirror"); ("x", fin 4)])
                 : @SceneObj Toy.host)];
       error := None |} in
  let dragContext := onControlPoint 1 (pointAt 5 6) in
  onDrag (H := Toy.host) 1 false (pointAt 7 8) origin dragContext this 0%nat
  = Some (Ok (this', dragContext), 0%nat)
  /\ exists i,
       DragContext.index dragContext = Some i /\ (i < length (points this))%nat
       /\ dragContext = dragContext
       /\ nth_error (points this') i = Some (clicked (pointAt 7 8))
       /\ forall j, j <> i ->
                    nth_error (points this') j = nth_error (points this) j.
Proof.
  intros this this' dragContext.
  assert (E : onDrag (H := Toy.host) 1 false (pointAt 7 8) origin dragContext
                this 0%nat
              = Some (Ok (this', dragContext), 0%nat)) by reflexivity.
  split; [exact E|].
  destruct (onDrag_moves (H := Toy.host) 1 false (pointAt 7 8) origin
              dragContext dragContext this this' 0%nat 0%nat E)
    as (_ & _ & K & _).
  exact (K eq_refl).
Defined.

Lemma onDrag_expands_twice_witness :
  let this : @ModuleObj Toy.host :=
    {| module := "m"; moduleDef := randomAngleDef; points := [pointAt 0 0];
       params := []; objs := []; error := None |} in
  let this' : @ModuleObj Toy.host :=
    {| module := "m"; moduleDef := randomAngleDef; points := [pointAt 1 2];
       params := [];
       objs := [(("Mirror", VObj [("type", VStr "Mirror"); ("angle", fin 1)])
                 : @SceneObj Toy.host)];
       error := None |} in
  let dragContext := wholeModule (pointAt 0 0) in
  onDrag (H := Toy.host) 1 false (pointAt 1 2) origin dragContext this 0%nat
  = Some (Ok (this', setMousePos1 (pointAt 1 2) dragContext), 2%nat).
Proof.
  intros this this' dragContext.
  refine (eq_trans
            (onDrag_expands_twice (H := Toy.host) 1 false (pointAt 1 2) origin
               dragContext this (pointAt 0 0) 0%nat eq_refl eq_refl _)
            eq_refl).
  discriminate.
Defined.

(** *** Errors and warnings of the expanded objects *)

Section ReportFacts.
Context {H : Host}.
Variable objError : SceneObj -> option string.
Variable objWarning : SceneObj -> option string.
Variable objType : SceneObj -> string.

Lemma reportLines_spec (answer : SceneObj -> option string)
  (l : list SceneObj) :
  forall (i0 : nat) (line : string),
    In line (reportLines objType answer l i0)
    <-> exists j o msg,
          nth_error l j = Some o /\ answer o = Some msg
          /\ silent (Some msg) = false
          /\ line = reportLine objType (i0 + j) o msg.
Proof.
  induction l as [|o l IH]; intros i0 line; cbn [reportLines].
  - split; [intros []|]. intros (j & o & msg & Hn & _). destruct j; discriminate.
  - assert (Hrest :
        In line (reportLines objType answer l (S i0))
        <-> exists j o' msg,
              nth_error (o :: l) (S j) = Some o' /\ answer o' = Some msg
              /\ silent (Some msg) = false
              /\ line = reportLine objType (i0 + S j) o' msg).
    { rewrite IH. split; intros (j & o' & msg & Hn & Ha & Hs & Hl);
        exists j, o', msg; repeat split; try assumption;
        rewrite Hl; f_equal; lia. }
    destruct (answer o) as [[|c msg]|] eqn:Ea.
    + rewrite Hrest. split.
      * intros (j & o' & m & Hn & K). now exists (S j), o', m.
      * intros (j & o' & m & Hn & Ha & Hs & Hl). destruct j as [|j].
        -- cbn in Hn. inversion Hn; subst o'. rewrite Ea in Ha.
           inversion Ha; subst m. discriminate.
        -- now exists j, o', m.
    + cbn [In]. rewrite Hrest. split.
      * intros [E|(j & o' & m & Hn & K)].
        -- exists 0%nat, o, (String c msg). rewrite Nat.add_0_r.
           repeat split; [assumption|]. now rewrite <- E.
        -- now exists (S j), o', m.
      * intros (j & o' & m & Hn & Ha & Hs & Hl). destruct j as [|j].
        -- cbn in Hn. inversion Hn; subst o'. rewrite Ea in Ha.
           inversion Ha; subst m. left. rewrite Hl, Nat.add_0_r. reflexivity.
        -- right. now exists j, o', m.
    + rewrite Hrest. split.
      * intros (j & o' & m & Hn & K). now exists (S j), o', m.
      * intros (j & o' & m & Hn & Ha & Hs & Hl). destruct j as [|j].
        -- cbn in Hn. inversion Hn; subst o'. rewrite Ea in Ha. discriminate.
        -- now exists j, o', m.
Qed.

Lemma reportLines_length (answer : SceneObj -> option string)
  (l : list SceneObj) :
  forall i0,
    length (reportLines objType answer l i0)
    = length (filter (fun o => negb (silent (answer o))) l).
Proof.
  induction l as [|o l IH]; intros i0; [reflexivity|].
  cbn [reportLines filter].
  destruct (answer o) as [[|c msg]|]; cbn [silent negb length]; now rewrite IH.
Qed.

Lemma reportLines_nil (answer : SceneObj -> option string)
  (l : list SceneObj) (i0 : nat) :
  reportLines objType answer l i0 = []
  <-> forall o, In o l -> silent (answer o) = true.
Proof.
  rewrite <- length_zero_iff_nil, reportLines_length, length_zero_iff_nil.
  induction l as [|o l IH]; cbn [filter In].
  - split; [intros _ o []|reflexivity].
  - destruct (silent (answer o)) eqn:E; cbn [negb].
    + rewrite IH. split.
      * intros K o' [<-|Hin]; [assumption|now apply K].
      * intros K o' Hin. apply K. now right.
    + split; [discriminate|]. intros K.
      rewrite (K o (or_introl eq_refl)) in E. discriminate.
Qed.

Lemma getError_spec (this : ModuleObj) :
  (forall e, error this = Some e ->
             getError objError objType this = Some (inl e))
  /\ (getError objError objType this = None
      <-> error this = None
          /\ forall o, In o (objs this) -> silent (objError o) = true)
  /\ (forall text,
        getError objError objType this = Some (inr text) ->
        exists lines,
          text = inExpandedObjects lines
          /\ length lines
             = length (filter (fun o => negb (silent (objError o))) (objs this))
          /\ forall line,
               In line lines
               <-> exists i o msg,
                     nth_error (objs this) i = Some o
                     /\ objError o = Some msg /\ silent (Some msg) = false
                     /\ line = reportLine objType i o msg).
Proof.
  unfold getError. split; [|split].
  - intros e ->. reflexivity.
  - destruct (error this) as [e|].
    + split; [discriminate|]. intros [E _]. discriminate.
    + rewrite <- (reportLines_nil objError (objs this) 0).
      destruct (reportLines objType objError (objs this) 0).
      * split; [now split|reflexivity].
      * split; [discriminate|]. intros [_ E]. discriminate.
  - intros text. destruct (error this) as [e|]; [discriminate|].
    destruct (reportLines objType objError (objs this) 0) as [|l0 ls] eqn:E;
      [discriminate|].
    intros E'. inversion E'; subst text. exists (l0 :: ls). rewrite <- E.
    split; [reflexivity|]. split; [apply reportLines_length|].
    intros line. apply (reportLines_spec objError (objs this) 0).
Qed.

Lemma getWarning_spec (this : ModuleObj) :
  (getWarning objWarning objType this = None
   <-> forall o, In o (objs this) -> silent (objWarning o) = true)
  /\ (forall text,
        getWarning objWarning objType this = Some text ->
        exists lines,
          text = inExpandedObjects lines
          /\ length lines
             = length (filter (fun o => negb (silent (objWarning o)))
                              (objs this))
          /\ forall line,
               In line lines
               <-> exists i o msg,
                     nth_error (objs this) i = Some o
                     /\ objWarning o = Some msg /\ silent (Some msg) = false
                     /\ line = reportLine objType i o msg).
Proof.
  unfold getWarning. split.
  - rewrite <- (reportLines_nil objWarning (objs this) 0).
    destruct (reportLines objType objWarning (objs this) 0).
    + split; reflexivity.
    + split; discriminate.
  - intros text.
    destruct (reportLines objType objWarning (objs this) 0) as [|l0 ls] eqn:E;
      [discriminate|].
    intros E'. inversion E'; subst text. exists (l0 :: ls). rewrite <- E.
    split; [reflexivity|]. split; [apply reportLines_length|].
    intros line. apply (reportLines_spec objWarning (objs this) 0).
Qed.
(** X26.  [getError] returns an error of the module itself alone,
    whatever the expanded objects report.  [getError] returns [null]
    exactly when the module has no error and every expanded object's
    [getError] is silent; [getWarning] returns [null] exactly when every
    expanded object's [getWarning] is silent.  Otherwise the report of
    [getError] has one line per expanded object whose [getError] is not
    silent, carrying the index of the object among all the expanded
    objects, its type and that error; the report of [getWarning] is made
    in the same way from the objects whose [getWarning] is not silent and
    from their warnings. *)
Theorem reports_of_expanded_objects (this : ModuleObj) :
  (forall e, error this = Some e ->
             getError objError objType this = Some (inl e))
  /\ (getError objError objType this = None
      <-> error this = None
          /\ forall o, In o (objs this) -> silent (objError o) = true)
  /\ (forall text,
        getError objError objType this = Some (inr text) ->
        exists lines,
          text = inExpandedObjects lines
          /\ length lines
             = length (filter (fun o => negb (silent (objError o))) (objs this))
          /\ forall line,
               In line lines
               <-> exists i o msg,
                     nth_error (objs this) i = Some o
                     /\ objError o = Some msg /\ silent (Some msg) = false
                     /\ line = reportLine objType i o msg)
  /\ (getWarning objWarning objType this = None
      <-> forall o, In o (objs this) -> silent (objWarning o) = true)
  /\ (forall text,
        getWarning objWarning objType this = Some text ->
        exists lines,
          text = inExpandedObjects lines
          /\ length lines
             = length (filter (fun o => negb (silent (objWarning o)))
                              (objs this))
          /\ forall line,
               In line lines
               <-> exists i o msg,
                     nth_error (objs this) i = Some o
                     /\ objWarning o = Some msg /\ silent (Some msg) = false
                     /\ line = reportLine objType i o msg).
Proof.
  destruct (getError_spec this) as (E1 & E2 & E3).
  destruct (getWarning_spec this) as (W1 & W2).
  exact (conj E1 (conj E2 (conj E3 (conj W1 W2)))).
Qed.

End ReportFacts.

Lemma num_le_refl (a : num) : a <> NaN -> le a a = true.
Proof.
  destruct a as [q| | |]; try reflexivity; [|contradiction].
  intros _. cbn. apply Qle_bool_iff, Qle_refl.
Qed.

Lemma num_le_trans (a b c : num) : le a b = true -> le b c = true -> le a c = true.
Proof.
  destruct a as [x| | |], b as [y| | |], c as [z| | |]; cbn;
    try reflexivity; try discriminate.
  rewrite !Qle_bool_iff. apply Qle_trans.
Qed.

Lemma num_le_total (a b : num) :
  a <> NaN -> b <> NaN -> le a b = false -> le b a = true.
Proof.
  destruct a as [x| | |], b as [y| | |]; cbn;
    try reflexivity; try discriminate; try contradiction.
  intros _ _ E. apply Qle_bool_iff.
  destruct (Qlt_le_dec y x) as [L|L]; [now apply Qlt_le_weak|].
  apply Qle_bool_iff in L. rewrite L in E. discriminate.
Qed.

Lemma num_le_PInf (a : num) : a <> NaN -> le a PInf = true.
Proof. destruct a; try reflexivity. contradiction. Qed.

(** *** What the mouse is over *)

Section MouseOverFacts.
Context {H : Host}.
Variable isOnPoint : Point.t -> bool.
Variable distanceSquared : Point.t -> num.
Variable mousePos : Point.t.
Variable objCheckMouseOver : SceneObj -> option bool.

Lemma nearestPoint_spec (l : list Point.t) :
  (forall p, In p l -> isOnPoint p = true -> distanceSquared p <> NaN) ->
  forall (i0 : nat) (d0 : num) (t0 : option nat),
    d0 <> NaN ->
    let r := nearestPoint isOnPoint distanceSquared l i0 d0 t0 in
    fst r <> NaN /\ le (fst r) d0 = true
    /\ (forall q, In q l -> isOnPoint q = true ->
                  le (fst r) (distanceSquared q) = true)
    /\ ((r = (d0, t0)
         /\ forall q, In q l -> isOnPoint q = true ->
                      le (distanceSquared q) d0 = false)
        \/ exists j p,
             nth_error l j = Some p /\ isOnPoint p = true
             /\ r = (distanceSquared p, Some (i0 + j)%nat)
             /\ forall k q, nth_error l k = Some q -> isOnPoint q = true ->
                            le (distanceSquared q) (distanceSquared p) = true ->
                            (k <= j)%nat).
Proof.
  induction l as [|p l IH]; intros Hfin i0 d0 t0 Hd0.
  - cbn. repeat split; [assumption|now apply num_le_refl|intros q []|].
    left. split; [reflexivity|intros q []].
  - assert (Hfin' : forall q, In q l -> isOnPoint q = true ->
                              distanceSquared q <> NaN)
      by (intros q Hq; apply Hfin; now right).
    cbn [nearestPoint].
    destruct (isOnPoint p) eqn:Hon; cbn [andb].
    + pose proof (Hfin p (or_introl eq_refl) Hon) as Hp.
      destruct (le (distanceSquared p) d0) eqn:Hle.
      * destruct (IH Hfin' (S i0) (distanceSquared p) (Some i0) Hp)
          as (R1 & R2 & R3 & R4).
        set (r := nearestPoint _ _ l (S i0) (distanceSquared p) (Some i0)) in *.
        cbn zeta. repeat split.
        -- exact R1.
        -- now apply (num_le_trans _ (distanceSquared p)).
        -- intros q [<-|Hq] Hq'; [exact R2|now apply R3].
        -- right. destruct R4 as [[E Hno]|(j & p' & Hn & Hon' & E & Hlast)].
           ++ exists 0%nat, p. rewrite Nat.add_0_r. repeat split; try assumption.
              intros k q Hk Hq Hqp. destruct k as [|k]; [lia|].
              cbn in Hk. apply nth_error_In in Hk.
              rewrite (Hno q Hk Hq) in Hqp. discriminate.
           ++ exists (S j), p'. repeat split; try assumption.
              ** rewrite E. f_equal. f_equal. lia.
              ** intros k q Hk Hq Hqp. destruct k as [|k]; [lia|].
                 cbn in Hk. apply le_n_S. now apply (Hlast k q).
      * destruct (IH Hfin' (S i0) d0 t0 Hd0) as (R1 & R2 & R3 & R4).
        set (r := nearestPoint _ _ l (S i0) d0 t0) in *.
        cbn zeta. repeat split.
        -- exact R1.
        -- exact R2.
        -- intros q [<-|Hq] Hq'; [|now apply R3].
           apply (num_le_trans _ d0); [exact R2|].
           now apply num_le_total.
        -- destruct R4 as [[E Hno]|(j & p' & Hn & Hon' & E & Hlast)].
           ++ left. split; [exact E|].
              intros q [<-|Hq] Hq'; [exact Hle|now apply Hno].
           ++ right. exists (S j), p'. repeat split; try assumption.
              ** rewrite E. f_equal. f_equal. lia.
              ** intros k q Hk Hq Hqp. destruct k as [|k]; [lia|].
                 cbn in Hk. apply le_n_S. now apply (Hlast k q).
    + destruct (IH Hfin' (S i0) d0 t0 Hd0) as (R1 & R2 & R3 & R4).
      set (r := nearestPoint _ _ l (S i0) d0 t0) in *.
      cbn zeta. repeat split.
      * exact R1.
      * exact R2.
      * intros q [<-|Hq] Hq'; [congruence|now apply R3].
      * destruct R4 as [[E Hno]|(j & p' & Hn & Hon' & E & Hlast)].
        -- left. split; [exact E|].
           intros q [<-|Hq] Hq'; [congruence|now apply Hno].
        -- right. exists (S j), p'. repeat split; try assumption.
           ++ rewrite E. f_equal. f_equal. lia.
           ++ intros k q Hk Hq Hqp. destruct k as [|k].
              ** cbn in Hk. inversion Hk; subst q. congruence.
              ** cbn in Hk. apply le_n_S. now apply (Hlast k q).
Qed.

(** X27.  When the mouse is on a control point, [checkMouseOver] returns
    the drag context of a control point the mouse is on that is nearest
    to it, the last one in the list among those equally near, with a copy
    of that point as target; the expanded objects are not consulted.
    (Distances are taken not to be [NaN].) *)
Theorem checkMouseOver_nearest (this : ModuleObj) (q0 : Point.t) :
  (forall p, In p (points this) -> isOnPoint p = true ->
             distanceSquared p <> NaN) ->
  In q0 (points this) -> isOnPoint q0 = true ->
  exists i p,
    nth_error (points this) i = Some p /\ isOnPoint p = true
    /\ checkMouseOver isOnPoint distanceSquared mousePos objCheckMouseOver this
       = Some (onControlPoint i p)
    /\ forall k q,
         nth_error (points this) k = Some q -> isOnPoint q = true ->
         le (distanceSquared p) (distanceSquared q) = true
         /\ (le (distanceSquared q) (distanceSquared p) = true -> (k <= i)%nat).
Proof.
  intros Hfin Hin Hon.
  destruct (nearestPoint_spec (points this) Hfin 0 PInf None ltac:(discriminate))
    as (_ & _ & R3 & [[_ Hno]|(j & p & Hn & Hp & E & Hlast)]).
  - pose proof (Hno q0 Hin Hon) as K.
    rewrite num_le_PInf in K by now apply Hfin.
    discriminate K.
  - exists j, p. repeat split; try assumption.
    + unfold checkMouseOver. rewrite E. cbn [snd Nat.add].
      now rewrite (nth_error_nth _ _ origin Hn).
    + rewrite E in R3. cbn [fst] in R3. apply R3; [|assumption].
      now apply (nth_error_In _ k).
    + now apply Hlast.
Qed.

Lemma nearestPoint_off (l : list Point.t) :
  (forall p, In p l -> isOnPoint p = false) ->
  forall i0 d0 t0,
    nearestPoint isOnPoint distanceSquared l i0 d0 t0 = (d0, t0).
Proof.
  induction l as [|p l IH]; intros Hoff i0 d0 t0; [reflexivity|].
  cbn [nearestPoint]. rewrite (Hoff p (or_introl eq_refl)). cbn [andb].
  apply IH. intros q Hq. apply Hoff. now right.
Qed.

Lemma firstHit_none (l : list SceneObj) :
  firstHit objCheckMouseOver l = None
  <-> forall o, In o l -> objCheckMouseOver o = None.
Proof.
  induction l as [|o l IH]; cbn [firstHit In].
  - split; [intros _ o []|reflexivity].
  - destruct (objCheckMouseOver o) as [t|] eqn:E.
    + split; [discriminate|]. intros K.
      rewrite (K o (or_introl eq_refl)) in E. discriminate.
    + rewrite IH. split.
      * intros K o' [<-|Hin]; [assumption|now apply K].
      * intros K o' Hin. apply K. now right.
Qed.

Lemma firstHit_first (before after : list SceneObj) (o : SceneObj) (t : bool) :
  (forall o', In o' before -> objCheckMouseOver o' = None) ->
  objCheckMouseOver o = Some t ->
  firstHit objCheckMouseOver (before ++ o :: after) = Some t.
Proof.
  induction before as [|b before IH]; intros Hb Ho; cbn [app firstHit].
  - now rewrite Ho.
  - rewrite (Hb b (or_introl eq_refl)). apply IH; [|assumption].
    intros o' Hin. apply Hb. now right.
Qed.

(** X28.  When the mouse is on no control point, [checkMouseOver]
    returns [null] exactly when it is on no expanded object.  Otherwise
    the first expanded object under the mouse decides: a module with
    control points is dragged as a whole from the mouse position; a
    module without control points cannot be dragged, and the cursor is
    [not-allowed] when the object has a target point and [pointer] when
    it has none. *)
Theorem checkMouseOver_objects (this : ModuleObj) :
  (forall p, In p (points this) -> isOnPoint p = false) ->
  let over :=
    checkMouseOver isOnPoint distanceSquared mousePos objCheckMouseOver this in
  (over = None <-> forall o, In o (objs this) -> objCheckMouseOver o = None)
  /\ forall before o after hasTarget,
       objs this = before ++ o :: after ->
       (forall o', In o' before -> objCheckMouseOver o' = None) ->
       objCheckMouseOver o = Some hasTarget ->
       over = Some (match points this with
                    | [] => notDraggable hasTarget
                    | _ => wholeModule mousePos
                    end).
Proof.
  intros Hoff over. unfold over, checkMouseOver.
  rewrite (nearestPoint_off _ Hoff). cbn [snd]. split.
  - rewrite <- firstHit_none.
    destruct (firstHit objCheckMouseOver (objs this)); [|split; reflexivity].
    destruct (points this); split; discriminate.
  - intros before o after t Hobjs Hb Ho.
    rewrite Hobjs, (firstHit_first _ _ _ _ Hb Ho).
    destruct (points this); reflexivity.
Qed.
End MouseOverFacts.

Lemma checkMouseOver_nearest_witness :
  let this : @ModuleObj Toy.host :=
    {| module := "m"; moduleDef := twoPointDef;
       points := [pointAt 3 0; pointAt 9 9; pointAt 0 (-3); pointAt 4 0];
       params := []; objs := []; error := None |} in
  exists i p,
    nth_error (points this) i = Some p /\ isOnPointWithin5 p = true
    /\ checkMouseOver (H := Toy.host) isOnPointWithin5 distanceSquaredFromOrigin
         origin (fun _ => None) this
       = Some (onControlPoint i p)
    /\ forall k q,
         nth_error (points this) k = Some q -> isOnPointWithin5 q = true ->
         le (distanceSquaredFromOrigin p) (distanceSquaredFromOrigin q) = true
         /\ (le (distanceSquaredFromOrigin q) (distanceSquaredFromOrigin p)
             = true -> (k <= i)%nat).
Proof.
  intros this.
  apply (checkMouseOver_nearest (H := Toy.host) isOnPointWithin5
           distanceSquaredFromOrigin origin (fun _ => None) this (pointAt 3 0)).
  - intros p [<-|[<-|[<-|[<-|[]]]]] _; discriminate.
  - now left.
  - reflexivity.
Defined.

Lemma checkMouseOver_objects_witness :
  let this : @ModuleObj Toy.host :=
    {| module := "m"; moduleDef := plainDef VUndef (VArr []) VUndef;
       points := []; params := [];
       objs := [(Toy.oldMirror : @SceneObj Toy.host); ("Prism", VNull)];
       error := None |} in
  let hit (o : @SceneObj Toy.host) :=
    if fst o =? "Prism" then Some true else None in
  checkMouseOver (H := Toy.host) isOnPointWithin5 distanceSquaredFromOrigin
    origin hit this
  = Some (notDraggable true).
Proof.
  intros this hit.
  destruct (checkMouseOver_objects (H := Toy.host) isOnPointWithin5
              distanceSquaredFromOrigin origin hit this) as [_ K].
  - intros p [].
  - apply (K [Toy.oldMirror] (("Prism", VNull) : @SceneObj Toy.host) [] true).
    + reflexivity.
    + intros o' [<-|[]]. reflexivity.
    + reflexivity.
Defined.
